(** * Repository structure validator

    A shallow embedding of [packages/dev-tools/src/validate-repo-structure.ts]:
    the recursive directory walk, the eight rule checks that append to the
    process-scoped [errors] list, and the exit status of the command-line
    entry point.

    Conventions of the embedding:
    - the file tree is a finite tree of [Node]s; [readdir], [stat] and
      [existsSync] are functions of that tree;
    - the module-level [errors] array is threaded explicitly as a
      [list ValidationError];
    - a computation that may throw returns a [Res]: [Done s] when it ran to
      completion, [Raised s] when an exception escaped in state [s];
    - JavaScript strings are [string]s; only the characters [A]-[Z] change
      under [toLowerCase] (a name with a character outside ASCII in its
      extension never lowercases to an entry of the extension tables of
      the validator, so the tests on extensions are not affected);
    - [stat] reports a size as the double nearest to it ([toNumber]);
      [stats.size / 1024] is a division by a power of two, which floating
      point performs without rounding, so the rational [size / 1024]
      stands for it; sizes are sizes of files, below [2^63] bytes, so
      that the rounded number of kilobytes in a message is printed in
      decimal digits;
    - a [RegExp] is a pattern without the [g] and [y] flags, so that
      [test] is a function of the string it is given: the literals of the
      validator are such, and the statements about configured patterns
      speak of such patterns only (with one of those flags a pattern
      keeps [lastIndex] from one call of [test] to the next);
    - a configuration module either fails to load, has no [config]
      export, or exports a [ValidatorConfig] object; exports of other
      shapes ([null], fields of other types) are outside the embedding. *)

From Stdlib Require Import ZArith QArith Qround Ascii.
From Stdlib Require String.
From stdpp Require Import base decidable option list strings gmap pretty.

Local Close Scope Q_scope.
Local Open Scope Z_scope.

(** ** JavaScript string primitives used by the validator *)

Module JS.

Definition chars (s : string) : list ascii := String.list_ascii_of_string s.

Definition toLowerCase_char (c : ascii) : ascii :=
  let n := N_of_ascii c in
  if ((65 <=? n) && (n <=? 90))%N then ascii_of_N (n + 32) else c.

Fixpoint toLowerCase (s : string) : string :=
  match s with
  | EmptyString => EmptyString
  | String c s' => String (toLowerCase_char c) (toLowerCase s')
  end.

Fixpoint drop (n : nat) (s : string) : string :=
  match n, s with
  | O, _ => s
  | S _, EmptyString => EmptyString
  | S n', String _ s' => drop n' s'
  end.

(** [s.substring(start)]: a negative start is clamped to 0, a start
    beyond the end gives the empty string. *)
Definition substring (start : Z) (s : string) : string :=
  drop (Z.to_nat (Z.max 0 start)) s.

(** Left-to-right scan that remembers the last position of [c]. *)
Fixpoint lastIndexOf_from (c : ascii) (s : string) (i found : Z) : Z :=
  match s with
  | EmptyString => found
  | String a s' =>
      lastIndexOf_from c s' (i + 1) (if Ascii.eqb a c then i else found)
  end.

(** [s.lastIndexOf(c)], [-1] when [c] does not occur. *)
Definition lastIndexOf (s : string) (c : ascii) : Z :=
  lastIndexOf_from c s 0 (-1).

Definition endsWith (s t : string) : bool :=
  bool_decide (chars t `suffix_of` chars s).

Fixpoint includes (s t : string) : bool :=
  String.prefix t s ||
  match s with
  | EmptyString => false
  | String _ s' => includes s' t
  end.

(** [s.replaceAll(a, b)] for single-character [a] and [b]. *)
Fixpoint replaceAll (s : string) (a b : ascii) : string :=
  match s with
  | EmptyString => EmptyString
  | String c s' => String (if Ascii.eqb c a then b else c) (replaceAll s' a b)
  end.

Definition dquote : string := String (ascii_of_nat 34) EmptyString.

End JS.

(** ** [node:path] [join], restricted to relative paths *)

Module Path.

Inductive Platform := posix | win32.

Definition sep (p : Platform) : ascii :=
  match p with posix => "/"%char | win32 => "\"%char end.

Definition isPathSeparator (p : Platform) (c : ascii) : bool :=
  match p with
  | posix => Ascii.eqb c "/"
  | win32 => Ascii.eqb c "/" || Ascii.eqb c "\"
  end.

(** Cut a path at its separators; [cur] is the segment being read. *)
Fixpoint split_from (p : Platform) (s cur : string) : list string :=
  match s with
  | EmptyString => [String.rev cur]
  | String c s' =>
      if isPathSeparator p c
      then String.rev cur :: split_from p s' EmptyString
      else split_from p s' (String c cur)
  end.

Definition split (p : Platform) (s : string) : list string :=
  split_from p s EmptyString.

(** Segment normalisation: empty and ["."] segments vanish, [".."]
    removes the segment before it when there is one to remove.
    [acc] holds the segments kept so far, last one first. *)
Fixpoint normalizeSegments (segs acc : list string) : list string :=
  match segs with
  | [] => reverse acc
  | seg :: rest =>
      if bool_decide (seg = "" ∨ seg = ".") then normalizeSegments rest acc
      else if bool_decide (seg = "..") then
        match acc with
        | prev :: acc' =>
            if bool_decide (prev = "..")
            then normalizeSegments rest (seg :: acc)
            else normalizeSegments rest acc'
        | [] => normalizeSegments rest [seg]
        end
      else normalizeSegments rest (seg :: acc)
  end.

Definition normalize (p : Platform) (s : string) : string :=
  let r := String.concat (String (sep p) EmptyString)
             (normalizeSegments (split p s) []) in
  if bool_decide (r = "") then "." else r.

(** [join(a, b)]: the non-empty arguments joined by the separator,
    then normalised. *)
Definition join (p : Platform) (a b : string) : string :=
  let joined :=
    if bool_decide (a = "") then b
    else if bool_decide (b = "") then a
    else a +:+ String (sep p) b in
  normalize p joined.

End Path.

(** ** Regular-expression literals of the validator

    The literals only use literal text, [[^/]+], grouping with
    alternation, and the anchors [^] and [$]. The matcher returns every
    remainder that can be left after matching a prefix of the input. *)

Module Re.

Inductive re :=
| Lit (s : string)
| ClassPlus (f : ascii → bool)
| Seq (r1 r2 : re)
| Alt (r1 r2 : re).

Fixpoint stripPrefix (l s : string) : option string :=
  match l, s with
  | EmptyString, _ => Some s
  | String a l', String b s' =>
      if Ascii.eqb a b then stripPrefix l' s' else None
  | String _ _, EmptyString => None
  end.

Fixpoint classPlus (f : ascii → bool) (s : string) : list string :=
  match s with
  | EmptyString => []
  | String c s' => if f c then s' :: classPlus f s' else []
  end.

Fixpoint run (r : re) (s : string) : list string :=
  match r with
  | Lit l => option_list (stripPrefix l s)
  | ClassPlus f => classPlus f s
  | Seq r1 r2 => mbind (run r2) (run r1 s)
  | Alt r1 r2 => run r1 s ++ run r2 s
  end.

Fixpoint suffixes (s : string) : list string :=
  s :: match s with EmptyString => [] | String _ s' => suffixes s' end.

(** A literal [/.../]: [fromStart] is a leading [^], [toEnd] a trailing [$]. *)
Record RegExpLiteral := {
  fromStart : bool;
  body : re;
  toEnd : bool;
}.

Definition matchAt (l : RegExpLiteral) (s : string) : bool :=
  existsb (λ rest, if toEnd l then bool_decide (rest = "") else true)
          (run (body l) s).

Definition testLiteral (l : RegExpLiteral) (s : string) : bool :=
  if fromStart l then matchAt l s else existsb (matchAt l) (suffixes s).

Definition notSlash (c : ascii) : bool := negb (Ascii.eqb c "/").

End Re.

(** A [RegExp] value as the rules use it: something with a [test] method.
    The patterns covered are those without the [g] and [y] flags: for
    them [test] does not read or write [lastIndex] and its result is a
    function of the string alone. The literals of the validator carry no
    flag; configuration patterns are arbitrary values of this type, that
    is, arbitrary patterns without those two flags. *)
Record RegExp := { test : string → bool }.

Definition regexp (l : Re.RegExpLiteral) : RegExp := {| test := Re.testLiteral l |}.

(** ** Data model *)

Inductive ErrorType := FORBIDDEN_DIRECTORY | LARGE_FILE | STRUCTURAL_VIOLATION.

(** The string constants of [ERROR_TYPES]. *)
Definition ERROR_TYPES (t : ErrorType) : string :=
  match t with
  | FORBIDDEN_DIRECTORY => "forbidden-directory"
  | LARGE_FILE => "large-file"
  | STRUCTURAL_VIOLATION => "structural-violation"
  end.

Inductive Severity := error | warning.

Record ValidationError := {
  type : ErrorType;
  path : string;
  message : string;
  severity : Severity;
}.

Record ValidatorConfig := {
  allowedScriptsPackages : option (list string);
  noExamplesPatterns : option (list RegExp);
  allowedRootTsFiles : option (list string);
  allowedPackageTsPaths : option (list RegExp);
}.

(** The empty object [{}]. *)
Definition emptyConfig : ValidatorConfig :=
  {| allowedScriptsPackages := None; noExamplesPatterns := None;
     allowedRootTsFiles := None; allowedPackageTsPaths := None |}.

Global Instance ErrorType_eq_dec : EqDecision ErrorType.
Proof. solve_decision. Defined.

Global Instance Severity_eq_dec : EqDecision Severity.
Proof. solve_decision. Defined.

Definition WORKTREES_DIR : string := ".worktrees".
Definition COMMON_SKIP_DIRS : gset string := {[ "node_modules"; "dist"; ".git" ]}.
Definition SKIP_DIRS_WITH_HUSKY : gset string :=
  COMMON_SKIP_DIRS ∪ {[ ".husky"; WORKTREES_DIR ]}.

(** ** The file tree

    A directory lists its entries in [readdir] order and may be
    unreadable. A symbolic link carries what it resolves to ([None] when
    it dangles); [NSpecial] stands for sockets, FIFOs and devices.
    [NLost] is an entry that [readdir] reports as a regular file although
    no path resolves to it: a file in a directory that may be read but
    not searched, a name that does not survive the decoding of
    [readdir], or a file removed after the listing. [Dirent.isFile()] is
    true of it, and [stat] and [existsSync] fail on its path. The size of
    a file is in bytes. *)

Local Unset Elimination Schemes.
Inductive Node :=
| NFile (size : N)
| NDir (readable : bool) (entries : list (string * Node))
| NSymlink (target : option Node)
| NSpecial
| NLost.
Local Set Elimination Schemes.

(** Induction over a tree reaches the entries of a directory and the
    target of a link. *)
Section NodeInduction.
Context (P : Node → Prop).
Context (HFile : ∀ sz, P (NFile sz)).
Context (HDir : ∀ r es, Forall (λ e, P e.2) es → P (NDir r es)).
Context (HLink : ∀ t, (∀ n, t = Some n → P n) → P (NSymlink t)).
Context (HSpecial : P NSpecial).
Context (HLost : P NLost).

Fixpoint Node_ind (n : Node) : P n :=
  match n with
  | NFile sz => HFile sz
  | NDir r es =>
      HDir r es
        ((fix all (es : list (string * Node)) : Forall (λ e, P e.2) es :=
            match es with
            | [] => @List.Forall_nil _ (λ e, P e.2)
            | (x, c) :: es' =>
                @List.Forall_cons _ (λ e, P e.2) (x, c) es' (Node_ind c) (all es')
            end) es)
  | NSymlink t =>
      HLink t
        (match t return ∀ n, t = Some n → P n with
         | Some n' => λ n H, eq_ind n' P (Node_ind n') n (Some_inj _ _ H)
         | None => λ n H, False_ind _ (None_ne_Some _ H)
         end)
  | NSpecial => HSpecial
  | NLost => HLost
  end.
End NodeInduction.

(** [Dirent.isDirectory()] and [Dirent.isFile()] look at the entry itself
    and do not follow links. *)
Definition isDirectory (n : Node) : bool :=
  match n with NDir _ _ => true | _ => false end.

Definition isFile (n : Node) : bool :=
  match n with NFile _ | NLost => true | _ => false end.

Fixpoint resolve (n : Node) : option Node :=
  match n with
  | NSymlink t => match t with Some n' => resolve n' | None => None end
  | NLost => None
  | _ => Some n
  end.

Fixpoint assoc (x : string) (es : list (string * Node)) : option Node :=
  match es with
  | [] => None
  | (y, n) :: es' => if bool_decide (x = y) then Some n else assoc x es'
  end.

(** Path resolution by the operating system: every component, the last
    one included, is followed through symbolic links. A path is the list
    of its components below the repository root. *)
Fixpoint lookup (n : Node) (p : list string) : option Node :=
  match resolve n with
  | None => None
  | Some r =>
      match p with
      | [] => Some r
      | x :: p' =>
          match r with
          | NDir _ es =>
              match assoc x es with
              | Some c => lookup c p'
              | None => None
              end
          | _ => None
          end
      end
  end.

(** [readdir(dir, { withFileTypes: true })]; [None] when it throws. *)
Definition readdir (fs : Node) (dir : list string) : option (list (string * Node)) :=
  match lookup fs dir with
  | Some (NDir true es) => Some es
  | _ => None
  end.

Definition existsSync (fs : Node) (p : list string) : bool :=
  bool_decide (is_Some (lookup fs p)).

(** The [Number] nearest to a size: [Stats.size] is a double, so a size
    of more than 53 bits is rounded to 53 bits, halves to the even
    neighbour. Sizes up to [2^53] are exact. *)
Definition toNumber (n : N) : N :=
  let bits := N.size n in
  if (bits <=? 53)%N then n
  else
    let shift := (bits - 53)%N in
    let q := N.shiftr n shift in
    let r := N.land n (N.ones shift) in
    let half := N.shiftl 1 (shift - 1) in
    let up := (half <? r)%N || ((r =? half)%N && N.odd q) in
    N.shiftl (if up then q + 1 else q)%N shift.

(** [(await stat(p)).size]; [None] when [stat] throws, which it does
    when the path does not resolve. The validator only calls it on the
    path of an entry listed as a regular file; other kinds report size 0
    here. *)
Definition stat (fs : Node) (p : list string) : option N :=
  match lookup fs p with
  | Some (NFile sz) => Some (toNumber sz)
  | Some _ => Some 0%N
  | None => None
  end.

(** ** Computations that may throw *)

Inductive Res (S : Type) :=
| Done (s : S)
| Raised (s : S).
Arguments Done {S} s.
Arguments Raised {S} s.

Definition andThen {S} (r : Res S) (k : S → Res S) : Res S :=
  match r with
  | Done s => k s
  | Raised s => Raised s
  end.

Notation "r >>> k" := (andThen r k) (at level 61, left associativity).

Definition state {S} (r : Res S) : S :=
  match r with Done s | Raised s => s end.

(** [for (const x of xs) { await body(x) }] *)
Fixpoint forEach {A S} (xs : list A) (body : A → S → Res S) (s : S) : Res S :=
  match xs with
  | [] => Done s
  | x :: xs' => body x s >>> forEach xs' body
  end.

(** ** [walkDirectory] *)

Record Entry := {
  name : string;
  fullPath : list string;
  relPath : string;
}.

Record WalkOptions (S : Type) := {
  skipDirs : option (gset string);
  onDirectory : option (Entry → S → Res S);
  onFile : option (Entry → S → Res S);
}.
Arguments skipDirs {S} _.
Arguments onDirectory {S} _.
Arguments onFile {S} _.

(** [options.skipDirs?.has(name)] *)
Definition skipped (skip : option (gset string)) (nm : string) : bool :=
  match skip with
  | Some ds => bool_decide (nm ∈ ds)
  | None => false
  end.

(** [if (handler) await handler(entry)] *)
Definition call {S} (handler : option (Entry → S → Res S)) (e : Entry) (s : S) : Res S :=
  match handler with
  | Some h => h e s
  | None => Done s
  end.

Section Walk.
Context (platform : Path.Platform) {S : Type} (options : WalkOptions S).

(** The walk of the directory [n] found at [dir]: the body of
    [walkDirectory] after [readdir], with the recursive call descending
    into the entry's own node. *)
Fixpoint walkNode (n : Node) (dir : list string) (relativePath : string)
    (s : S) {struct n} : Res S :=
  match n with
  | NDir true entries =>
      (fix loop (es : list (string * Node)) (s : S) {struct es} : Res S :=
         match es with
         | [] => Done s
         | (nm, child) :: rest =>
             let e := {| name := nm; fullPath := dir ++ [nm];
                         relPath := Path.join platform relativePath nm |} in
             match child with
             | NDir _ _ =>
                 if skipped (skipDirs options) nm then loop rest s
                 else call (onDirectory options) e s
                      >>> walkNode child (fullPath e) (relPath e)
                      >>> loop rest
             | NFile _ | NLost => call (onFile options) e s >>> loop rest
             | _ => loop rest s
             end
         end) entries s
  | _ => Done s
  end.

Definition walkDirectory (fs : Node) (dir : list string) (relativePath : string)
    (s : S) : Res S :=
  match lookup fs dir with
  | Some n => walkNode n dir relativePath s
  | None => Done s
  end.

End Walk.

(** The callback invocations of a walk, in order. *)
Inductive Visit :=
| VisitDirectory (e : Entry)
| VisitFile (e : Entry).

Definition recording (skip : option (gset string)) : WalkOptions (list Visit) :=
  {| skipDirs := skip;
     onDirectory := Some (λ e t, Done (t ++ [VisitDirectory e]));
     onFile := Some (λ e t, Done (t ++ [VisitFile e])) |}.

(** The trace of [walkDirectory(dir, relativePath, { skipDirs, ... })]. *)
Definition visits (platform : Path.Platform) (skip : option (gset string))
    (fs : Node) (dir : list string) (relativePath : string) : list Visit :=
  state (walkDirectory platform (recording skip) fs dir relativePath []).

(** The entry handed to a callback for the name [nm] listed in [dir]. *)
Definition entryOf (platform : Path.Platform) (dir : list string)
    (relativePath nm : string) : Entry :=
  {| name := nm; fullPath := dir ++ [nm];
     relPath := Path.join platform relativePath nm |}.

(** The trace of the walk of one directory node. *)
Definition trace (platform : Path.Platform) (skip : option (gset string))
    (n : Node) (dir : list string) (relativePath : string) : list Visit :=
  state (walkNode platform (recording skip) n dir relativePath []).

Definition visited (v : Visit) : Entry :=
  match v with VisitDirectory e | VisitFile e => e end.

(** [descends n q m]: following the names [q] downwards from [n], through
    listings of readable directories only, arrives at the entry [m]. *)
Inductive descends : Node → list string → Node → Prop :=
| descends_here n : descends n [] n
| descends_step es x c q m :
    (x, c) ∈ es → descends c q m → descends (NDir true es) (x :: q) m.

(** The listing [es] without its entries that are neither directories nor
    regular files, [erase] applied to the entries that stay. *)
Definition keepEntries (erase : Node → Node)
    : list (string * Node) → list (string * Node) :=
  fix go es :=
    match es with
    | [] => []
    | (nm, c) :: rest =>
        match c with
        | NDir _ _ | NFile _ | NLost => (nm, erase c) :: go rest
        | _ => go rest
        end
    end.

(** The tree without its symbolic links, sockets, FIFOs and devices. *)
Fixpoint eraseOthers (n : Node) : Node :=
  match n with
  | NDir r es => NDir r (keepEntries eraseOthers es)
  | _ => n
  end.

Definition kindMatches (v : Visit) (m : Node) : bool :=
  match v with
  | VisitDirectory _ => isDirectory m
  | VisitFile _ => isFile m
  end.

(** What a walk does at one visit. *)
Definition handle {S} (options : WalkOptions S) (v : Visit) (s : S) : Res S :=
  match v with
  | VisitDirectory e => call (onDirectory options) e s
  | VisitFile e => call (onFile options) e s
  end.

(** ** The rules *)

Definition push (v : ValidationError) (errors : list ValidationError)
    : Res (list ValidationError) :=
  Done (errors ++ [v]).

(** [if (cond) errors.push(v)] *)
Definition pushIf (cond : bool) (v : ValidationError)
    (errors : list ValidationError) : Res (list ValidationError) :=
  if cond then push v errors else Done errors.

Definition Qgtb (a b : Q) : bool := negb (Qle_bool a b).

(** [Math.round]: to the nearest integer, halves upwards. *)
Definition Math_round (x : Q) : Z := Qfloor (x + (1 # 2))%Q.

Definition lit (fromStart : bool) (body : Re.re) (toEnd : bool) : RegExp :=
  regexp {| Re.fromStart := fromStart; Re.body := body; Re.toEnd := toEnd |}.

(** [/^packages\/[^/]+<tail>/], with a trailing [$] when [toEnd]. *)
Definition underPackage (tail : Re.re) (toEnd : bool) : RegExp :=
  lit true (Re.Seq (Re.Lit "packages/") (Re.Seq (Re.ClassPlus Re.notSlash) tail)) toEnd.

Definition MAX_SIZE_KB : Z := 100.
Definition ALLOWED_LARGE_EXTENSIONS : gset string :=
  {[ ".zip"; ".tar"; ".gz"; ".tgz"; ".tar.gz" ]}.
Definition FORBIDDEN_EXTENSIONS : gset string :=
  {[ ".sh"; ".ps1"; ".bat"; ".cmd" ]}.

(** [name.substring(name.lastIndexOf('.'))] *)
Definition extension (nm : string) : string :=
  JS.substring (JS.lastIndexOf nm ".") nm.

Definition isCompressed (nm : string) : bool :=
  bool_decide (JS.toLowerCase (extension nm) ∈ ALLOWED_LARGE_EXTENSIONS).

Definition isShellScript (nm : string) : bool :=
  bool_decide (JS.toLowerCase (extension nm) ∈ FORBIDDEN_EXTENSIONS).

(** [/^packages\/[^/]+\/package\.json$/] *)
Definition IN_PACKAGES_DIR : RegExp := underPackage (Re.Lit "/package.json") true.
(** [/^packages\/[^/]+\/test\/fixtures\//] *)
Definition IN_TEST_FIXTURES : RegExp := underPackage (Re.Lit "/test/fixtures/") false.

Definition BUILT_IN_ROOT_TS_FILES : gset string :=
  {[ "eslint.config.ts"; "vitest.config.ts"; "vitest.integration.config.ts";
     "vitest.system.config.ts"; "vitest.workspace.ts" ]}.

Definition BUILT_IN_PACKAGE_PATTERNS : list RegExp :=
  [ underPackage (Re.Lit "/src/") false;
    underPackage (Re.Lit "/test/") false;
    underPackage (Re.Lit "/examples/") false;
    underPackage (Re.Lit "/generated/") false;
    underPackage (Re.Lit "/scripts/") false ].

(** [/^packages\/[^/]+\/(vitest\.(config|integration\.config|system\.config)|knip\.config)\.ts$/] *)
Definition PACKAGE_CONFIG_PATTERN : RegExp :=
  underPackage
    (Re.Seq (Re.Lit "/")
       (Re.Seq
          (Re.Alt
             (Re.Seq (Re.Lit "vitest.")
                (Re.Alt (Re.Lit "config")
                   (Re.Alt (Re.Lit "integration.config") (Re.Lit "system.config"))))
             (Re.Lit "knip.config"))
          (Re.Lit ".ts")))
    true.

Section Validator.
Context (platform : Path.Platform) (fs : Node).

(** Paths are lists of components below the repository root. *)
Definition REPO_ROOT : list string := [].

Definition walk := walkDirectory platform (S := list ValidationError).

(** Helper: apply [checkDirectory] to every package's test/fixtures
    directory. The unguarded [readdir] throws when [packages] cannot be
    listed. *)
Definition forEachPackageFixturesDir
    (checkDirectory : list string → string → list ValidationError →
                      Res (list ValidationError))
    (errors : list ValidationError) : Res (list ValidationError) :=
  let packagesDir := REPO_ROOT ++ ["packages"] in
  match readdir fs packagesDir with
  | None => Raised errors
  | Some entries =>
      forEach entries
        (λ '(nm, node) errors,
           if isDirectory node then
             let fixturesDir := packagesDir ++ [nm; "test"; "fixtures"] in
             checkDirectory fixturesDir ("packages/" +:+ nm +:+ "/test/fixtures") errors
           else Done errors)
        errors
  end.

Definition validateNoExamplesInPatternPackages (config : ValidatorConfig)
    (errors : list ValidationError) : Res (list ValidationError) :=
  let patterns := default [] (noExamplesPatterns config) in
  if bool_decide (length patterns = 0%nat) then Done errors
  else
    let packagesDir := REPO_ROOT ++ ["packages"] in
    match readdir fs packagesDir with
    | None => Raised errors
    | Some entries =>
        forEach entries
          (λ '(nm, node) errors,
             if negb (isDirectory node) then Done errors
             else
               let matchesPattern := existsb (λ p, test p nm) patterns in
               if negb matchesPattern then Done errors
               else
                 let examplesDir := packagesDir ++ [nm; "examples"] in
                 pushIf (existsSync fs examplesDir)
                   {| type := FORBIDDEN_DIRECTORY;
                      path := "packages/" +:+ nm +:+ "/examples/";
                      message := "Package " +:+ JS.dquote +:+ nm +:+ JS.dquote +:+
                        " matches a restricted pattern and must not have an /examples directory.";
                      severity := error |}
                   errors)
          errors
    end.

Definition validateScriptsLocation (config : ValidatorConfig)
    (errors : list ValidationError) : Res (list ValidationError) :=
  let packagesDir := REPO_ROOT ++ ["packages"] in
  match readdir fs packagesDir with
  | None => Raised errors
  | Some entries =>
      let allowed : gset string :=
        list_to_set (default ["dev-tools"] (allowedScriptsPackages config)) in
      forEach entries
        (λ '(nm, node) errors,
           if negb (isDirectory node) || bool_decide (nm ∈ allowed) then Done errors
           else
             let scriptsDir := packagesDir ++ [nm; "scripts"] in
             pushIf (existsSync fs scriptsDir)
               {| type := FORBIDDEN_DIRECTORY;
                  path := "packages/" +:+ nm +:+ "/scripts/";
                  message := "Only packages in allowedScriptsPackages may have /scripts directories. Move utilities to dev-tools package.";
                  severity := error |}
               errors)
        errors
  end.

Definition largeFile (e : Entry) (sizeKB : Q) : ValidationError :=
  {| type := LARGE_FILE;
     path := relPath e;
     message := "File is " +:+ pretty (Math_round sizeKB) +:+ "KB (>" +:+
       pretty MAX_SIZE_KB +:+
       "KB). Compress large test fixtures or use external storage.";
     severity := warning |}.

Definition validateTestFixtureSizes_onFile (e : Entry)
    (errors : list ValidationError) : Res (list ValidationError) :=
  match stat fs (fullPath e) with
  | None => Raised errors
  | Some size =>
      let sizeKB := (inject_Z (Z.of_N size) / inject_Z 1024)%Q in
      if Qgtb sizeKB (inject_Z MAX_SIZE_KB) then
        pushIf (negb (isCompressed (name e))) (largeFile e sizeKB) errors
      else Done errors
  end.

Definition validateTestFixtureSizes
    : list ValidationError → Res (list ValidationError) :=
  forEachPackageFixturesDir
    (λ dir relativePath,
       walk {| skipDirs := None; onDirectory := None;
               onFile := Some validateTestFixtureSizes_onFile |}
            fs dir relativePath).

Definition shellScript (e : Entry) : ValidationError :=
  {| type := FORBIDDEN_DIRECTORY;
     path := relPath e;
     message := "Shell scripts are forbidden. Use TypeScript for cross-platform automation (packages/dev-tools/src/).";
     severity := error |}.

Definition validateNoShellScripts_onFile (e : Entry)
    : list ValidationError → Res (list ValidationError) :=
  pushIf (isShellScript (name e)) (shellScript e).

Definition validateNoShellScripts
    : list ValidationError → Res (list ValidationError) :=
  walk {| skipDirs := Some SKIP_DIRS_WITH_HUSKY; onDirectory := None;
          onFile := Some validateNoShellScripts_onFile |}
       fs REPO_ROOT ".".

Definition validateNoStagingDirectories_onDirectory (e : Entry)
    : list ValidationError → Res (list ValidationError) :=
  pushIf (bool_decide (name e = "staging"))
    {| type := FORBIDDEN_DIRECTORY;
       path := relPath e;
       message := "Staging directories should not be committed. Add to .gitignore and remove from git.";
       severity := error |}.

Definition validateNoStagingDirectories
    : list ValidationError → Res (list ValidationError) :=
  forEachPackageFixturesDir
    (λ dir relativePath,
       walk {| skipDirs := None;
               onDirectory := Some validateNoStagingDirectories_onDirectory;
               onFile := None |}
            fs dir relativePath).

Definition nestedPackageJson (e : Entry) : ValidationError :=
  {| type := FORBIDDEN_DIRECTORY;
     path := relPath e;
     message := "Nested package.json detected. Only root, packages/*/, and test/fixtures/ can have package.json files.";
     severity := error |}.

Definition validateNoNestedPackageJson_onFile (e : Entry)
    (errors : list ValidationError) : Res (list ValidationError) :=
  if bool_decide (name e = "package.json") then
    let normalizedPath := JS.replaceAll (relPath e) "\" "/" in
    let isRootPackageJson := bool_decide (normalizedPath = "package.json") in
    let isInPackagesDir := test IN_PACKAGES_DIR normalizedPath in
    let isInTestFixtures := test IN_TEST_FIXTURES normalizedPath in
    pushIf (negb isRootPackageJson && negb isInPackagesDir && negb isInTestFixtures)
      (nestedPackageJson e) errors
  else Done errors.

Definition validateNoNestedPackageJson
    : list ValidationError → Res (list ValidationError) :=
  walk {| skipDirs := Some (COMMON_SKIP_DIRS ∪ {[ WORKTREES_DIR ]});
          onDirectory := None;
          onFile := Some validateNoNestedPackageJson_onFile |}
       fs REPO_ROOT ".".

Definition validateSourceFileLocations_onFile (config : ValidatorConfig)
    (e : Entry) (errors : list ValidationError) : Res (list ValidationError) :=
  let extraRootFiles : gset string :=
    list_to_set (default [] (allowedRootTsFiles config)) in
  let allowedRootTsFiles := BUILT_IN_ROOT_TS_FILES ∪ extraRootFiles in
  let extraPackagePatterns := default [] (allowedPackageTsPaths config) in
  let allowedPackagePatterns := BUILT_IN_PACKAGE_PATTERNS ++ extraPackagePatterns in
  if negb (JS.endsWith (name e) ".ts") then Done errors
  else
    let normalizedPath := JS.replaceAll (relPath e) "\" "/" in
    if bool_decide (normalizedPath ∈ allowedRootTsFiles) then Done errors
    else if test PACKAGE_CONFIG_PATTERN normalizedPath then Done errors
    else
      let isAllowed := existsb (λ p, test p normalizedPath) allowedPackagePatterns in
      pushIf (negb isAllowed)
        {| type := STRUCTURAL_VIOLATION;
           path := relPath e;
           message := "TypeScript file in wrong location. Source files must be in packages/*/src/, packages/*/test/, or other configured locations.";
           severity := error |}
        errors.

Definition validateSourceFileLocations (config : ValidatorConfig)
    : list ValidationError → Res (list ValidationError) :=
  walk {| skipDirs :=
            Some {[ "node_modules"; "dist"; ".git"; ".husky"; ".worktrees" ]};
          onDirectory := None;
          onFile := Some (validateSourceFileLocations_onFile config) |}
       fs REPO_ROOT ".".

Definition structural (e : Entry) (msg : string) : ValidationError :=
  {| type := STRUCTURAL_VIOLATION; path := relPath e; message := msg;
     severity := error |}.

(** The conditions of the four naming checks, in source order. *)
Definition isLegacySpec (e : Entry) : bool :=
  JS.endsWith (name e) ".spec.ts".

Definition isMisplacedIntegration (e : Entry) : bool :=
  let normalizedPath := JS.replaceAll (relPath e) "\" "/" in
  JS.endsWith (name e) ".integration.test.ts" &&
  negb (JS.includes normalizedPath "/test/integration/").

Definition isMisplacedSystem (e : Entry) : bool :=
  let normalizedPath := JS.replaceAll (relPath e) "\" "/" in
  JS.endsWith (name e) ".system.test.ts" &&
  negb (JS.includes normalizedPath "/test/system/").

Definition isMisnamedUnit (e : Entry) : bool :=
  let normalizedPath := JS.replaceAll (relPath e) "\" "/" in
  JS.endsWith (name e) ".test.ts" &&
  negb (JS.endsWith (name e) ".integration.test.ts") &&
  negb (JS.endsWith (name e) ".system.test.ts") &&
  (JS.includes normalizedPath "/test/integration/" ||
   JS.includes normalizedPath "/test/system/").

Definition validateTestFileNaming_onFile (e : Entry)
    (errors : list ValidationError) : Res (list ValidationError) :=
  pushIf (isLegacySpec e)
    (structural e "Use .test.ts instead of .spec.ts for consistency.") errors
  >>> pushIf (isMisplacedIntegration e)
    (structural e "Integration tests must be in test/integration/ directory.")
  >>> pushIf (isMisplacedSystem e)
    (structural e "System tests must be in test/system/ directory.")
  >>> pushIf (isMisnamedUnit e)
    (structural e "Unit tests in integration/system directories must use .integration.test.ts or .system.test.ts suffix.").

Definition validateTestFileNaming
    : list ValidationError → Res (list ValidationError) :=
  walk {| skipDirs := Some COMMON_SKIP_DIRS; onDirectory := None;
          onFile := Some validateTestFileNaming_onFile |}
       fs REPO_ROOT ".".

(** The eight checks of [validate], in order. *)
Definition runRules (config : ValidatorConfig)
    (errors : list ValidationError) : Res (list ValidationError) :=
  validateNoNestedPackageJson errors
  >>> validateSourceFileLocations config
  >>> validateTestFileNaming
  >>> validateNoExamplesInPatternPackages config
  >>> validateScriptsLocation config
  >>> validateNoShellScripts
  >>> validateNoStagingDirectories
  >>> validateTestFixtureSizes.

(** How a call of [validate] ends; each case carries the [errors] list
    it leaves behind. *)
Inductive Outcome :=
| Returned (errors : list ValidationError)
| Exited (code : Z) (errors : list ValidationError)
| Threw (errors : list ValidationError).

Definition hasErrors (errors : list ValidationError) : bool :=
  existsb (λ e, bool_decide (severity e = error)) errors.

(** [validate(config)] called when the module-level list holds
    [errors]. [printResults] only writes to the console. *)
Definition validate (config : ValidatorConfig)
    (errors : list ValidationError) : Outcome :=
  match runRules config errors with
  | Raised errors' => Threw errors'
  | Done errors' =>
      if hasErrors errors' then Exited 1 errors' else Returned errors'
  end.


(** What [await import('./repo-structure-config.js')] gives: it throws,
    or yields a module whose [config] export may be missing and otherwise
    is a [ValidatorConfig] object, as the cast in the entry point takes
    it to be. A module whose [config] is [null] or has fields of other
    types is not represented. *)
Inductive ImportResult :=
| ImportThrows
| Imported (config : option ValidatorConfig).

(** The [import.meta.main] block in a fresh process; the result is the
    exit status. [validate(undefined)] takes the default parameter [{}]. *)
Definition main (configModule : ImportResult) : Z :=
  let config :=
    match configModule with
    | ImportThrows => emptyConfig
    | Imported c => default emptyConfig c
    end in
  match validate config [] with
  | Threw _ => 2
  | Exited code _ => code
  | Returned _ => 0
  end.

End Validator.

(** * Vocabulary of the statements *)

(** Every callback made by a walk is for an entry of the matching kind,
    reached through listings of readable directories. *)
Definition kindsHold (platform : Path.Platform) (skip : option (gset string))
    (n : Node) : Prop :=
  ∀ dir rel v,
    v ∈ trace platform skip n dir rel →
    ∃ above m,
      fullPath (visited v) = dir ++ above ++ [name (visited v)] ∧
      descends n (above ++ [name (visited v)]) m ∧
      kindMatches v m = true.

(** What the four checks of the naming rule add for one file. *)
Definition namingViolations (e : Entry) : list ValidationError :=
  (if isLegacySpec e
   then [structural e "Use .test.ts instead of .spec.ts for consistency."]
   else []) ++
  (if isMisplacedIntegration e
   then [structural e "Integration tests must be in test/integration/ directory."]
   else []) ++
  (if isMisplacedSystem e
   then [structural e "System tests must be in test/system/ directory."]
   else []) ++
  (if isMisnamedUnit e
   then [structural e "Unit tests in integration/system directories must use .integration.test.ts or .system.test.ts suffix."]
   else []).

(** The words a pattern matches. *)
Fixpoint denotes (r : Re.re) (w : string) : Prop :=
  match r with
  | Re.Lit l => w = l
  | Re.ClassPlus f => w ≠ "" ∧ Forall (λ c, f c = true) (JS.chars w)
  | Re.Seq r1 r2 => ∃ u v, w = u +:+ v ∧ denotes r1 u ∧ denotes r2 v
  | Re.Alt r1 r2 => denotes r1 w ∨ denotes r2 w
  end.

(** A non-empty path component: the [<name>] of [packages/<name>/...]. *)
Definition isSegment (nm : string) : Prop :=
  nm ≠ "" ∧ "/"%char ∉ JS.chars nm.

(** Where a [package.json] may be: the root manifest, the manifest of a
    package, or anything below a package's test/fixtures directory. *)
Definition validManifestLocation (p : string) : Prop :=
  p = "package.json" ∨
  (∃ nm, isSegment nm ∧ p = "packages/" +:+ nm +:+ "/package.json") ∨
  (∃ nm rest, isSegment nm ∧
              p = "packages/" +:+ nm +:+ "/test/fixtures/" +:+ rest).

(** [f] only appends: whatever the list holds when it starts, it ends the
    same way ([ok]: it returned, otherwise it threw) with the same records
    [added] after what was there, each of them satisfying [P]. *)
Definition appends (P : ValidationError → Prop)
    (f : list ValidationError → Res (list ValidationError)) : Prop :=
  ∃ added ok,
    Forall P added ∧
    ∀ errors, f errors = (if ok : bool then Done else Raised) (errors ++ added).

(** Severity [warning] goes with type large-file and with no other type. *)
Definition severityMatchesType (v : ValidationError) : Prop :=
  (severity v = warning ↔ type v = LARGE_FILE) ∧
  (type v = FORBIDDEN_DIRECTORY ∨ type v = STRUCTURAL_VIOLATION →
   severity v = error).

(** The eight rule checks, in the order [validate] runs them. *)
Definition rules (platform : Path.Platform) (fs : Node) (config : ValidatorConfig)
    : list (list ValidationError → Res (list ValidationError)) :=
  [ validateNoNestedPackageJson platform fs;
    validateSourceFileLocations platform fs config;
    validateTestFileNaming platform fs;
    validateNoExamplesInPatternPackages fs config;
    validateScriptsLocation fs config;
    validateNoShellScripts platform fs;
    validateNoStagingDirectories platform fs;
    validateTestFixtureSizes platform fs ].

(** The configuration [main] passes to [validate]. *)
Definition configOf (configModule : ImportResult) : ValidatorConfig :=
  match configModule with
  | ImportThrows => emptyConfig
  | Imported c => default emptyConfig c
  end.

(** ** Sample trees *)

(** A repository with one package: a manifest at the root and in the
    package, and an empty source directory. *)
Definition cleanTree : Node :=
  NDir true
    [ ("package.json", NFile 120);
      ("packages", NDir true
         [ ("foo", NDir true
              [ ("package.json", NFile 80);
                ("src", NDir true []) ]) ]) ].

(** The same with one fixture of 101 KB, which costs a warning only. *)
Definition warningTree : Node :=
  NDir true
    [ ("package.json", NFile 120);
      ("packages", NDir true
         [ ("foo", NDir true
              [ ("package.json", NFile 80);
                ("test", NDir true
                   [ ("fixtures", NDir true [ ("big.json", NFile 103424) ]) ]) ]) ]) ].

(** A package whose [scripts] entry is a FIFO, next to a link to a
    directory that holds a shell script. *)
Definition fifoTree : Node :=
  NDir true
    [ ("packages", NDir true
         [ ("foo", NDir true
              [ ("scripts", NSpecial);
                ("vendor", NSymlink (Some (NDir true [ ("run.sh", NFile 10) ])));
                ("src", NDir true [ ("index.ts", NFile 10) ]) ]) ]) ].

(** A tree with a dependency directory and a build directory. *)
Definition skipTree : Node :=
  NDir true
    [ ("node_modules", NDir true
         [ ("dep", NDir true [ ("package.json", NFile 10) ]) ]);
      ("packages", NDir true
         [ ("foo", NDir true
              [ ("dist", NDir true [ ("index.ts", NFile 10) ]);
                ("package.json", NFile 10) ]) ]) ].

(** Fixtures of exactly 100 KB, of 101 KB and a 200 KB archive. *)
Definition fixtureTree : Node :=
  NDir true
    [ ("packages", NDir true
         [ ("foo", NDir true
              [ ("test", NDir true
                   [ ("fixtures", NDir true
                        [ ("exact.json", NFile 102400);
                          ("big.json", NFile 103424);
                          ("archive.zip", NFile 204800) ]) ]) ]) ]) ].

Definition fixtureEntry (nm : string) : Entry :=
  {| name := nm;
     fullPath := ["packages"; "foo"; "test"; "fixtures"; nm];
     relPath := "packages/foo/test/fixtures/" +:+ nm |}.

(** A manifest one level too deep. *)
Definition nestedManifest : Entry :=
  {| name := "package.json";
     fullPath := ["packages"; "foo"; "src"; "package.json"];
     relPath := "packages/foo/src/package.json" |}.

Definition packageManifest : Entry :=
  {| name := "package.json";
     fullPath := ["packages"; "foo"; "package.json"];
     relPath := "packages/foo/package.json" |}.

(** A package with a manifest one level too deep and test files that
    follow or break the naming conventions. *)
Definition conventionTree : Node :=
  NDir true
    [ ("package.json", NFile 120);
      ("packages", NDir true
         [ ("foo", NDir true
              [ ("package.json", NFile 80);
                ("src", NDir true [ ("package.json", NFile 80) ]);
                ("test", NDir true
                   [ ("bar.spec.ts", NFile 10);
                     ("bar.integration.test.ts", NFile 10);
                     ("integration", NDir true
                        [ ("baz.integration.test.ts", NFile 10);
                          ("unit.test.ts", NFile 10) ]) ]) ]) ]) ].

(** * Further vocabulary: what a walk reaches *)

(** The entry at the end of the names [q] below the start [dir] of a walk:
    its relative path is the start's, joined with one name after the
    other. *)
Definition entryAt (platform : Path.Platform) (dir : list string)
    (relativePath : string) (q : list string) : Entry :=
  {| name := default "" (last q);
     fullPath := dir ++ q;
     relPath := foldl (Path.join platform) relativePath q |}.

(** The callback for the entry [m] found at [q]. *)
Definition visitOf (platform : Path.Platform) (dir : list string)
    (relativePath : string) (q : list string) (m : Node) : Visit :=
  if isFile m then VisitFile (entryAt platform dir relativePath q)
  else VisitDirectory (entryAt platform dir relativePath q).

(** [reached skip n q m]: [m] is a regular file or a directory found by
    following the names [q] from [n] through readable directories, none
    of the directories on the way, [m] included when it is one, having a
    skipped name. *)
Definition reached (skip : option (gset string)) (n : Node) (q : list string)
    (m : Node) : Prop :=
  descends n q m ∧ q ≠ [] ∧
  (isFile m = true ∨ isDirectory m = true) ∧
  Forall (λ x, skipped skip x = false) (if isFile m then removelast q else q).

(** * Further vocabulary: trees as file systems have them *)

(** Every directory of the tree, also behind links, lists each name once. *)
Fixpoint distinctNames (n : Node) : Prop :=
  match n with
  | NDir _ es =>
      NoDup es.*1 ∧
      (fix all (es : list (string * Node)) : Prop :=
         match es with
         | [] => True
         | (_, c) :: rest => distinctNames c ∧ all rest
         end) es
  | NSymlink (Some t) => distinctNames t
  | _ => True
  end.

(** [f] runs to completion from every list. *)
Definition completes (f : list ValidationError → Res (list ValidationError)) : Prop :=
  ∀ errors, ∃ errors', f errors = Done errors'.

(** * Further vocabulary: the records of the package rules *)

Definition scriptsViolation (nm : string) : ValidationError :=
  {| type := FORBIDDEN_DIRECTORY;
     path := "packages/" +:+ nm +:+ "/scripts/";
     message := "Only packages in allowedScriptsPackages may have /scripts directories. Move utilities to dev-tools package.";
     severity := error |}.

Definition examplesViolation (nm : string) : ValidationError :=
  {| type := FORBIDDEN_DIRECTORY;
     path := "packages/" +:+ nm +:+ "/examples/";
     message := "Package " +:+ JS.dquote +:+ nm +:+ JS.dquote +:+
       " matches a restricted pattern and must not have an /examples directory.";
     severity := error |}.

(** The packages the scripts rule reports: directories listed in
    [packages], outside the allow-list, in which the path [scripts]
    exists. *)
Definition scriptsReported (fs : Node) (config : ValidatorConfig)
    (entries : list (string * Node)) (nm : string) : Prop :=
  ∃ node, (nm, node) ∈ entries ∧ isDirectory node = true ∧
          (nm ∉ default ["dev-tools"] (allowedScriptsPackages config)) ∧
          is_Some (lookup fs ["packages"; nm; "scripts"]).

(** The packages the examples rule reports: directories listed in
    [packages] whose name a configured pattern matches and in which the
    path [examples] exists. *)
Definition examplesReported (fs : Node) (config : ValidatorConfig)
    (entries : list (string * Node)) (nm : string) : Prop :=
  ∃ node, (nm, node) ∈ entries ∧ isDirectory node = true ∧
          (∃ p, p ∈ default [] (noExamplesPatterns config) ∧ test p nm = true) ∧
          is_Some (lookup fs ["packages"; nm; "examples"]).

(** The listing of [packages] names each package once. *)
Definition packagesDistinct (entries : list (string * Node)) : Prop :=
  NoDup entries.*1.

(** * Further vocabulary: runs that end alike *)


(** * Further vocabulary: where a TypeScript file may be *)

Definition PACKAGE_SOURCE_DIRS : list string :=
  ["src"; "test"; "examples"; "generated"; "scripts"].

Definition PACKAGE_CONFIG_FILES : list string :=
  ["vitest.config.ts"; "vitest.integration.config.ts";
   "vitest.system.config.ts"; "knip.config.ts"].

(** The locations the source-location rule accepts for a [.ts] file: a
    built-in or configured root file (the whole normalised path is
    compared), a configuration file directly in a package, anything
    below one of the five directories of a package, or a path that a
    configured pattern matches. *)
Definition allowedTsLocation (config : ValidatorConfig) (p : string) : Prop :=
  p ∈ BUILT_IN_ROOT_TS_FILES ∨
  p ∈ default [] (allowedRootTsFiles config) ∨
  (∃ nm f, isSegment nm ∧ f ∈ PACKAGE_CONFIG_FILES ∧
           p = "packages/" +:+ nm +:+ "/" +:+ f) ∨
  (∃ nm d rest, isSegment nm ∧ d ∈ PACKAGE_SOURCE_DIRS ∧
                p = "packages/" +:+ nm +:+ "/" +:+ d +:+ "/" +:+ rest) ∨
  (∃ pat, pat ∈ default [] (allowedPackageTsPaths config) ∧ test pat p = true).

(** [config'] allows at least what [config] allows. *)
Definition extendsConfig (config config' : ValidatorConfig) : Prop :=
  default [] (allowedRootTsFiles config) ⊆ default [] (allowedRootTsFiles config') ∧
  default [] (allowedPackageTsPaths config) ⊆
    default [] (allowedPackageTsPaths config').

(** * Further model: the report *)

Definition toUpperCase_char (c : ascii) : ascii :=
  let n := N_of_ascii c in
  if ((97 <=? n) && (n <=? 122))%N then ascii_of_N (n - 32) else c.

(** [s.toUpperCase()], on the letters [a]-[z]. *)
Fixpoint toUpperCase (s : string) : string :=
  match s with
  | EmptyString => EmptyString
  | String c s' => String (toUpperCase_char c) (toUpperCase s')
  end.

(** The line feed of a template string. *)
Definition nl : string := String (ascii_of_nat 10) EmptyString.

(** The pictographs of the console output: for the opening line, a passed
    run, a failed run or an error, and a warning. The statements hold
    whichever they are. *)
Record Icons := {
  searching : string;
  passed : string;
  failed : string;
  warned : string;
}.

(** One step of the [reduce] in [printResults]:
    [(acc[error.type] ??= []).push(error)]. The object keeps its keys in
    the order in which they were created. *)
Fixpoint groupPush (acc : list (ErrorType * list ValidationError))
    (e : ValidationError) : list (ErrorType * list ValidationError) :=
  match acc with
  | [] => [(type e, [e])]
  | (t, list) :: rest =>
      if bool_decide (t = type e) then (t, list ++ [e]) :: rest
      else (t, list) :: groupPush rest e
  end.

Definition byType (errors : list ValidationError)
    : list (ErrorType * list ValidationError) :=
  foldl groupPush [] errors.

Definition errorCount (errors : list ValidationError) : nat :=
  length (filter (λ e, severity e = error) errors).

Definition warningCount (errors : list ValidationError) : nat :=
  length (filter (λ e, severity e = warning) errors).

Definition violationLines (icons : Icons) (e : ValidationError) : list string :=
  let icon := if bool_decide (severity e = error) then failed icons
              else warned icons in
  [ "  " +:+ icon +:+ " " +:+ path e;
    "     " +:+ message e +:+ nl ].

Definition groupLines (icons : Icons)
    (group : ErrorType * list ValidationError) : list string :=
  (nl +:+ JS.replaceAll (toUpperCase (ERROR_TYPES group.1)) "-" " " +:+ ":")
  :: flat_map (violationLines icons) group.2.

(** [printResults()] when the module-level list holds [errors]: the
    arguments of its [console.log] calls, in order. *)
Definition printResults (icons : Icons) (errors : list ValidationError)
    : list string :=
  if bool_decide (length errors = 0%nat) then
    [ passed icons +:+ " Repository structure validation passed!" ]
  else
    [ nl +:+ failed icons +:+ " Repository structure validation failed:";
      "   " +:+ pretty (errorCount errors) +:+ " errors, " +:+
        pretty (warningCount errors) +:+ " warnings" +:+ nl ]
    ++ flat_map (groupLines icons) (byType errors).

(** What a call of [validate] writes with [console.log]: the opening
    line, then the report when the rules have completed. An exception
    leaves [validate] before [printResults]. *)
Definition validateLog (platform : Path.Platform) (fs : Node) (icons : Icons)
    (config : ValidatorConfig) (errors : list ValidationError) : list string :=
  (searching icons +:+ " Validating repository structure..." +:+ nl)
  :: match runRules platform fs config errors with
     | Done errors' => printResults icons errors'
     | Raised _ => []
     end.

(** * Further vocabulary: the groups of the report *)

(** The types of a list in the order of their first occurrence. *)
Fixpoint firstSeen (ts : list ErrorType) : list ErrorType :=
  match ts with
  | [] => []
  | t :: ts' => t :: filter (λ u, u ≠ t) (firstSeen ts')
  end.

(** The records of type [t], in the order of the list. *)
Definition ofType (errors : list ValidationError) (t : ErrorType)
    : ErrorType * list ValidationError :=
  (t, filter (λ e, type e = t) errors).

(** * Further vocabulary: names and positions *)

(** A name as a directory of the platform lists it: not empty, neither
    [.] nor [..], and without a separator of the platform, that is,
    without a slash and, on Windows, without a backslash. A name on POSIX
    may contain backslashes. *)
Definition properName (platform : Path.Platform) (nm : string) : Prop :=
  nm ≠ "" ∧ nm ≠ "." ∧ nm ≠ ".." ∧
  ∀ c, c ∈ JS.chars nm → Path.isPathSeparator platform c = false.

(** A name without a backslash. *)
Definition plainName (nm : string) : Prop := "\"%char ∉ JS.chars nm.

(** [p.replaceAll('\\', '/')], the normalisation the rules apply. *)
Definition normalised (p : string) : string := JS.replaceAll p "\" "/".

(** The components of a path as the rules see them after normalisation:
    every name is cut at its backslashes. Names without a backslash are
    their own single part. *)
Definition normalisedParts (q : list string) : list string :=
  flat_map (λ nm, Path.split Path.posix (normalised nm)) q.

(** The positions, as lists of components from the repository root, at
    which a [package.json] is accepted: the root, directly in a directory
    of [packages], and anywhere below the test/fixtures directory of
    one. *)
Definition manifestPosition (q : list string) : Prop :=
  q = ["package.json"] ∨
  (∃ x, x ≠ "" ∧ q = ["packages"; x; "package.json"]) ∨
  (∃ x rest, x ≠ "" ∧ rest ≠ [] ∧
             q = "packages" :: x :: "test" :: "fixtures" :: rest).

(** * Further vocabulary: what a rule collects along a walk *)

(** The entries handed to [onFile], in the order of the walk. *)
Definition files (vs : list Visit) : list Entry :=
  omap (λ v, match v with VisitFile e => Some e | VisitDirectory _ => None end) vs.

(** What a callback reports for one entry, started from the empty list. *)
Definition verdict
    (callback : Entry → list ValidationError → Res (list ValidationError))
    (e : Entry) : list ValidationError :=
  state (callback e []).

(** What a walk with the callbacks [options] reports at one visit. *)
Definition reportedAt (options : WalkOptions (list ValidationError)) (v : Visit)
    : list ValidationError :=
  state (handle options v []).

(** The record of the staging rule for the directory [e]. *)
Definition stagingViolation (e : Entry) : ValidationError :=
  {| type := FORBIDDEN_DIRECTORY;
     path := relPath e;
     message := "Staging directories should not be committed. Add to .gitignore and remove from git.";
     severity := error |}.

(** The fixtures directory of the package [nm] and its relative path, as
    [forEachPackageFixturesDir] hands them to a walk. *)
Definition fixturesOf (nm : string) : list string :=
  ["packages"; nm; "test"; "fixtures"].

Definition fixturesRel (nm : string) : string :=
  "packages/" +:+ nm +:+ "/test/fixtures".

(** * Further vocabulary: records about visited entries *)

(** The walks that the rules make: of the root, with relative path
    ["."], and of the test/fixtures directory of a package, with the
    relative path of that directory. *)
Definition ruleWalk (dir : list string) (rel : string) : Prop :=
  (dir = REPO_ROOT ∧ rel = ".") ∨
  ∃ nm, dir = fixturesOf nm ∧ rel = fixturesRel nm.

(** A record about an entry that one of those walks called back for: it
    carries the relative path handed to the callback, and the entry,
    found below the start of the walk through readable directories, is a
    directory when the callback was [onDirectory] and a regular file when
    it was [onFile]. *)
Definition aboutVisited (platform : Path.Platform) (fs : Node)
    (w : ValidationError) : Prop :=
  ∃ skip dir rel v n above m,
    ruleWalk dir rel ∧
    v ∈ visits platform skip fs dir rel ∧ path w = relPath (visited v) ∧
    lookup fs dir = Some n ∧
    fullPath (visited v) = dir ++ above ++ [name (visited v)] ∧
    descends n (above ++ [name (visited v)]) m ∧
    kindMatches v m = true.

(** The six rules that check entries in the callbacks of a walk. *)
Definition walkingRules (platform : Path.Platform) (fs : Node)
    (config : ValidatorConfig)
    : list (list ValidationError → Res (list ValidationError)) :=
  [ validateNoNestedPackageJson platform fs;
    validateSourceFileLocations platform fs config;
    validateTestFileNaming platform fs;
    validateNoShellScripts platform fs;
    validateNoStagingDirectories platform fs;
    validateTestFixtureSizes platform fs ].

(** The headings of the report. *)
Definition heading (t : ErrorType) : string :=
  match t with
  | FORBIDDEN_DIRECTORY => "FORBIDDEN DIRECTORY"
  | LARGE_FILE => "LARGE FILE"
  | STRUCTURAL_VIOLATION => "STRUCTURAL VIOLATION"
  end.

(** * Further vocabulary: the files of the fixture rules *)

(** The regular files that the walks of the size rule hand to its
    callback, in order: for every directory listed in [packages], the
    files of the walk of its test/fixtures directory. There are none when
    [packages] cannot be listed. *)
Definition fixtureFiles (platform : Path.Platform) (fs : Node) : list Entry :=
  match readdir fs ["packages"] with
  | Some entries =>
      concat ((λ '(nm, node),
                 if isDirectory node
                 then files (visits platform None fs (fixturesOf nm) (fixturesRel nm))
                 else []) <$> entries)
  | None => []
  end.

(** The table of compressed formats, as the rule writes it. *)
Definition COMPRESSED_SUFFIXES : list string :=
  [".zip"; ".tar"; ".gz"; ".tgz"; ".tar.gz"].

(** A name with a compressed extension: lowercased, it ends in an entry
    of the table. *)
Definition compressedName (nm : string) : Prop :=
  ∃ x, x ∈ COMPRESSED_SUFFIXES ∧ JS.endsWith (JS.toLowerCase nm) x = true.

(** A package whose fixtures hold an entry on which [stat] throws, listed
    before a fixture of 101 KB. *)
Definition lostFixtureTree : Node :=
  NDir true
    [ ("packages", NDir true
         [ ("foo", NDir true
              [ ("test", NDir true
                   [ ("fixtures", NDir true
                        [ ("ghost.bin", NLost);
                          ("big.json", NFile 103424) ]) ]) ]) ]) ].

(** ** Further sample values *)

(** A package with a [scripts] directory, a committed staging directory
    and a fixture of 101 KB. *)
Definition untidyPackage : Node :=
  NDir true
    [ ("scripts", NDir true []);
      ("test", NDir true
         [ ("fixtures", NDir true
              [ ("staging", NDir true []);
                ("big.json", NFile 103424) ]) ]) ].

(** A repository with a shell script at the root, another one among the
    hooks, and the package above. *)
Definition untidyTree : Node :=
  NDir true
    [ ("setup.sh", NFile 40);
      (".husky", NDir true [ ("pre-commit.sh", NFile 20) ]);
      ("packages", NDir true [ ("foo", untidyPackage) ]) ].

(** A repository without a [packages] directory. *)
Definition bareTree : Node :=
  NDir true [ ("package.json", NFile 120) ].

(** Markers in place of the pictographs. *)
Definition plainIcons : Icons :=
  {| searching := "[..]"; passed := "[ok]"; failed := "[x]"; warned := "[!]" |}.

(** A configuration that allows one more file at the root. *)
Definition rootFileConfig : ValidatorConfig :=
  {| allowedScriptsPackages := None; noExamplesPatterns := None;
     allowedRootTsFiles := Some ["setup.ts"]; allowedPackageTsPaths := None |}.

(** Callbacks that note the name of every directory and throw at [foo]. *)
Definition throwingAtFoo : WalkOptions (list string) :=
  {| skipDirs := None;
     onDirectory :=
       Some (λ e s, if bool_decide (name e = "foo") then Raised s
                    else Done (s ++ [name e]));
     onFile := None |}.

(** The pattern [/^runtime-/]. *)
Definition runtimePattern : RegExp := lit true (Re.Lit "runtime-") false.

(** A configuration that forbids examples in the runtime packages. *)
Definition runtimeConfig : ValidatorConfig :=
  {| allowedScriptsPackages := None; noExamplesPatterns := Some [runtimePattern];
     allowedRootTsFiles := None; allowedPackageTsPaths := None |}.

(** Three packages: examples outside the runtime packages, examples in a
    runtime package, and a runtime package without examples. *)
Definition runtimeTree : Node :=
  NDir true
    [ ("packages", NDir true
         [ ("cli", NDir true [ ("examples", NDir true []) ]);
           ("runtime-core", NDir true [ ("examples", NDir true []) ]);
           ("runtime-web", NDir true [ ("src", NDir true []) ]) ]) ].

(** The pattern [/^tools\//]. *)
Definition toolsPattern : RegExp := lit true (Re.Lit "tools/") false.

(** A configuration that allows one more file at the root and the files
    below [tools]. *)
Definition toolsConfig : ValidatorConfig :=
  {| allowedScriptsPackages := None; noExamplesPatterns := None;
     allowedRootTsFiles := Some ["setup.ts"];
     allowedPackageTsPaths := Some [toolsPattern] |}.

(** A configuration that allows that and more. *)
Definition widerConfig : ValidatorConfig :=
  {| allowedScriptsPackages := None; noExamplesPatterns := None;
     allowedRootTsFiles := Some ["deploy.ts"; "setup.ts"];
     allowedPackageTsPaths :=
       Some [lit true (Re.Lit "extras/") false; toolsPattern] |}.

(** A POSIX tree whose root holds a directory with a backslash in its
    name. *)
Definition backslashTree : Node :=
  NDir true
    [ ("packages\foo", NDir true [ ("package.json", NFile 80) ]) ].

(** Two records of different types. *)
Definition sampleReport : list ValidationError :=
  [ largeFile (fixtureEntry "big.json") (inject_Z 103424 / inject_Z 1024)%Q;
    scriptsViolation "foo" ].

(** * Properties *)

(** ** Sequencing *)

Lemma andThen_Done {S} (r : Res S) : r >>> Done = r.
Proof. by destruct r. Qed.

Lemma andThen_assoc {S} (r : Res S) (f g : S → Res S) :
  r >>> f >>> g = r >>> (λ s, f s >>> g).
Proof. by destruct r. Qed.

Lemma forEach_app {A S} (xs ys : list A) (body : A → S → Res S) (s : S) :
  forEach (xs ++ ys) body s = forEach xs body s >>> forEach ys body.
Proof.
  revert s. induction xs as [|x xs IH]; intros s; simpl; [done|].
  destruct (body x s) as [s'|s']; simpl; [apply IH | done].
Qed.

Lemma forEach_ext {A S} (xs : list A) (f g : A → S → Res S) (s : S) :
  (∀ x s, f x s = g x s) → forEach xs f s = forEach xs g s.
Proof.
  intros H. revert s. induction xs as [|x xs IH]; intros s; simpl; [done|].
  rewrite H. destruct (g x s); simpl; [apply IH | done].
Qed.

(** ** The walk as a fold over its trace *)

Section WalkFacts.
Context (platform : Path.Platform).

Local Abbreviation trace := (trace platform).
Local Abbreviation entryOf := (entryOf platform).

Lemma walkNode_nil {S} (options : WalkOptions S) dir rel s :
  walkNode platform options (NDir true []) dir rel s = Done s.
Proof. done. Qed.

Lemma walkNode_cons {S} (options : WalkOptions S) nm child rest dir rel s :
  walkNode platform options (NDir true ((nm, child) :: rest)) dir rel s =
  let e := entryOf dir rel nm in
  match child with
  | NDir _ _ =>
      if skipped (skipDirs options) nm
      then walkNode platform options (NDir true rest) dir rel s
      else call (onDirectory options) e s
           >>> walkNode platform options child (fullPath e) (relPath e)
           >>> walkNode platform options (NDir true rest) dir rel
  | NFile _ | NLost =>
      call (onFile options) e s
      >>> walkNode platform options (NDir true rest) dir rel
  | _ => walkNode platform options (NDir true rest) dir rel s
  end.
Proof. done. Qed.

Lemma walkNode_not_listed {S} (options : WalkOptions S) n dir rel s :
  (∀ es, n ≠ NDir true es) →
  walkNode platform options n dir rel s = Done s.
Proof. destruct n as [|[] es| | |]; intros H; try done. by destruct (H es). Qed.

(** A recording walk never throws and only extends the trace. *)
Lemma recording_extends skip n : ∀ dir rel t,
  walkNode platform (recording skip) n dir rel t =
  Done (t ++ trace skip n dir rel).
Proof.
  induction n as [sz|r es IH|tg _| |] using Node_ind; intros dir rel t;
    try (unfold trace; simpl; by rewrite app_nil_r).
  destruct r; [|unfold trace; simpl; by rewrite app_nil_r].
  revert t. induction IH as [|[nm child] rest Hc _ IHrest]; intros t.
  { unfold trace. rewrite !walkNode_nil. simpl. by rewrite app_nil_r. }
  unfold trace. rewrite !walkNode_cons. cbn zeta.
  simpl in Hc.
  destruct child as [sz|r' es'|tg| |];
    cbn [call recording onFile onDirectory skipDirs andThen].
  - rewrite !IHrest. simpl. by rewrite <- app_assoc.
  - destruct (skipped skip nm); [apply IHrest|].
    rewrite !Hc. cbn [andThen]. rewrite !IHrest. simpl.
    by rewrite <- !app_assoc.
  - apply IHrest.
  - apply IHrest.
  - rewrite !IHrest. simpl. by rewrite <- app_assoc.
Qed.

Lemma trace_nil skip dir rel : trace skip (NDir true []) dir rel = [].
Proof. done. Qed.

Lemma trace_cons skip nm child rest dir rel :
  trace skip (NDir true ((nm, child) :: rest)) dir rel =
  let e := entryOf dir rel nm in
  match child with
  | NDir _ _ =>
      if skipped skip nm then trace skip (NDir true rest) dir rel
      else VisitDirectory e :: trace skip child (fullPath e) (relPath e)
           ++ trace skip (NDir true rest) dir rel
  | NFile _ | NLost => VisitFile e :: trace skip (NDir true rest) dir rel
  | _ => trace skip (NDir true rest) dir rel
  end.
Proof.
  unfold trace at 1. rewrite walkNode_cons. cbn zeta.
  destruct child as [sz|r' es'|tg| |]; try done;
    cbn [call recording onFile onDirectory skipDirs andThen].
  - by rewrite recording_extends.
  - destruct (skipped skip nm) eqn:Hs; [done|].
    rewrite recording_extends. cbn [andThen]. by rewrite recording_extends.
  - by rewrite recording_extends.
Qed.

Lemma trace_not_listed skip n dir rel :
  (∀ es, n ≠ NDir true es) → trace skip n dir rel = [].
Proof. intros H. unfold trace. by rewrite walkNode_not_listed. Qed.

(** Whatever the callbacks are, the walk runs them over its trace in
    order and stops at the first one that throws. *)
Lemma walkNode_fold {S} (options : WalkOptions S) n : ∀ dir rel s,
  walkNode platform options n dir rel s =
  forEach (trace (skipDirs options) n dir rel) (handle options) s.
Proof.
  induction n as [sz|r es IH|tg _| |] using Node_ind; intros dir rel s; try done.
  destruct r; [|done].
  revert s. induction IH as [|[nm child] rest Hc _ IHrest]; intros s; [done|].
  rewrite walkNode_cons, trace_cons. cbn zeta. simpl in Hc.
  destruct child as [sz|r' es'|tg| |]; try apply IHrest.
  - cbn [forEach handle]. destruct (call _ _ _); cbn [andThen]; [apply IHrest | done].
  - destruct (skipped _ nm); [apply IHrest|].
    cbn [forEach handle].
    destruct (call _ _ _) as [s1|s1]; cbn [andThen]; [|done].
    rewrite forEach_app, Hc. destruct (forEach _ _ s1); cbn [andThen]; [apply IHrest | done].
  - cbn [forEach handle]. destruct (call _ _ _); cbn [andThen]; [apply IHrest | done].
Qed.

Lemma visits_trace skip fs dir rel :
  visits platform skip fs dir rel =
  match lookup fs dir with
  | Some n => trace skip n dir rel
  | None => []
  end.
Proof. unfold visits, walkDirectory. by destruct (lookup fs dir). Qed.

Lemma walkDirectory_fold {S} (options : WalkOptions S) fs dir rel s :
  walkDirectory platform options fs dir rel s =
  forEach (visits platform (skipDirs options) fs dir rel) (handle options) s.
Proof.
  rewrite visits_trace. unfold walkDirectory.
  destruct (lookup fs dir); [apply walkNode_fold | done].
Qed.

End WalkFacts.

(** ** Pruning, unreadable start directories, entry kinds *)

Section WalkClaims.
Context (platform : Path.Platform).

Local Abbreviation trace := (trace platform).

Lemma trace_below ds n : ∀ dir rel v,
  v ∈ trace (Some ds) n dir rel →
  (∀ e, v = VisitDirectory e → name e ∉ ds) ∧
  ∃ above, fullPath (visited v) = dir ++ above ++ [name (visited v)] ∧
           Forall (λ d, d ∉ ds) above.
Proof.
  induction n as [sz|r es IH|tg _| |] using Node_ind; intros dir rel v;
    try (rewrite trace_not_listed by done; by intros ?%elem_of_nil).
  destruct r; [|rewrite trace_not_listed by done; by intros ?%elem_of_nil].
  induction IH as [|[nm child] rest Hc _ IHrest].
  { rewrite trace_nil. by intros ?%elem_of_nil. }
  rewrite trace_cons. cbn zeta. simpl in Hc.
  destruct child as [sz|r' es'|tg| |]; try apply IHrest.
  - intros [->|Hin]%elem_of_cons; [|by apply IHrest].
    split; [done|]. exists []. by split.
  - unfold skipped. case_bool_decide as Hskip; [apply IHrest|].
    intros [->|[Hin|Hin]%elem_of_app]%elem_of_cons; [| |by apply IHrest].
    + split; [by intros e [= <-]|]. exists []. by split.
    + destruct (Hc _ _ _ Hin) as [Hd (above & Hp & Hab)].
      split; [done|]. exists (nm :: above). split.
      * rewrite Hp. simpl. by rewrite <- app_assoc.
      * by constructor.
  - intros [->|Hin]%elem_of_cons; [|by apply IHrest].
    split; [done|]. exists []. by split.
Qed.

(** C5: for every name [d] in [skipDirs], no [onDirectory] call of the
    walk is for a directory named [d], and no call at all is for an entry
    that has a directory named [d] between the start of the walk and
    itself. *)
Theorem skipDirs_pruned ds fs dir rel d v :
  d ∈ ds →
  v ∈ visits platform (Some ds) fs dir rel →
  (∀ e, v = VisitDirectory e → name e ≠ d) ∧
  ∃ above, fullPath (visited v) = dir ++ above ++ [name (visited v)] ∧
           d ∉ above.
Proof.
  intros Hd. rewrite visits_trace.
  destruct (lookup fs dir) as [n|]; [|by intros ?%elem_of_nil].
  intros [Hdir (above & Hp & Hab)]%trace_below. split.
  - intros e He Heq. apply (Hdir e He). by rewrite Heq.
  - exists above. split; [done|].
    intros Hin. by apply (proj1 (Forall_forall _ _) Hab d Hin).
Qed.

(** C6: when the start directory cannot be listed, whatever the
    callbacks are, the walk completes without an exception, leaves the
    state as it was and makes no callback. *)
Theorem walkDirectory_unlistable {S} (options : WalkOptions S) fs dir rel s :
  readdir fs dir = None →
  walkDirectory platform options fs dir rel s = Done s ∧
  visits platform (skipDirs options) fs dir rel = [].
Proof.
  unfold readdir. rewrite visits_trace. unfold walkDirectory.
  destruct (lookup fs dir) as [n|]; [|done].
  intros H.
  assert (∀ es, n ≠ NDir true es) as Hn by (intros es ->; done).
  by rewrite walkNode_not_listed, trace_not_listed.
Qed.

Lemma trace_kinds_listing skip es rest :
  rest ⊆ es →
  Forall (λ e, kindsHold platform skip e.2) rest →
  ∀ dir rel v,
    v ∈ trace skip (NDir true rest) dir rel →
    ∃ above m,
      fullPath (visited v) = dir ++ above ++ [name (visited v)] ∧
      descends (NDir true es) (above ++ [name (visited v)]) m ∧
      kindMatches v m = true.
Proof.
  intros Hsub IH dir rel v. revert Hsub.
  induction IH as [|[nm child] rest Hc _ IHrest]; intros Hsub.
  { rewrite trace_nil. by intros ?%elem_of_nil. }
  assert (rest ⊆ es) as Hrest by (intros y Hy; apply Hsub; by right).
  assert ((nm, child) ∈ es) as Hhere by (apply Hsub; by left).
  specialize (IHrest Hrest).
  rewrite trace_cons. cbn zeta. simpl in Hc.
  destruct child as [sz|r' es'|tg| |]; try apply IHrest.
  - intros [->|Hin]%elem_of_cons; [|by apply IHrest].
    exists [], (NFile sz). split_and!; [done| |done].
    simpl. econstructor; [done | constructor].
  - destruct (skipped skip nm); [apply IHrest|].
    intros [->|[Hin|Hin]%elem_of_app]%elem_of_cons; [| |by apply IHrest].
    + exists [], (NDir r' es'). split_and!; [done| |done].
      simpl. econstructor; [done | constructor].
    + destruct (Hc _ _ _ Hin) as (above & m & Hp & Hd & Hk).
      exists (nm :: above), m. split_and!; [| |done].
      * rewrite Hp. simpl. by rewrite <- app_assoc.
      * simpl. econstructor; done.
  - intros [->|Hin]%elem_of_cons; [|by apply IHrest].
    exists [], NLost. split_and!; [done| |done].
    simpl. econstructor; [done | constructor].
Qed.

Lemma trace_kinds skip n : kindsHold platform skip n.
Proof.
  induction n as [sz|r es IH|tg _| |] using Node_ind; intros dir rel v;
    try (rewrite trace_not_listed by done; by intros ?%elem_of_nil).
  destruct r; [|rewrite trace_not_listed by done; by intros ?%elem_of_nil].
  by apply trace_kinds_listing.
Qed.

Lemma walkNode_eraseOthers {S} (options : WalkOptions S) n : ∀ dir rel s,
  walkNode platform options (eraseOthers n) dir rel s =
  walkNode platform options n dir rel s.
Proof.
  induction n as [sz|r es IH|tg _| |] using Node_ind; intros dir rel s; try done.
  destruct r; [|done]. cbn [eraseOthers].
  revert s. induction IH as [|[nm child] rest Hc _ IHrest]; intros s; [done|].
  simpl in Hc. rewrite (walkNode_cons _ _ nm child). cbn zeta.
  destruct child as [sz|r' es'|tg| |]; cbn [keepEntries]; try apply IHrest.
  - rewrite walkNode_cons. cbn zeta.
    destruct (call _ _ _); cbn [andThen]; [apply IHrest | done].
  - rewrite walkNode_cons. cbn zeta. cbn [eraseOthers].
    destruct (skipped _ nm); [apply IHrest|].
    destruct (call _ _ _) as [s1|s1]; cbn [andThen]; [|done].
    specialize (Hc (dir ++ [nm]) (Path.join platform rel nm) s1).
    cbn [eraseOthers] in Hc. cbn [entryOf fullPath relPath]. rewrite Hc.
    clear Hc. destruct (walkNode _ _ _ _ _ s1); cbn [andThen]; [apply IHrest | done].
  - rewrite walkNode_cons. cbn zeta.
    destruct (call _ _ _); cbn [andThen]; [apply IHrest | done].
Qed.

End WalkClaims.

(** ** Suffix tests *)

Lemma endsWith_true s t :
  JS.endsWith s t = true ↔ JS.chars t `suffix_of` JS.chars s.
Proof. unfold JS.endsWith. apply bool_decide_eq_true. Qed.

(** Two suffixes of one string are comparable. *)
Lemma endsWith_comparable s t u :
  JS.endsWith s t = true → JS.endsWith s u = true →
  JS.endsWith t u = true ∨ JS.endsWith u t = true.
Proof.
  rewrite !endsWith_true. intros Ht Hu.
  destruct (suffix_weak_total _ _ _ Ht Hu); auto.
Qed.

Lemma endsWith_exclusive s t u :
  JS.endsWith t u = false → JS.endsWith u t = false →
  JS.endsWith s t = true → JS.endsWith s u = false.
Proof.
  intros H1 H2 Ht. destruct (JS.endsWith s u) eqn:Hu; [|done].
  destruct (endsWith_comparable s t u Ht Hu); congruence.
Qed.

Section Naming.

Lemma validateTestFileNaming_onFile_spec e errors :
  validateTestFileNaming_onFile e errors = Done (errors ++ namingViolations e).
Proof.
  unfold validateTestFileNaming_onFile, namingViolations, pushIf, push.
  destruct (isLegacySpec e), (isMisplacedIntegration e),
    (isMisplacedSystem e), (isMisnamedUnit e); simpl;
    rewrite <- ?app_assoc; simpl; rewrite ?app_nil_r; reflexivity.
Qed.

(** A name cannot end in [t] and in [u] when neither ends in the other. *)
Ltac suffix_clash :=
  match goal with
  | Ht : JS.endsWith ?s ?t = true, Hu : JS.endsWith ?s ?u = true |- _ =>
      assert (JS.endsWith s u = false)
        by (by apply (endsWith_exclusive s t u));
      congruence
  end.

Lemma naming_exclusive e : (length (namingViolations e) ≤ 1)%nat.
Proof.
  unfold namingViolations.
  destruct (isLegacySpec e) eqn:H1, (isMisplacedIntegration e) eqn:H2,
    (isMisplacedSystem e) eqn:H3, (isMisnamedUnit e) eqn:H4;
    simpl; try lia; exfalso;
    unfold isLegacySpec, isMisplacedIntegration, isMisplacedSystem,
      isMisnamedUnit in *;
    repeat match goal with
      | H : _ && _ = true |- _ => apply andb_prop in H as [? ?]
      | H : negb _ = true |- _ => apply negb_true_iff in H
      end;
    try congruence; suffix_clash.
Qed.

End Naming.

(** ** Extensions *)

Lemma app_cons a s t : String a s +:+ t = String a (s +:+ t).
Proof. done. Qed.

Lemma app_empty t : "" +:+ t = t.
Proof. done. Qed.

Lemma chars_cons a s : JS.chars (String a s) = a :: JS.chars s.
Proof. done. Qed.

Lemma chars_app s t : JS.chars (s +:+ t) = JS.chars s ++ JS.chars t.
Proof. induction s as [|a s IH]; [done|]. by rewrite app_cons, !chars_cons, IH. Qed.

Lemma toLowerCase_char_dot c : JS.toLowerCase_char c = "."%char ↔ c = "."%char.
Proof. destruct c as [[] [] [] [] [] [] [] []]; vm_compute; split; congruence. Qed.

Lemma toLowerCase_app s t :
  JS.toLowerCase (s +:+ t) = JS.toLowerCase s +:+ JS.toLowerCase t.
Proof. induction s as [|a s IH]; [done|]. rewrite app_cons. simpl. by rewrite IH. Qed.

Lemma toLowerCase_dotless s :
  "."%char ∉ JS.chars s → "."%char ∉ JS.chars (JS.toLowerCase s).
Proof.
  induction s as [|a s IH]; [done|].
  cbn [JS.toLowerCase]. rewrite !chars_cons, !not_elem_of_cons.
  intros [Ha Hs]. split; [|by apply IH].
  intros Heq. apply Ha. symmetry. by apply toLowerCase_char_dot.
Qed.

Lemma lastIndexOf_from_absent c s : ∀ i found,
  c ∉ JS.chars s → JS.lastIndexOf_from c s i found = found.
Proof.
  induction s as [|a s IH]; intros i found; [done|].
  rewrite chars_cons, not_elem_of_cons. intros [Hne Hs]. simpl.
  rewrite IH by done. destruct (Ascii.eqb_spec a c); congruence.
Qed.

Lemma lastIndexOf_from_last c pre suf : ∀ i found,
  c ∉ JS.chars suf →
  JS.lastIndexOf_from c (pre +:+ String c suf) i found =
  i + Z.of_nat (String.length pre).
Proof.
  induction pre as [|a pre IH]; intros i found Hs.
  - rewrite app_empty. simpl. rewrite Ascii.eqb_refl.
    rewrite lastIndexOf_from_absent by done. lia.
  - rewrite app_cons. cbn [JS.lastIndexOf_from String.length].
    rewrite IH by done. lia.
Qed.

Lemma drop_length pre s : JS.drop (String.length pre) (pre +:+ s) = s.
Proof. induction pre as [|a pre IH]; [by destruct s|]. by rewrite app_cons. Qed.

(** Either a name has no dot, or it splits at its last dot. *)
Lemma last_dot_split nm :
  "."%char ∉ JS.chars nm ∨
  ∃ pre suf, nm = pre +:+ String "." suf ∧ "."%char ∉ JS.chars suf.
Proof.
  induction nm as [|a nm IH]; [left; by intros ?%elem_of_nil|].
  destruct IH as [Hnone|(pre & suf & -> & Hsuf)].
  - destruct (decide (a = "."%char)) as [->|Hne].
    + right. by exists "", nm.
    + left. rewrite chars_cons, not_elem_of_cons. by split.
  - right. by exists (String a pre), suf.
Qed.

Lemma extension_dotless nm : "."%char ∉ JS.chars nm → extension nm = nm.
Proof.
  intros H. unfold extension, JS.lastIndexOf.
  by rewrite lastIndexOf_from_absent.
Qed.

Lemma extension_last_dot pre suf :
  "."%char ∉ JS.chars suf →
  extension (pre +:+ String "." suf) = String "." suf.
Proof.
  intros H. unfold extension, JS.lastIndexOf, JS.substring.
  rewrite lastIndexOf_from_last by done.
  replace (Z.to_nat _) with (String.length pre) by lia.
  apply drop_length.
Qed.

Lemma extension_toLowerCase nm :
  extension (JS.toLowerCase nm) = JS.toLowerCase (extension nm).
Proof.
  destruct (last_dot_split nm) as [Hnone|(pre & suf & -> & Hsuf)].
  - rewrite !extension_dotless; auto using toLowerCase_dotless.
  - rewrite toLowerCase_app. cbn [JS.toLowerCase].
    replace (JS.toLowerCase_char ".") with "."%char by done.
    rewrite !extension_last_dot; auto using toLowerCase_dotless.
Qed.

(** The lowercased extension holds at most its leading dot. *)
Lemma extension_shape nm :
  "."%char ∉ JS.chars (JS.toLowerCase (extension nm)) ∨
  ∃ suf, JS.toLowerCase (extension nm) = String "." suf ∧
         "."%char ∉ JS.chars suf.
Proof.
  destruct (last_dot_split nm) as [Hnone|(pre & suf & -> & Hsuf)].
  - left. rewrite extension_dotless by done. by apply toLowerCase_dotless.
  - right. rewrite extension_last_dot by done.
    exists (JS.toLowerCase suf). split; [done|]. by apply toLowerCase_dotless.
Qed.

Lemma extension_never_tar_gz nm : JS.toLowerCase (extension nm) ≠ ".tar.gz".
Proof.
  intros Heq. destruct (extension_shape nm) as [H|(suf & Hs & H)].
  - rewrite Heq in H. apply H. compute_done.
  - rewrite Heq in Hs. injection Hs as <-. apply H. compute_done.
Qed.

(** ** The matcher against the words of a pattern *)

Lemma string_app_assoc s t u : (s +:+ t) +:+ u = s +:+ t +:+ u.
Proof. induction s as [|a s IH]; [done|]. by rewrite !app_cons, IH. Qed.

Lemma string_app_empty_r s : s +:+ "" = s.
Proof. induction s as [|a s IH]; [done|]. by rewrite app_cons, IH. Qed.

Lemma stripPrefix_Some l s rest :
  Re.stripPrefix l s = Some rest ↔ s = l +:+ rest.
Proof.
  revert s. induction l as [|a l IH]; intros s.
  - rewrite app_empty. destruct s; simpl; split; congruence.
  - rewrite app_cons. destruct s as [|b s]; simpl; [split; congruence|].
    destruct (Ascii.eqb_spec a b) as [->|Hne].
    + rewrite IH. split; congruence.
    + split; congruence.
Qed.

Lemma classPlus_elem f s rest :
  rest ∈ Re.classPlus f s ↔
  ∃ seg, (seg ≠ "" ∧ Forall (λ c, f c = true) (JS.chars seg)) ∧ s = seg +:+ rest.
Proof.
  revert rest. induction s as [|c s IH]; intros rest; simpl.
  - split; [by intros ?%elem_of_nil|].
    intros ([|a seg] & [Hne _] & Heq); [done|]. by rewrite app_cons in Heq.
  - destruct (f c) eqn:Hc.
    + rewrite elem_of_cons, IH. split.
      * intros [->|(seg & [Hne Hall] & ->)].
        -- exists (String c ""). split; [|done]. split; [done|].
           by repeat constructor.
        -- exists (String c seg). split; [|done]. split; [done|].
           rewrite chars_cons. by constructor.
      * intros ([|a seg] & [Hne Hall] & Heq); [done|].
        rewrite app_cons in Heq. injection Heq as <- ->.
        rewrite chars_cons in Hall. apply Forall_cons in Hall as [_ Hall].
        destruct seg as [|a' seg']; [by left|].
        right. exists (String a' seg'). by split.
    + split; [by intros ?%elem_of_nil|].
      intros ([|a seg] & [Hne Hall] & Heq); [done|].
      rewrite app_cons in Heq. injection Heq as <- ->.
      rewrite chars_cons in Hall. apply Forall_cons in Hall as [Hf _].
      congruence.
Qed.

(** The remainders the matcher returns are exactly those left after a
    word of the pattern. *)
Lemma run_correct r : ∀ s rest,
  rest ∈ Re.run r s ↔ ∃ w, denotes r w ∧ s = w +:+ rest.
Proof.
  induction r as [l|f|r1 IH1 r2 IH2|r1 IH1 r2 IH2]; intros s rest; simpl.
  - destruct (Re.stripPrefix l s) as [rest'|] eqn:Hs; simpl.
    + apply stripPrefix_Some in Hs as ->. rewrite list_elem_of_singleton.
      split; [intros ->; by exists l|].
      intros (w & -> & Heq). by apply (inj (String.append l)) in Heq.
    + split; [by intros ?%elem_of_nil|]. intros (w & -> & ->).
      by rewrite (proj2 (stripPrefix_Some l _ rest)) in Hs.
  - apply classPlus_elem.
  - rewrite list_elem_of_bind. split.
    + intros (mid & (v & Hv & ->)%IH2 & (u & Hu & ->)%IH1).
      exists (u +:+ v). split; [by exists u, v|]. by rewrite string_app_assoc.
    + intros (w & (u & v & -> & Hu & Hv) & ->). exists (v +:+ rest). split.
      * apply IH2. by exists v.
      * apply IH1. exists u. by rewrite string_app_assoc.
  - rewrite elem_of_app, IH1, IH2. split.
    + intros [(w & Hw & ->)|(w & Hw & ->)]; exists w; auto.
    + intros (w & [Hw|Hw] & ->); [left|right]; by exists w.
Qed.

Lemma existsb_elem {A} (f : A → bool) (l : list A) :
  existsb f l = true ↔ ∃ x, x ∈ l ∧ f x = true.
Proof.
  rewrite existsb_exists. split; intros (x & H & Hf); exists x;
    by rewrite ?list_elem_of_In in *.
Qed.

(** [/^packages\/[^/]+<tail>/] and [/^packages\/[^/]+<tail>$/] *)
Lemma underPackage_test tail toEnd p :
  test (underPackage (Re.Lit tail) toEnd) p = true ↔
  ∃ nm rest, isSegment nm ∧ p = "packages/" +:+ nm +:+ tail +:+ rest ∧
             (toEnd = true → rest = "").
Proof.
  unfold underPackage, lit, regexp, test, Re.testLiteral, Re.matchAt.
  cbn [Re.fromStart Re.body Re.toEnd].
  rewrite existsb_elem. setoid_rewrite run_correct. cbn [denotes]. split.
  - intros (rest & (w & (u & v & -> & -> & (nm & t & -> & [Hne Hall] & ->)) & ->) & Hend).
    exists nm, rest. split_and!.
    + split; [done|]. intros Hin.
      rewrite Forall_forall in Hall. by specialize (Hall _ Hin).
    + by rewrite !string_app_assoc.
    + intros ->. by apply bool_decide_eq_true in Hend.
  - intros (nm & rest & [Hne Hno] & -> & Hend). exists rest. split.
    + exists ("packages/" +:+ nm +:+ tail). split.
      * exists "packages/", (nm +:+ tail). split_and!; [done..|].
        exists nm, tail. split_and!; [done|done| |done].
        apply Forall_forall. intros c Hc.
        unfold Re.notSlash. destruct (Ascii.eqb_spec c "/"); [by subst|done].
      * by rewrite !string_app_assoc.
    + destruct toEnd; [|done]. rewrite Hend by done. by apply bool_decide_eq_true.
Qed.

(** ** The nested-manifest rule *)

Lemma in_packages_dir p :
  test IN_PACKAGES_DIR p = true ↔
  ∃ nm, isSegment nm ∧ p = "packages/" +:+ nm +:+ "/package.json".
Proof.
  unfold IN_PACKAGES_DIR. rewrite underPackage_test. split.
  - intros (nm & rest & Hnm & -> & Hend). exists nm. split; [done|].
    by rewrite Hend.
  - intros (nm & Hnm & ->). by exists nm, "".
Qed.

Lemma in_test_fixtures p :
  test IN_TEST_FIXTURES p = true ↔
  ∃ nm rest, isSegment nm ∧
             p = "packages/" +:+ nm +:+ "/test/fixtures/" +:+ rest.
Proof.
  unfold IN_TEST_FIXTURES. rewrite underPackage_test. split.
  - intros (nm & rest & Hnm & -> & _). by exists nm, rest.
  - intros (nm & rest & Hnm & ->). by exists nm, rest.
Qed.

Lemma validManifestLocation_tests p :
  validManifestLocation p ↔
  bool_decide (p = "package.json") || test IN_PACKAGES_DIR p
    || test IN_TEST_FIXTURES p = true.
Proof.
  unfold validManifestLocation.
  rewrite !orb_true_iff, bool_decide_eq_true, in_packages_dir, in_test_fixtures.
  tauto.
Qed.

(** ** The fixture-size rule *)

Lemma over_threshold (size : N) :
  Qgtb (inject_Z (Z.of_N size) / inject_Z 1024) (inject_Z MAX_SIZE_KB) = true ↔
  (inject_Z 100 < inject_Z (Z.of_N size) / inject_Z 1024)%Q.
Proof.
  unfold Qgtb. rewrite negb_true_iff. split.
  - intros H. apply Qnot_le_lt. intros Hle.
    apply Qle_bool_iff in Hle. unfold MAX_SIZE_KB in H. congruence.
  - intros H. apply not_true_is_false. intros Hle%Qle_bool_iff.
    by apply (Qlt_not_le _ _ H).
Qed.

(** Above 100 KB means above 102400 bytes. *)
Lemma over_threshold_bytes (size : N) :
  (inject_Z 100 < inject_Z (Z.of_N size) / inject_Z 1024)%Q ↔ (102400 < size)%N.
Proof. unfold Qlt, Qdiv, Qmult, Qinv, inject_Z. simpl. lia. Qed.

(** ** Rules only append *)

Section Appends.
Context (P : ValidationError → Prop).

Lemma appends_ext f g : (∀ errors, f errors = g errors) → appends P g → appends P f.
Proof.
  intros Hfg (added & ok & HP & Hg). exists added, ok. split; [done|].
  intros errors. by rewrite Hfg.
Qed.

Lemma appends_Done : appends P Done.
Proof. exists [], true. split; [done|]. intros errors. by rewrite app_nil_r. Qed.

Lemma appends_Raised : appends P Raised.
Proof. exists [], false. split; [done|]. intros errors. by rewrite app_nil_r. Qed.

Lemma appends_pushIf cond v : (cond = true → P v) → appends P (pushIf cond v).
Proof.
  intros Hv. destruct cond; [|apply appends_Done].
  exists [v], true. split; [|done]. constructor; auto.
Qed.

Lemma appends_andThen f g :
  appends P f → appends P g → appends P (λ errors, f errors >>> g).
Proof.
  intros (a1 & ok1 & HP1 & Hf) (a2 & ok2 & HP2 & Hg). destruct ok1.
  - exists (a1 ++ a2), ok2. split; [by apply Forall_app|].
    intros errors. rewrite Hf. simpl. by rewrite Hg, app_assoc.
  - exists a1, false. split; [done|]. intros errors. by rewrite Hf.
Qed.

Lemma appends_forEach {A} (xs : list A) body :
  (∀ x, appends P (body x)) → appends P (forEach xs body).
Proof.
  intros Hbody. induction xs as [|x xs IH]; [apply appends_Done|].
  apply (appends_andThen (body x) (forEach xs body)); auto.
Qed.

Lemma appends_call handler e :
  (∀ h, handler = Some h → appends P (h e)) → appends P (call handler e).
Proof. destruct handler as [h|]; [auto | intros _; apply appends_Done]. Qed.

(** A walk whose callbacks only append only appends. *)
Lemma appends_walk platform options fs dir rel :
  (∀ h e, onDirectory options = Some h → appends P (h e)) →
  (∀ h e, onFile options = Some h → appends P (h e)) →
  appends P (walk platform options fs dir rel).
Proof.
  intros Hd Hf. unfold walk.
  apply (appends_ext _
           (forEach (visits platform (skipDirs options) fs dir rel)
              (handle options))).
  { intros errors. apply walkDirectory_fold. }
  apply appends_forEach. intros [e|e]; apply appends_call; eauto.
Qed.

Lemma appends_forEachPackageFixturesDir fs checkDirectory :
  (∀ dir rel, appends P (checkDirectory dir rel)) →
  appends P (forEachPackageFixturesDir fs checkDirectory).
Proof.
  intros Hc. unfold forEachPackageFixturesDir.
  destruct (readdir fs _) as [entries|]; [|apply appends_Raised].
  apply appends_forEach. intros [nm node].
  destruct (isDirectory node); [apply Hc | apply appends_Done].
Qed.

End Appends.

(** ** What the rules append *)

Create HintDb appends.
Local Hint Resolve appends_Done appends_Raised : appends.

Ltac typed_record :=
  intros _; split; simpl; [split; intros; congruence | intros [|]; congruence].

Section RuleTyping.
Context (platform : Path.Platform) (fs : Node) (config : ValidatorConfig).

Local Abbreviation typed := (appends severityMatchesType).

Lemma typed_nestedPackageJson : typed (validateNoNestedPackageJson platform fs).
Proof.
  apply appends_walk; [done|]. intros h e [= <-].
  unfold validateNoNestedPackageJson_onFile.
  case_bool_decide; [|auto with appends].
  apply appends_pushIf. typed_record.
Qed.

Lemma typed_sourceFileLocations :
  typed (validateSourceFileLocations platform fs config).
Proof.
  apply appends_walk; [done|]. intros h e [= <-].
  unfold validateSourceFileLocations_onFile.
  destruct (negb _); [auto with appends|].
  case_bool_decide; [auto with appends|].
  destruct (test PACKAGE_CONFIG_PATTERN _); [auto with appends|].
  apply appends_pushIf. typed_record.
Qed.

Lemma typed_testFileNaming : typed (validateTestFileNaming platform fs).
Proof.
  apply appends_walk; [done|]. intros h e [= <-].
  unfold validateTestFileNaming_onFile.
  repeat apply (appends_andThen _ _ (pushIf _ _));
    apply appends_pushIf; typed_record.
Qed.

Lemma typed_noExamples : typed (validateNoExamplesInPatternPackages fs config).
Proof.
  unfold validateNoExamplesInPatternPackages. cbn zeta.
  case_bool_decide; [auto with appends|].
  destruct (readdir fs _) as [entries|]; [|auto with appends].
  apply appends_forEach. intros [nm node].
  destruct (negb (isDirectory node)); [auto with appends|].
  destruct (negb (existsb _ _)); [auto with appends|].
  apply appends_pushIf. typed_record.
Qed.

Lemma typed_scriptsLocation : typed (validateScriptsLocation fs config).
Proof.
  unfold validateScriptsLocation. cbn zeta.
  destruct (readdir fs _) as [entries|]; [|auto with appends].
  apply appends_forEach. intros [nm node].
  destruct (_ || _); [auto with appends|].
  apply appends_pushIf. typed_record.
Qed.

Lemma typed_noShellScripts : typed (validateNoShellScripts platform fs).
Proof.
  apply appends_walk; [done|]. intros h e [= <-].
  apply appends_pushIf. typed_record.
Qed.

Lemma typed_noStaging : typed (validateNoStagingDirectories platform fs).
Proof.
  apply appends_forEachPackageFixturesDir. intros dir rel.
  apply appends_walk; [|done]. intros h e [= <-].
  apply appends_pushIf. typed_record.
Qed.

Lemma typed_fixtureSizes : typed (validateTestFixtureSizes platform fs).
Proof.
  apply appends_forEachPackageFixturesDir. intros dir rel.
  apply appends_walk; [done|]. intros h e [= <-].
  unfold validateTestFixtureSizes_onFile.
  destruct (stat fs _) as [size|]; [|auto with appends]. cbn zeta.
  destruct (Qgtb _ _); [|auto with appends].
  apply appends_pushIf. typed_record.
Qed.

Lemma typed_rules : Forall typed (rules platform fs config).
Proof.
  repeat constructor;
    auto using typed_nestedPackageJson, typed_sourceFileLocations,
      typed_testFileNaming, typed_noExamples, typed_scriptsLocation,
      typed_noShellScripts, typed_noStaging, typed_fixtureSizes.
Qed.

Lemma runRules_chain errors :
  runRules platform fs config errors =
  forEach (rules platform fs config) (λ rule, rule) errors.
Proof.
  unfold runRules, rules. cbn [forEach].
  repeat match goal with
    | |- context [?r errors] => destruct (r errors); cbn [andThen]; try done
    | |- context [?r ?s] => is_var s; destruct (r s); cbn [andThen]; try done
    end.
Qed.

Lemma typed_runRules : typed (runRules platform fs config).
Proof.
  apply (appends_ext _ _ _ runRules_chain).
  pose proof typed_rules as H.
  induction H as [|rule rest Hr _ IH]; [apply appends_Done|].
  by apply (appends_andThen _ rule (forEach rest (λ rule, rule))).
Qed.

End RuleTyping.

(** ** Severity and type *)

(** C8: each of the eight rules only appends records whose severity is
    warning exactly when their type is large-file, so that records of type
    forbidden-directory or structural-violation have severity error; the
    same holds for all that a run of the rules appends. *)
Theorem severity_matches_type platform fs config :
  Forall (appends severityMatchesType) (rules platform fs config) ∧
  ∀ errors, ∃ added,
    state (runRules platform fs config errors) = errors ++ added ∧
    Forall severityMatchesType added.
Proof.
  split; [apply typed_rules|]. intros errors.
  destruct (typed_runRules platform fs config) as (added & ok & HP & Hrun).
  exists added. split; [|done]. rewrite Hrun. by destruct ok.
Qed.

(** ** Runs and the process-scoped list *)



(** ** Exit status *)

(** C2 (as the code has it): when an exception escapes a rule the exit
    status is 2, whatever was accumulated; when the rules complete it is 1
    if some violation has severity error and 0 if all have severity
    warning; a configuration module that fails to load is replaced by the
    default configuration and does not by itself give status 2. *)
Theorem exit_status platform fs configModule :
  (∀ errors, runRules platform fs (configOf configModule) [] = Raised errors →
             main platform fs configModule = 2) ∧
  (∀ errors, runRules platform fs (configOf configModule) [] = Done errors →
             (Exists (λ v, severity v = error) errors →
              main platform fs configModule = 1) ∧
             (Forall (λ v, severity v = warning) errors →
              main platform fs configModule = 0)) ∧
  main platform fs ImportThrows = main platform fs (Imported None) ∧
  main platform fs ImportThrows = main platform fs (Imported (Some emptyConfig)).
Proof.
  unfold main, validate. fold (configOf configModule). split_and!; try done.
  - by intros errors ->.
  - intros errors ->. unfold hasErrors. split.
    + intros (v & Hin & Hv)%Exists_exists.
      rewrite (proj2 (existsb_elem _ errors)); [done|].
      exists v. split; [done|]. by apply bool_decide_eq_true.
    + intros Hall. destruct (existsb _ errors) eqn:Hex; [|done].
      apply existsb_elem in Hex as (v & Hin & Hv%bool_decide_eq_true).
      rewrite Forall_forall in Hall. specialize (Hall v Hin). congruence.
Qed.

(** A configuration module that throws on import, on a clean tree: the
    exit status is 0, not 2. *)
Lemma failed_import_exits_zero : main Path.posix cleanTree ImportThrows = 0.
Proof. vm_compute. reflexivity. Qed.

(** Status 2 is reached when [packages] cannot be listed, also after an
    error-severity violation was accumulated. *)
Example exit_two_without_packages :
  main Path.posix (NDir true [("src", NDir true [("package.json", NFile 1)])])
       ImportThrows = 2.
Proof. vm_compute. reflexivity. Qed.

(** ** Extension matching *)

Lemma dotless_never_listed (X : gset string) nm :
  (∀ x, x ∈ X → "."%char ∈ JS.chars x) →
  "."%char ∉ JS.chars nm →
  bool_decide (JS.toLowerCase (extension nm) ∈ X) = false.
Proof.
  intros HX Hnm. apply bool_decide_eq_false. intros Hin%HX.
  rewrite extension_dotless in Hin by done.
  by apply (toLowerCase_dotless nm).
Qed.

Lemma ALLOWED_LARGE_EXTENSIONS_dotted x :
  x ∈ ALLOWED_LARGE_EXTENSIONS → "."%char ∈ JS.chars x.
Proof.
  unfold ALLOWED_LARGE_EXTENSIONS. rewrite !elem_of_union, !elem_of_singleton.
  intros [[[[->| ->]| ->]| ->]| ->]; compute_done.
Qed.

Lemma FORBIDDEN_EXTENSIONS_dotted x :
  x ∈ FORBIDDEN_EXTENSIONS → "."%char ∈ JS.chars x.
Proof.
  unfold FORBIDDEN_EXTENSIONS. rewrite !elem_of_union, !elem_of_singleton.
  intros [[[->| ->]| ->]| ->]; compute_done.
Qed.

(** C9: both extension tests read only the lowercased part of the name
    from its last dot on (two names that agree there, up to case, are
    treated alike, and a name without a dot is never matched); matching
    is therefore blind to case; the lowercased extension is never
    [.tar.gz], so that table entry matches no name and [x.tar.gz] is
    exempt through [.gz]. *)
Theorem extension_tests_read_last_dot :
  (∀ pre1 suf1 pre2 suf2,
     "."%char ∉ JS.chars suf1 → "."%char ∉ JS.chars suf2 →
     JS.toLowerCase suf1 = JS.toLowerCase suf2 →
     isCompressed (pre1 +:+ String "." suf1) =
       isCompressed (pre2 +:+ String "." suf2) ∧
     isShellScript (pre1 +:+ String "." suf1) =
       isShellScript (pre2 +:+ String "." suf2)) ∧
  (∀ nm, "."%char ∉ JS.chars nm →
         isCompressed nm = false ∧ isShellScript nm = false) ∧
  (∀ n1 n2, JS.toLowerCase n1 = JS.toLowerCase n2 →
            isCompressed n1 = isCompressed n2 ∧
            isShellScript n1 = isShellScript n2) ∧
  (∀ nm, JS.toLowerCase (extension nm) ≠ ".tar.gz") ∧
  (∀ nm, isCompressed nm =
         bool_decide (JS.toLowerCase (extension nm) ∈
                        ({[ ".zip"; ".tar"; ".gz"; ".tgz" ]} : gset string))) ∧
  extension "x.tar.gz" = ".gz" ∧ isCompressed "x.tar.gz" = true ∧
  isCompressed "X.ZIP" = true ∧ isShellScript "RUN.SH" = true.
Proof.
  split_and!; try done.
  - intros pre1 suf1 pre2 suf2 H1 H2 Heq. unfold isCompressed, isShellScript.
    rewrite !extension_last_dot by done. cbn [JS.toLowerCase].
    by rewrite Heq.
  - intros nm Hnm. unfold isCompressed, isShellScript.
    split; apply dotless_never_listed;
      auto using ALLOWED_LARGE_EXTENSIONS_dotted, FORBIDDEN_EXTENSIONS_dotted.
  - intros n1 n2 Heq. unfold isCompressed, isShellScript.
    by rewrite <- !extension_toLowerCase, Heq.
  - apply extension_never_tar_gz.
  - intros nm. unfold isCompressed, ALLOWED_LARGE_EXTENSIONS.
    apply bool_decide_ext. rewrite !elem_of_union, !elem_of_singleton.
    pose proof (extension_never_tar_gz nm). tauto.
Qed.

(** ** The naming rule *)

(** C4 (as the code has it): each of the four naming checks appends its
    own violation exactly when its own condition holds, whatever the other
    three do; the conditions exclude one another, so a file gets at most
    one of the four violations. *)
Theorem naming_checks_at_most_one e errors :
  validateTestFileNaming_onFile e errors = Done (errors ++ namingViolations e) ∧
  (length (namingViolations e) ≤ 1)%nat.
Proof. split; [apply validateTestFileNaming_onFile_spec | apply naming_exclusive]. Qed.

(** No file makes the naming rule append two violations. *)
Lemma no_file_triggers_two_checks :
  ¬ ∃ e errors,
      (length errors + 2 ≤ length (state (validateTestFileNaming_onFile e errors)))%nat.
Proof.
  intros (e & errors & H). rewrite validateTestFileNaming_onFile_spec in H.
  simpl in H. rewrite length_app in H.
  pose proof (naming_exclusive e). lia.
Qed.

(** ** A rule that makes no walk *)

(** The scripts rule, which asks [existsSync] and makes no walk, flags a
    [scripts] entry that is a FIFO. *)
Lemma scripts_rule_flags_a_fifo :
  lookup fifoTree ["packages"; "foo"; "scripts"] = Some NSpecial ∧
  ∃ v, state (validateScriptsLocation fifoTree emptyConfig []) = [v] ∧
       path v = "packages/foo/scripts/" ∧ type v = FORBIDDEN_DIRECTORY ∧
       severity v = error.
Proof. split; [done|]. eexists. split; [vm_compute; reflexivity | done]. Qed.

(** ** The statements at work on the sample trees *)

Lemma skipDirs_pruned_witness :
  "node_modules" ∈ COMMON_SKIP_DIRS ∧
  VisitFile packageManifest ∈
    visits Path.posix (Some COMMON_SKIP_DIRS) skipTree [] "." ∧
  (∀ e, VisitFile packageManifest = VisitDirectory e → name e ≠ "node_modules") ∧
  ∃ above, fullPath packageManifest = [] ++ above ++ [name packageManifest] ∧
           "node_modules" ∉ above.
Proof.
  assert ("node_modules" ∈ COMMON_SKIP_DIRS) as Hd
    by compute_done.
  assert (VisitFile packageManifest ∈
            visits Path.posix (Some COMMON_SKIP_DIRS) skipTree [] ".") as Hv
    by (vm_compute; repeat constructor).
  split; [exact Hd|]. split; [exact Hv|].
  exact (skipDirs_pruned Path.posix COMMON_SKIP_DIRS skipTree [] "."
           "node_modules" (VisitFile packageManifest) Hd Hv).
Defined.

Lemma walkDirectory_unlistable_witness :
  readdir cleanTree ["packages"; "foo"; "test"; "fixtures"] = None ∧
  walkDirectory Path.posix
    {| skipDirs := None; onDirectory := None;
       onFile := Some (validateTestFixtureSizes_onFile cleanTree) |}
    cleanTree ["packages"; "foo"; "test"; "fixtures"]
    "packages/foo/test/fixtures" [] = Done [] ∧
  visits Path.posix None cleanTree ["packages"; "foo"; "test"; "fixtures"]
    "packages/foo/test/fixtures" = [].
Proof.
  split; [reflexivity|].
  exact (walkDirectory_unlistable Path.posix
           {| skipDirs := None; onDirectory := None;
              onFile := Some (validateTestFixtureSizes_onFile cleanTree) |}
           cleanTree ["packages"; "foo"; "test"; "fixtures"]
           "packages/foo/test/fixtures" [] eq_refl).
Defined.

Lemma exit_status_witness :
  ∃ w, runRules Path.posix warningTree (configOf (Imported None)) [] = Done [w] ∧
       severity w = warning ∧
       main Path.posix warningTree (Imported None) = 0.
Proof.
  eexists. split; [vm_compute; reflexivity|]. split; [reflexivity|].
  refine (proj2 (proj1 (proj2 (exit_status Path.posix warningTree (Imported None)))
                   _ _) _).
  - vm_compute. reflexivity.
  - repeat constructor.
Defined.

Lemma extension_tests_read_last_dot_witness :
  ("."%char ∉ JS.chars "ZIP") ∧ ("."%char ∉ JS.chars "zip") ∧
  JS.toLowerCase "ZIP" = JS.toLowerCase "zip" ∧
  isCompressed "backup.ZIP" = isCompressed "data.zip" ∧
  isShellScript "backup.ZIP" = isShellScript "data.zip".
Proof.
  assert ("."%char ∉ JS.chars "ZIP") as H1
    by compute_done.
  assert ("."%char ∉ JS.chars "zip") as H2
    by compute_done.
  split; [exact H1|]. split; [exact H2|]. split; [reflexivity|].
  exact (proj1 extension_tests_read_last_dot "backup" "ZIP" "data" "zip"
           H1 H2 eq_refl).
Defined.

(** The three fixtures of the size rule: only the 101 KB file is reported. *)
Example fixture_sizes_on_fixtureTree :
  state (validateTestFixtureSizes Path.posix fixtureTree []) =
  [ largeFile (fixtureEntry "big.json") (inject_Z 103424 / inject_Z 1024)%Q ].
Proof. vm_compute. reflexivity. Qed.

(** Nothing below a skipped directory or a link shows up in a run. *)
Example shell_scripts_on_fifoTree :
  state (validateNoShellScripts Path.posix fifoTree []) = [].
Proof. vm_compute. reflexivity. Qed.

(** A whole run: the nested manifest, the legacy suffix, the integration
    test outside test/integration and the unit test inside it are
    reported, one record each; the status is 1. *)
Example run_on_conventionTree :
  map (λ v, (type v, path v, severity v))
      (state (runRules Path.posix conventionTree emptyConfig [])) =
  [ (FORBIDDEN_DIRECTORY, "packages/foo/src/package.json", error);
    (STRUCTURAL_VIOLATION, "packages/foo/test/bar.spec.ts", error);
    (STRUCTURAL_VIOLATION, "packages/foo/test/bar.integration.test.ts", error);
    (STRUCTURAL_VIOLATION, "packages/foo/test/integration/unit.test.ts", error) ] ∧
  main Path.posix conventionTree (Imported None) = 1.
Proof. split; vm_compute; reflexivity. Qed.

(** * Further properties *)

(** ** What a walk reaches, and in which order *)

Section WalkReach.
Context (platform : Path.Platform).

Local Abbreviation trace := (trace platform).
Local Abbreviation entryOf := (entryOf platform).

(** The callbacks of the walk of a listing, entry by entry. *)
Lemma elem_of_trace_listing skip es dir rel v :
  v ∈ trace skip (NDir true es) dir rel ↔
  ∃ x c, (x, c) ∈ es ∧
    ((isFile c = true ∧ v = VisitFile (entryOf dir rel x)) ∨
     (isDirectory c = true ∧ skipped skip x = false ∧
      (v = VisitDirectory (entryOf dir rel x) ∨
       v ∈ trace skip c (dir ++ [x]) (Path.join platform rel x)))).
Proof.
  induction es as [|[nm child] rest IH].
  { rewrite trace_nil. split; [by intros ?%elem_of_nil|].
    by intros (x & c & ?%elem_of_nil & _). }
  rewrite trace_cons. cbn zeta.
  assert (v ∈ trace skip (NDir true rest) dir rel →
          ∃ x c, (x, c) ∈ (nm, child) :: rest ∧
            ((isFile c = true ∧ v = VisitFile (entryOf dir rel x)) ∨
             (isDirectory c = true ∧ skipped skip x = false ∧
              (v = VisitDirectory (entryOf dir rel x) ∨
               v ∈ trace skip c (dir ++ [x]) (Path.join platform rel x)))))
    as Htail.
  { intros (x & c & Hin & H)%IH. exists x, c. split; [by right | done]. }
  destruct child as [sz|r' es'|tg| |].
  - rewrite elem_of_cons. split.
    + intros [->|Hin]; [|by apply Htail].
      exists nm, (NFile sz). split; [by left|]. by left.
    + intros (x & c & [[= -> ->]|Hin]%elem_of_cons & H).
      * destruct H as [[_ ->]|[? _]]; [by left | done].
      * right. apply IH. by exists x, c.
  - destruct (skipped skip nm) eqn:Hskip.
    + split; [apply Htail|].
      intros (x & c & [[= -> ->]|Hin]%elem_of_cons & H).
      * destruct H as [[? _]|(_ & ? & _)]; [done | congruence].
      * apply IH. by exists x, c.
    + rewrite elem_of_cons, elem_of_app. split.
      * intros [->|[Hin|Hin]]; [| |by apply Htail].
        -- exists nm, (NDir r' es'). split; [by left|]. right. auto.
        -- exists nm, (NDir r' es'). split; [by left|]. right. auto.
      * intros (x & c & [[= -> ->]|Hin]%elem_of_cons & H).
        -- destruct H as [[? _]|(_ & _ & [->|?])]; [done|by left|].
           right. by left.
        -- right. right. apply IH. by exists x, c.
  - split; [apply Htail|].
    intros (x & c & [[= -> ->]|Hin]%elem_of_cons & H).
    + by destruct H as [[? _]|[? _]].
    + apply IH. by exists x, c.
  - split; [apply Htail|].
    intros (x & c & [[= -> ->]|Hin]%elem_of_cons & H).
    + by destruct H as [[? _]|[? _]].
    + apply IH. by exists x, c.
  - rewrite elem_of_cons. split.
    + intros [->|Hin]; [|by apply Htail].
      exists nm, NLost. split; [by left|]. by left.
    + intros (x & c & [[= -> ->]|Hin]%elem_of_cons & H).
      * destruct H as [[_ ->]|[? _]]; [by left | done].
      * right. apply IH. by exists x, c.
Qed.

Lemma visitOf_single dir rel x c :
  visitOf platform dir rel [x] c =
  if isFile c then VisitFile (entryOf dir rel x)
  else VisitDirectory (entryOf dir rel x).
Proof. done. Qed.

Lemma visitOf_step dir rel x q m :
  q ≠ [] →
  visitOf platform dir rel (x :: q) m =
  visitOf platform (dir ++ [x]) (Path.join platform rel x) q m.
Proof.
  intros Hq. unfold visitOf, entryAt. cbn [foldl].
  rewrite <- (app_assoc dir [x] q). cbn [app].
  destruct q as [|y q]; [done|]. by rewrite last_cons_cons.
Qed.

Lemma trace_reached skip n : ∀ dir rel v,
  v ∈ trace skip n dir rel →
  ∃ q m, reached skip n q m ∧ v = visitOf platform dir rel q m.
Proof.
  induction n as [sz|r es IH|tg _| |] using Node_ind; intros dir rel v;
    try (rewrite trace_not_listed by done; by intros ?%elem_of_nil).
  destruct r; [|rewrite trace_not_listed by done; by intros ?%elem_of_nil].
  rewrite elem_of_trace_listing. rewrite Forall_forall in IH.
  intros (x & c & Hin & [[Hf ->]|(Hd & Hskip & [->|Hsub])]).
  - exists [x], c. split; [|by rewrite visitOf_single, Hf].
    split_and!; [econstructor; [done|constructor] | done | by left |].
    by rewrite Hf.
  - exists [x], c. destruct c; try done.
    split; [|done].
    split_and!; [econstructor; [done|constructor] | done | by right |].
    simpl. by repeat constructor.
  - destruct (IH _ Hin _ _ _ Hsub) as (q & m & (Hdesc & Hq & Hkind & Hall) & ->).
    exists (x :: q), m. split; [|by rewrite visitOf_step].
    split_and!; [by econstructor | done | done |].
    destruct (isFile m); [|by constructor].
    destruct q as [|y q]; [done|]. by constructor.
Qed.

Lemma reached_trace skip n q m : ∀ dir rel,
  reached skip n q m → visitOf platform dir rel q m ∈ trace skip n dir rel.
Proof.
  intros dir rel (Hdesc & Hq & Hkind & Hall). revert dir rel Hq Hkind Hall.
  induction Hdesc as [n|es x c q m Hin Hdesc IH]; intros dir rel Hq Hkind Hall;
    [done|].
  apply elem_of_trace_listing. exists x, c. split; [done|].
  destruct q as [|y q].
  - inversion Hdesc; subst. rewrite visitOf_single.
    destruct Hkind as [Hf|Hd].
    + left. by rewrite Hf.
    + right. destruct m; try done. split; [done|].
      apply Forall_cons in Hall as [Hx _]. auto.
  - right. assert (isDirectory c = true) as Hc by (by inversion Hdesc).
    assert (skipped skip x = false) as Hx.
    { destruct (isFile m); by apply Forall_cons in Hall as [Hx _]. }
    split_and!; [done..|]. right.
    rewrite visitOf_step by done. apply IH; [done..|].
    destruct (isFile m); by apply Forall_cons in Hall as [_ Hall].
Qed.

(** X1: a walk calls back for exactly the regular files and directories
    that can be reached from its start through readable directories whose
    names are not skipped (the name of a regular file is never compared
    with [skipDirs]); the entry handed over carries the last name, the
    names below the start, and the relative path joined name by name. *)
Theorem walk_visits_exactly_the_reached skip fs dir rel n v :
  lookup fs dir = Some n →
  (v ∈ visits platform skip fs dir rel ↔
   ∃ q m, reached skip n q m ∧ v = visitOf platform dir rel q m).
Proof.
  intros Hn. rewrite visits_trace, Hn. split.
  - apply trace_reached.
  - intros (q & m & Hr & ->). by apply reached_trace.
Qed.

Lemma skipped_mono (ds ds' : gset string) x :
  ds ⊆ ds' → skipped (Some ds) x = true → skipped (Some ds') x = true.
Proof.
  unfold skipped. intros Hsub Hx%bool_decide_eq_true.
  apply bool_decide_eq_true. by apply Hsub.
Qed.

Lemma trace_sublist (skip skip' : option (gset string)) n : ∀ dir rel,
  (∀ x, skipped skip x = true → skipped skip' x = true) →
  trace skip' n dir rel `sublist_of` trace skip n dir rel.
Proof.
  induction n as [sz|r es IH|tg _| |] using Node_ind; intros dir rel Hmono;
    try (rewrite !trace_not_listed by done; constructor).
  destruct r; [|rewrite !trace_not_listed by done; constructor].
  induction IH as [|[nm child] rest Hc _ IHrest].
  { rewrite !trace_nil. constructor. }
  rewrite !trace_cons. cbn zeta. simpl in Hc.
  destruct child as [sz|r' es'|tg| |]; try done.
  - by constructor.
  - destruct (skipped skip nm) eqn:Hs.
    + by rewrite (Hmono _ Hs).
    + destruct (skipped skip' nm).
      * apply sublist_cons, sublist_inserts_l, IHrest.
      * apply sublist_skip, sublist_app; [by apply Hc | done].
  - by constructor.
Qed.

(** X2: adding names to [skipDirs] only takes callbacks away: the
    callbacks of the walk with the larger set are those of the walk with
    the smaller set with some left out, in the same order. *)
Theorem larger_skipDirs_prune_more (ds ds' : gset string) fs dir rel :
  ds ⊆ ds' →
  visits platform (Some ds') fs dir rel `sublist_of`
  visits platform (Some ds) fs dir rel.
Proof.
  intros Hsub. rewrite !visits_trace.
  destruct (lookup fs dir); [|constructor].
  apply trace_sublist. intros x. by apply skipped_mono.
Qed.

End WalkReach.

Section WalkOrder.
Context (platform : Path.Platform).

Local Abbreviation trace := (trace platform).

Lemma trace_fullPath skip n dir rel v :
  v ∈ trace skip n dir rel →
  ∃ above, fullPath (visited v) = dir ++ above ++ [name (visited v)].
Proof.
  intros (above & m & H & _)%trace_kinds. by exists above.
Qed.

(** In the trace of a walk, the callback for a directory comes before
    every callback for an entry below it. *)
Lemma trace_parent_first skip n : ∀ dir rel l1 v l2 a1 x a2,
  trace skip n dir rel = l1 ++ v :: l2 →
  fullPath (visited v) = dir ++ (a1 ++ x :: a2) ++ [name (visited v)] →
  ∃ e, VisitDirectory e ∈ l1 ∧ fullPath e = dir ++ a1 ++ [x].
Proof.
  induction n as [sz|r es IH|tg _| |] using Node_ind;
    intros dir rel l1 v l2 a1 x a2;
    try (rewrite trace_not_listed by done; by intros ?%app_cons_not_nil).
  destruct r; [|rewrite trace_not_listed by done; by intros ?%app_cons_not_nil].
  revert l1 l2. induction IH as [|[nm child] rest Hc _ IHrest]; intros l1 l2.
  { rewrite trace_nil. by intros ?%app_cons_not_nil. }
  rewrite trace_cons. cbn zeta. simpl in Hc.
  assert (∀ e : Entry, fullPath e = dir ++ [nm] →
            fullPath e = dir ++ (a1 ++ x :: a2) ++ [name e] → False) as Hshort.
  { intros e -> Heq%(inj (app dir)). apply (f_equal length) in Heq.
    rewrite !length_app in Heq. simpl in Heq. lia. }
  destruct child as [sz|r' es'|tg| |]; try apply IHrest.
  - destruct l1 as [|w l1]; intros [= <- Htr] Hp.
    + by destruct (Hshort (entryOf platform dir rel nm) eq_refl Hp).
    + destruct (IHrest _ _ Htr Hp) as (e & He & Hpe).
      exists e. split; [by right | done].
  - destruct (skipped skip nm); [apply IHrest|].
    destruct l1 as [|w l1]; intros [= <- Htr] Hp.
    { by destruct (Hshort (entryOf platform dir rel nm) eq_refl Hp). }
    symmetry in Htr. apply app_eq_inv in Htr as [(k & Hl1 & Hrest)|(k & Hsub & Hl2)].
    + (* the visit lies in what follows the subdirectory *)
      destruct (IHrest _ _ Hrest Hp) as (e & He & Hpe).
      exists e. split; [|done]. right. rewrite Hl1. apply elem_of_app. by right.
    + destruct k as [|v' k].
      * (* the visit is the first after the subdirectory *)
        rewrite app_nil_r in Hsub. simpl in Hl2.
        destruct (IHrest [] l2 (eq_sym Hl2) Hp) as (e & He & _).
        by apply elem_of_nil in He.
      * (* the visit lies in the subdirectory *)
        injection Hl2 as <- ->.
        assert (v ∈ trace skip (NDir r' es') (dir ++ [nm])
                      (Path.join platform rel nm)) as Hin.
        { cbn [entryOf fullPath relPath] in Hsub. rewrite Hsub.
          apply elem_of_app. right. by left. }
        destruct (trace_fullPath _ _ _ _ _ Hin) as (above & Hab).
        rewrite Hab in Hp. rewrite <- !app_assoc in Hp.
        apply (inj (app dir)) in Hp. cbn [app] in Hp.
        destruct a1 as [|y a1]; injection Hp as -> Hp.
        -- eexists. split; [by left | done].
        -- destruct (Hc (dir ++ [y]) (Path.join platform rel y)
                        l1 v k a1 x a2 Hsub) as (e & He & Hpe).
           { rewrite Hab, Hp. by rewrite <- !app_assoc. }
           exists e. split; [by right|]. rewrite Hpe.
           by rewrite <- !app_assoc.
  - destruct l1 as [|w l1]; intros [= <- Htr] Hp.
    + by destruct (Hshort (entryOf platform dir rel nm) eq_refl Hp).
    + destruct (IHrest _ _ Htr Hp) as (e & He & Hpe).
      exists e. split; [by right | done].
Qed.

(** X3: parents come first. Whenever a walk calls back for an entry, it
    has already called [onDirectory] for every directory between its
    start and that entry. *)
Theorem walk_parent_before_children skip fs dir rel l1 v l2 a1 x a2 :
  visits platform skip fs dir rel = l1 ++ v :: l2 →
  fullPath (visited v) = dir ++ (a1 ++ x :: a2) ++ [name (visited v)] →
  ∃ e, VisitDirectory e ∈ l1 ∧ fullPath e = dir ++ a1 ++ [x] ∧ name e = x.
Proof.
  rewrite visits_trace.
  destruct (lookup fs dir) as [n|] eqn:Hn; [|by intros ?%app_cons_not_nil].
  intros Htr Hp.
  destruct (trace_parent_first _ _ _ _ _ _ _ _ _ _ Htr Hp) as (e & He & Hpe).
  exists e. split_and!; [done..|].
  assert (VisitDirectory e ∈ trace skip n dir rel) as Hin.
  { rewrite Htr. apply elem_of_app. by left. }
  destruct (trace_fullPath _ _ _ _ _ Hin) as (above & Hab). simpl in Hab.
  rewrite Hab in Hpe. apply (inj (app dir)) in Hpe.
  by apply app_inj_2 in Hpe as [_ [= ->]].
Qed.

(** X4: only the failure of [readdir] is swallowed. When a callback
    throws, the walk throws with the state that callback left, and none
    of the callbacks after it is made. *)
Theorem walk_stops_at_throwing_callback {S} (options : WalkOptions S)
    fs dir rel l1 v l2 (s s1 s2 : S) :
  visits platform (skipDirs options) fs dir rel = l1 ++ v :: l2 →
  forEach l1 (handle options) s = Done s1 →
  handle options v s1 = Raised s2 →
  walkDirectory platform options fs dir rel s = Raised s2.
Proof.
  intros Htr H1 Hv. rewrite walkDirectory_fold, Htr, forEach_app, H1.
  cbn [andThen forEach]. by rewrite Hv.
Qed.

End WalkOrder.

(** ** Paths in trees that list each name once *)

Lemma distinctNames_dir r es :
  distinctNames (NDir r es) ↔ NoDup es.*1 ∧ Forall (λ e, distinctNames e.2) es.
Proof.
  cbn [distinctNames]. apply and_iff_compat_l.
  induction es as [|[x c] es IH]; [by split|].
  rewrite Forall_cons, <- IH. done.
Qed.

Lemma resolve_resolved n : ∀ r, resolve n = Some r → resolve r = Some r.
Proof.
  induction n as [sz|rd es _|tg IH| |] using Node_ind; intros r; simpl;
    try by intros [= <-].
  destruct tg as [t|]; [|done]. by apply IH.
Qed.

Lemma resolve_distinct n : ∀ r,
  resolve n = Some r → distinctNames n → distinctNames r.
Proof.
  induction n as [sz|rd es _|tg IH| |] using Node_ind; intros r;
    try by intros [= <-].
  destruct tg as [t|]; [|done]. simpl. by apply IH.
Qed.

Lemma assoc_elem x c es : assoc x es = Some c → (x, c) ∈ es.
Proof.
  induction es as [|[y n] es IH]; [done|]. simpl.
  case_bool_decide as Hxy; [intros [= ->]; subst; by left|].
  intros H. right. by apply IH.
Qed.

Lemma assoc_distinct x c es : NoDup es.*1 → (x, c) ∈ es → assoc x es = Some c.
Proof.
  induction es as [|[y n] es IH]; [by intros _ ?%elem_of_nil|].
  rewrite fmap_cons, NoDup_cons. intros [Hy Hnd] [[= -> ->]|Hin]%elem_of_cons;
    simpl.
  - by rewrite bool_decide_true.
  - rewrite bool_decide_false; [by apply IH|].
    intros ->. apply Hy. apply list_elem_of_fmap. by exists (y, c).
Qed.

Lemma lookup_nil n : lookup n [] = resolve n.
Proof. destruct n as [| | [t|] | |]; simpl; try done; by destruct (resolve t). Qed.

Lemma lookup_cons n x p :
  lookup n (x :: p) =
  match resolve n with
  | Some (NDir _ es) =>
      match assoc x es with Some c => lookup c p | None => None end
  | _ => None
  end.
Proof. done. Qed.

Lemma lookup_resolved p : ∀ fs n, lookup fs p = Some n → resolve n = Some n.
Proof.
  induction p as [|x p IH]; intros fs n.
  - rewrite lookup_nil. apply resolve_resolved.
  - rewrite lookup_cons. destruct (resolve fs) as [[| rd es| | |]|]; try done.
    destruct (assoc x es); [apply IH | done].
Qed.

Lemma lookup_distinct p : ∀ fs n,
  lookup fs p = Some n → distinctNames fs → distinctNames n.
Proof.
  induction p as [|x p IH]; intros fs n.
  - rewrite lookup_nil. apply resolve_distinct.
  - rewrite lookup_cons. destruct (resolve fs) as [[| rd es| | |]|] eqn:Hr; try done.
    destruct (assoc x es) as [c|] eqn:Hc; [|done].
    intros Hl Hfs. apply (IH _ _ Hl).
    apply (resolve_distinct _ _ Hr), distinctNames_dir in Hfs as [_ Hall].
    rewrite Forall_forall in Hall. by apply (Hall (x, c)), assoc_elem.
Qed.

(** Resolving a path by parts. *)
Lemma lookup_app p q : ∀ fs n,
  lookup fs p = Some n → lookup fs (p ++ q) = lookup n q.
Proof.
  induction p as [|x p IH]; intros fs n.
  - rewrite lookup_nil. intros Hr. pose proof (resolve_resolved _ _ Hr) as Hn.
    destruct q as [|y q]; [by rewrite !lookup_nil, Hr, Hn|].
    cbn [app]. by rewrite !lookup_cons, Hr, Hn.
  - cbn [app]. rewrite !lookup_cons.
    destruct (resolve fs) as [[| rd es| | |]|]; try done.
    destruct (assoc x es); [apply IH | done].
Qed.

(** Going down by listings arrives where path resolution arrives. *)
Lemma descends_lookup n q m :
  descends n q m → distinctNames n → lookup n q = resolve m.
Proof.
  induction 1 as [n|es x c q m Hin Hdesc IH]; intros Hd.
  - apply lookup_nil.
  - rewrite lookup_cons. cbn [resolve].
    apply distinctNames_dir in Hd as [Hnd Hall].
    rewrite (assoc_distinct _ _ _ Hnd Hin). apply IH.
    rewrite Forall_forall in Hall. by apply (Hall (x, c)).
Qed.

(** In a tree that lists each name once, [stat] on the path of an entry
    that a walk reaches finds that entry: it reports the size of a
    regular file as a [Number], and throws on an entry that no path
    resolves to. *)
Lemma stat_reached fs dir n q m :
  distinctNames fs → lookup fs dir = Some n → descends n q m →
  stat fs (dir ++ q) =
  match resolve m with
  | Some (NFile sz) => Some (toNumber sz)
  | Some _ => Some 0%N
  | None => None
  end.
Proof.
  intros Hfs Hn Hdesc. unfold stat. rewrite (lookup_app _ _ _ _ Hn).
  by rewrite (descends_lookup _ _ _ Hdesc (lookup_distinct _ _ _ Hn Hfs)).
Qed.

(** ** Which rules can throw *)

Lemma completes_Done : completes Done.
Proof. intros errors. by eexists. Qed.

Lemma completes_pushIf cond v : completes (pushIf cond v).
Proof. intros errors. unfold pushIf, push. destruct cond; by eexists. Qed.

Lemma completes_andThen f g :
  completes f → completes g → completes (λ errors, f errors >>> g).
Proof.
  intros Hf Hg errors. destruct (Hf errors) as [e1 ->]. apply Hg.
Qed.

Lemma forEach_completes {A} (xs : list A) body :
  (∀ x, x ∈ xs → completes (body x)) → completes (forEach xs body).
Proof.
  induction xs as [|x xs IH]; intros Hbody; [apply completes_Done|].
  apply (completes_andThen (body x) (forEach xs body)).
  - apply Hbody. by left.
  - apply IH. intros y Hy. apply Hbody. by right.
Qed.

(** A walk completes when its callbacks complete on what it visits. *)
Lemma walk_completes platform options fs dir rel :
  (∀ v, v ∈ visits platform (skipDirs options) fs dir rel →
        completes (handle options v)) →
  completes (walk platform options fs dir rel).
Proof.
  intros Hv errors. unfold walk. rewrite walkDirectory_fold.
  by apply forEach_completes.
Qed.

Lemma completes_nestedPackageJson platform fs :
  completes (validateNoNestedPackageJson platform fs).
Proof.
  apply walk_completes. intros [e|e] _ errors; [by eexists|].
  cbn [handle call onFile]. unfold validateNoNestedPackageJson_onFile.
  case_bool_decide; [apply completes_pushIf | by eexists].
Qed.

Lemma completes_sourceFileLocations platform fs config :
  completes (validateSourceFileLocations platform fs config).
Proof.
  apply walk_completes. intros [e|e] _ errors; [by eexists|].
  cbn [handle call onFile]. unfold validateSourceFileLocations_onFile.
  destruct (negb _); [by eexists|].
  case_bool_decide; [by eexists|].
  destruct (test PACKAGE_CONFIG_PATTERN _);
    [by eexists | apply completes_pushIf].
Qed.

Lemma completes_testFileNaming platform fs :
  completes (validateTestFileNaming platform fs).
Proof.
  apply walk_completes. intros [e|e] _ errors; [by eexists|].
  cbn [handle call onFile].
  rewrite validateTestFileNaming_onFile_spec. by eexists.
Qed.

Lemma completes_noShellScripts platform fs :
  completes (validateNoShellScripts platform fs).
Proof.
  apply walk_completes. intros [e|e] _ errors; [by eexists|].
  apply completes_pushIf.
Qed.

(** From [appends] and [completes]: the same records are appended to every
    list, and the rule returns. *)
Lemma appends_completes P f :
  appends P f → completes f →
  ∃ added, Forall P added ∧ ∀ errors, f errors = Done (errors ++ added).
Proof.
  intros (added & ok & HP & Hf) Hc. exists added. split; [done|].
  destruct ok; [done|]. destruct (Hc []) as [e He]. by rewrite Hf in He.
Qed.

Lemma walk_unlistable_start platform options fs dir rel errors :
  readdir fs dir = None → walk platform options fs dir rel errors = Done errors.
Proof.
  unfold readdir, walk, walkDirectory.
  destruct (lookup fs dir) as [n|]; [|done]. intros H.
  apply walkNode_not_listed. by intros es ->.
Qed.

(** X5: the four rules that walk the whole tree never throw, whatever the
    tree and the configuration: each returns with the same records
    appended to whatever the list held, and with nothing appended when
    the repository root cannot be listed. *)
Theorem full_tree_rules_never_throw platform fs config :
  Forall
    (λ rule, ∃ added,
       (∀ errors, rule errors = Done (errors ++ added)) ∧
       (readdir fs REPO_ROOT = None → added = []))
    [ validateNoNestedPackageJson platform fs;
      validateSourceFileLocations platform fs config;
      validateTestFileNaming platform fs;
      validateNoShellScripts platform fs ].
Proof.
  assert (∀ rule,
            appends severityMatchesType rule → completes rule →
            (readdir fs REPO_ROOT = None → rule [] = Done []) →
            ∃ added, (∀ errors, rule errors = Done (errors ++ added)) ∧
                     (readdir fs REPO_ROOT = None → added = [])) as Hrule.
  { intros rule Ha Hc Hroot.
    destruct (appends_completes _ _ Ha Hc) as (added & _ & Hadd).
    exists added. split; [done|]. intros Hr. specialize (Hroot Hr).
    rewrite Hadd in Hroot. by injection Hroot. }
  repeat constructor; apply Hrule;
    auto using typed_nestedPackageJson, typed_sourceFileLocations,
      typed_testFileNaming, typed_noShellScripts,
      completes_nestedPackageJson, completes_sourceFileLocations,
      completes_testFileNaming, completes_noShellScripts;
    intros Hr; by apply walk_unlistable_start.
Qed.

(** ** The rules that list [packages] *)

Lemma chars_inj s t : JS.chars s = JS.chars t → s = t.
Proof.
  intros H. apply (f_equal String.string_of_list_ascii) in H.
  unfold JS.chars in H. by rewrite !String.string_of_list_ascii_of_string in H.
Qed.

Lemma string_app_inv_tail s s' t : s +:+ t = s' +:+ t → s = s'.
Proof.
  intros H. apply chars_inj. apply (f_equal JS.chars) in H.
  rewrite !chars_app in H. by apply app_inv_tail in H.
Qed.

Lemma under_packages_inj nm nm' tail :
  "packages/" +:+ nm +:+ tail = "packages/" +:+ nm' +:+ tail → nm = nm'.
Proof. intros H%(inj (String.append "packages/")). by apply string_app_inv_tail in H. Qed.

(** A loop whose body pushes at most one record per element. *)
Lemma forEach_pushes {A} (xs : list A) (c : A → bool) (v : A → ValidationError)
    (body : A → list ValidationError → Res (list ValidationError)) :
  (∀ x errors, body x errors = pushIf (c x) (v x) errors) →
  ∀ errors,
    forEach xs body errors = Done (errors ++ (v <$> filter (λ x, c x = true) xs)).
Proof.
  intros Hbody. induction xs as [|x xs IH]; intros errors; simpl.
  { by rewrite app_nil_r. }
  rewrite Hbody, filter_cons. unfold pushIf, push.
  destruct (c x) eqn:Hc.
  - rewrite decide_True by done. cbn [andThen]. rewrite IH, fmap_cons.
    by rewrite <- app_assoc.
  - rewrite decide_False by congruence. cbn [andThen]. apply IH.
Qed.

Lemma NoDup_reported (entries : list (string * Node)) (c : string * Node → bool)
    (v : string → ValidationError) :
  (∀ nm nm', v nm = v nm' → nm = nm') →
  NoDup entries.*1 →
  NoDup ((λ e, v e.1) <$> filter (λ x, c x = true) entries).
Proof.
  intros Hinj Hnd. apply NoDup_fmap_2_strong.
  - intros [nm node] [nm' node'] [_ Hin]%list_elem_of_filter
      [_ Hin']%list_elem_of_filter Heq%Hinj. simpl in Heq. subst nm'.
    f_equal. apply assoc_distinct with (x := nm) in Hin, Hin'; try done.
    congruence.
  - apply NoDup_filter. by apply NoDup_fmap_1 in Hnd.
Qed.

Lemma validateScriptsLocation_listed fs config entries errors :
  readdir fs ["packages"] = Some entries →
  validateScriptsLocation fs config errors =
  Done (errors ++
        ((λ e, scriptsViolation e.1) <$>
         filter (λ e, isDirectory e.2 &&
                      negb (bool_decide
                              (e.1 ∈ (list_to_set
                                 (default ["dev-tools"] (allowedScriptsPackages config))
                               : gset string))) &&
                      existsSync fs ["packages"; e.1; "scripts"] = true)
                entries)).
Proof.
  intros Hr. unfold validateScriptsLocation. cbn zeta.
  change (REPO_ROOT ++ ["packages"]) with ["packages"]. rewrite Hr.
  apply forEach_pushes. intros [nm node] errs. cbn [fst snd].
  destruct (isDirectory node); [|done].
  by destruct (bool_decide _).
Qed.

(** X6: when [packages] can be listed, the scripts rule returns, and it
    reports [packages/<name>/scripts/] for exactly the directories listed
    there that are outside the allow-list and in which [scripts] exists,
    once each when the listing names each package once. The allow-list is
    the configured one when there is one, and [dev-tools] alone
    otherwise. *)
Theorem scripts_rule_reports fs config entries :
  readdir fs ["packages"] = Some entries →
  ∃ added,
    (∀ errors, validateScriptsLocation fs config errors = Done (errors ++ added)) ∧
    (∀ v, v ∈ added ↔
          ∃ nm, scriptsReported fs config entries nm ∧ v = scriptsViolation nm) ∧
    (packagesDistinct entries → NoDup added).
Proof.
  intros Hr. eexists. split_and!.
  - intros errors. by apply validateScriptsLocation_listed.
  - intros v. rewrite list_elem_of_fmap. split.
    + intros ([nm node] & -> & [Hc Hin]%list_elem_of_filter). exists nm.
      split; [|done]. exists node. cbn [fst snd] in Hc.
      apply andb_prop in Hc as [[Hd Ha]%andb_prop He].
      split_and!; [done..| |].
      * apply negb_true_iff, bool_decide_eq_false in Ha.
        intros Hin'. apply Ha. by apply elem_of_list_to_set.
      * by apply bool_decide_eq_true in He.
    + intros (nm & (node & Hin & Hd & Ha & He) & ->). exists (nm, node).
      split; [done|]. apply list_elem_of_filter. split; [|done]. cbn [fst snd].
      rewrite Hd. cbn [andb]. apply andb_true_intro. split.
      * apply negb_true_iff, bool_decide_eq_false.
        intros Hin'. apply Ha. by apply elem_of_list_to_set in Hin'.
      * by apply bool_decide_eq_true.
  - apply NoDup_reported. intros nm nm' H%(f_equal path).
    by apply under_packages_inj in H.
Qed.

Lemma validateNoExamples_listed fs config entries errors :
  default [] (noExamplesPatterns config) ≠ [] →
  readdir fs ["packages"] = Some entries →
  validateNoExamplesInPatternPackages fs config errors =
  Done (errors ++
        ((λ e, examplesViolation e.1) <$>
         filter (λ e, isDirectory e.2 &&
                      existsb (λ p, test p e.1)
                        (default [] (noExamplesPatterns config)) &&
                      existsSync fs ["packages"; e.1; "examples"] = true)
                entries)).
Proof.
  intros Hp Hr. unfold validateNoExamplesInPatternPackages. cbn zeta.
  rewrite bool_decide_false by (by intros ?%nil_length_inv).
  change (REPO_ROOT ++ ["packages"]) with ["packages"]. rewrite Hr.
  apply forEach_pushes. intros [nm node] errs. cbn [fst snd].
  destruct (isDirectory node); [|done]. cbn [negb andb].
  by destruct (existsb _ _).
Qed.

(** X7: the examples rule. Without configured patterns it returns at once
    with the list unchanged and does not look at [packages], which may
    then be missing. With patterns it throws when [packages] cannot be
    listed, and otherwise reports [packages/<name>/examples/] for exactly
    the directories listed there whose name some pattern matches and in
    which [examples] exists. The configured patterns are patterns
    without the [g] and [y] flags. *)
Theorem examples_rule_reports fs config :
  (default [] (noExamplesPatterns config) = [] →
   ∀ errors, validateNoExamplesInPatternPackages fs config errors = Done errors) ∧
  (default [] (noExamplesPatterns config) ≠ [] →
   (readdir fs ["packages"] = None →
    ∀ errors, validateNoExamplesInPatternPackages fs config errors = Raised errors) ∧
   (∀ entries, readdir fs ["packages"] = Some entries →
      ∃ added,
        (∀ errors, validateNoExamplesInPatternPackages fs config errors =
                   Done (errors ++ added)) ∧
        (∀ v, v ∈ added ↔
              ∃ nm, examplesReported fs config entries nm ∧
                    v = examplesViolation nm) ∧
        (packagesDistinct entries → NoDup added))).
Proof.
  split; [|intros Hp; split].
  - intros Hp errors. unfold validateNoExamplesInPatternPackages. cbn zeta.
    by rewrite Hp.
  - intros Hr errors. unfold validateNoExamplesInPatternPackages. cbn zeta.
    rewrite bool_decide_false by (by intros ?%nil_length_inv).
    change (REPO_ROOT ++ ["packages"]) with ["packages"]. by rewrite Hr.
  - intros entries Hr. eexists. split_and!.
    + intros errors. by apply validateNoExamples_listed.
    + intros v. rewrite list_elem_of_fmap. split.
      * intros ([nm node] & -> & [Hc Hin]%list_elem_of_filter). exists nm.
        split; [|done]. exists node. cbn [fst snd] in Hc.
        apply andb_prop in Hc as [[Hd Hm]%andb_prop He].
        split_and!; [done..| |].
        -- apply existsb_elem in Hm as (p & ? & ?). by exists p.
        -- by apply bool_decide_eq_true in He.
      * intros (nm & (node & Hin & Hd & (p & Hpin & Hm) & He) & ->).
        exists (nm, node). split; [done|].
        apply list_elem_of_filter. split; [|done]. cbn [fst snd].
        rewrite Hd. cbn [andb]. apply andb_true_intro. split.
        -- apply existsb_elem. by exists p.
        -- by apply bool_decide_eq_true.
    + apply NoDup_reported. intros nm nm' H%(f_equal path).
      by apply under_packages_inj in H.
Qed.

(** ** Exceptions of the fixture rules and of a run *)

Lemma forEachPackageFixturesDir_unlistable fs checkDirectory errors :
  readdir fs ["packages"] = None →
  forEachPackageFixturesDir fs checkDirectory errors = Raised errors.
Proof.
  intros Hr. unfold forEachPackageFixturesDir. cbn zeta.
  change (REPO_ROOT ++ ["packages"]) with ["packages"]. by rewrite Hr.
Qed.

Lemma forEachPackageFixturesDir_completes fs checkDirectory :
  is_Some (readdir fs ["packages"]) →
  (∀ dir rel, completes (checkDirectory dir rel)) →
  completes (forEachPackageFixturesDir fs checkDirectory).
Proof.
  intros [entries Hr] Hc. unfold forEachPackageFixturesDir. cbn zeta.
  change (REPO_ROOT ++ ["packages"]) with ["packages"]. rewrite Hr.
  apply forEach_completes. intros [nm node] _.
  destruct (isDirectory node); [apply Hc | apply completes_Done].
Qed.

Lemma completes_noStaging platform fs :
  is_Some (readdir fs ["packages"]) →
  completes (validateNoStagingDirectories platform fs).
Proof.
  intros Hr. apply forEachPackageFixturesDir_completes; [done|].
  intros dir rel. apply walk_completes.
  intros [e|e] _ errors; [apply completes_pushIf | by eexists].
Qed.

Lemma forEach_concat {A B S} (f : A → list B) (xs : list A)
    (body : B → S → Res S) (s : S) :
  forEach (concat (f <$> xs)) body s = forEach xs (λ x, forEach (f x) body) s.
Proof.
  revert s. induction xs as [|x xs IH]; intros s; [done|].
  rewrite fmap_cons. cbn [concat forEach]. rewrite forEach_app.
  destruct (forEach (f x) body s); cbn [andThen]; [apply IH | done].
Qed.

(** A walk without [onDirectory] is its [onFile] run over the files. *)
Lemma forEach_files {S} skip (callback : Entry → S → Res S) vs s :
  forEach vs
    (handle {| skipDirs := skip; onDirectory := None; onFile := Some callback |}) s =
  forEach (files vs) callback s.
Proof.
  revert s. induction vs as [|[e|e] vs IH]; intros s; [done|apply IH|].
  change (files (VisitFile e :: vs)) with (e :: files vs).
  cbn [forEach handle call onFile]. destruct (callback e s); [apply IH | done].
Qed.

(** The size rule is its callback run over the fixture files. *)
Lemma validateTestFixtureSizes_fold platform fs errors :
  is_Some (readdir fs ["packages"]) →
  validateTestFixtureSizes platform fs errors =
  forEach (fixtureFiles platform fs) (validateTestFixtureSizes_onFile fs) errors.
Proof.
  intros [entries Hr]. unfold validateTestFixtureSizes, forEachPackageFixturesDir,
    fixtureFiles. cbn zeta.
  change (REPO_ROOT ++ ["packages"]) with ["packages"]. rewrite Hr.
  rewrite forEach_concat. apply forEach_ext. intros [nm node] errs.
  destruct (isDirectory node); [|done].
  unfold walk. rewrite walkDirectory_fold. apply forEach_files.
Qed.

(** The callback of the size rule throws when [stat] does, and appends
    its verdict otherwise. *)
Lemma fixtureSizes_onFile_cases fs e errors :
  validateTestFixtureSizes_onFile fs e errors =
  match stat fs (fullPath e) with
  | Some _ => Done (errors ++ verdict (validateTestFixtureSizes_onFile fs) e)
  | None => Raised errors
  end.
Proof.
  unfold verdict, validateTestFixtureSizes_onFile.
  destruct (stat fs (fullPath e)) as [size|]; [|done]. cbn zeta.
  destruct (Qgtb _ _); [|by rewrite app_nil_r].
  unfold pushIf, push. destruct (negb _); simpl; by rewrite ?app_nil_r.
Qed.

Lemma fixtureSizes_statable fs xs :
  (∀ e, e ∈ xs → is_Some (stat fs (fullPath e))) →
  ∀ errors,
    forEach xs (validateTestFixtureSizes_onFile fs) errors =
    Done (errors ++ concat (verdict (validateTestFixtureSizes_onFile fs) <$> xs)).
Proof.
  intros Hok. induction xs as [|x xs IH]; intros errors; simpl.
  { by rewrite app_nil_r. }
  rewrite fixtureSizes_onFile_cases.
  destruct (Hok x) as [size ->]; [by left|]. cbn [andThen].
  rewrite IH by (intros y Hy; apply Hok; by right).
  by rewrite <- app_assoc.
Qed.

Lemma fixtureSizes_stop fs l1 e l2 :
  (∀ e', e' ∈ l1 → is_Some (stat fs (fullPath e'))) →
  stat fs (fullPath e) = None →
  ∀ errors,
    forEach (l1 ++ e :: l2) (validateTestFixtureSizes_onFile fs) errors =
    Raised (errors ++ concat (verdict (validateTestFixtureSizes_onFile fs) <$> l1)).
Proof.
  intros Hok He errors. rewrite forEach_app, fixtureSizes_statable by done.
  cbn [andThen forEach]. by rewrite fixtureSizes_onFile_cases, He.
Qed.

(** The first file of a list on which [stat] throws. *)
Lemma first_unstatable fs xs :
  (∃ e, e ∈ xs ∧ stat fs (fullPath e) = None) →
  ∃ l1 e l2, xs = l1 ++ e :: l2 ∧
             (∀ e', e' ∈ l1 → is_Some (stat fs (fullPath e'))) ∧
             stat fs (fullPath e) = None.
Proof.
  induction xs as [|x xs IH]; [by intros (? & ?%elem_of_nil & _)|].
  intros (e & He & Hs). destruct (stat fs (fullPath x)) as [size|] eqn:Hx.
  - apply elem_of_cons in He as [->|He]; [congruence|].
    destruct IH as (l1 & e' & l2 & -> & Hok & Hs'); [by exists e|].
    exists (x :: l1), e', l2. split_and!; [done| |done].
    intros y [->|Hy]%elem_of_cons; [by rewrite Hx | by apply Hok].
  - exists [], x, xs. split_and!; [done| |done]. by intros ? ?%elem_of_nil.
Qed.

Lemma completes_fixtureSizes platform fs :
  is_Some (readdir fs ["packages"]) →
  (∀ e, e ∈ fixtureFiles platform fs → is_Some (stat fs (fullPath e))) →
  completes (validateTestFixtureSizes platform fs).
Proof.
  intros Hr Hok errors.
  rewrite validateTestFixtureSizes_fold, fixtureSizes_statable by done.
  by eexists.
Qed.

Lemma raises_fixtureSizes platform fs errors :
  (∃ e, e ∈ fixtureFiles platform fs ∧ stat fs (fullPath e) = None) →
  ∃ errors', validateTestFixtureSizes platform fs errors = Raised errors'.
Proof.
  intros Hex.
  assert (is_Some (readdir fs ["packages"])) as Hr.
  { destruct Hex as (e & He & _). unfold fixtureFiles in He.
    destruct (readdir fs ["packages"]); [done | by apply elem_of_nil in He]. }
  destruct (first_unstatable _ _ Hex) as (l1 & e & l2 & Heq & Hok & Hs).
  rewrite validateTestFixtureSizes_fold, Heq, fixtureSizes_stop by done.
  by eexists.
Qed.

Lemma completes_scriptsLocation fs config :
  is_Some (readdir fs ["packages"]) → completes (validateScriptsLocation fs config).
Proof.
  intros [entries Hr] errors.
  rewrite (validateScriptsLocation_listed _ _ _ _ Hr). by eexists.
Qed.

Lemma completes_noExamples fs config :
  is_Some (readdir fs ["packages"]) →
  completes (validateNoExamplesInPatternPackages fs config).
Proof.
  intros [entries Hr] errors.
  destruct (decide (default [] (noExamplesPatterns config) = [])) as [Hp|Hp].
  - unfold validateNoExamplesInPatternPackages. cbn zeta. rewrite Hp.
    by eexists.
  - rewrite (validateNoExamples_listed _ _ _ _ Hp Hr). by eexists.
Qed.

(** X8: when the two rules that visit the fixtures of every package
    throw. Both throw, with the list unchanged, when [packages] cannot be
    listed. When it can be listed the staging rule always returns; the
    size rule returns when [stat] succeeds on every file that its walks
    hand to it, and throws when [stat] throws on one of them. Either way
    a rule appends the same records to whatever the list held. *)
Theorem when_fixture_rules_throw platform fs :
  (readdir fs ["packages"] = None →
   ∀ errors,
     validateNoStagingDirectories platform fs errors = Raised errors ∧
     validateTestFixtureSizes platform fs errors = Raised errors) ∧
  (is_Some (readdir fs ["packages"]) →
   (∃ staging, ∀ errors,
      validateNoStagingDirectories platform fs errors = Done (errors ++ staging)) ∧
   ((∀ e, e ∈ fixtureFiles platform fs → is_Some (stat fs (fullPath e))) →
    ∃ sizes, ∀ errors,
      validateTestFixtureSizes platform fs errors = Done (errors ++ sizes)) ∧
   ((∃ e, e ∈ fixtureFiles platform fs ∧ stat fs (fullPath e) = None) →
    ∃ sizes, ∀ errors,
      validateTestFixtureSizes platform fs errors = Raised (errors ++ sizes))).
Proof.
  split.
  - intros Hr errors.
    split; by apply forEachPackageFixturesDir_unlistable.
  - intros Hr. split_and!.
    + destruct (appends_completes _ _ (typed_noStaging platform fs)
                  (completes_noStaging platform fs Hr)) as (a2 & _ & H2).
      by exists a2.
    + intros Hok.
      destruct (appends_completes _ _ (typed_fixtureSizes platform fs)
                  (completes_fixtureSizes platform fs Hr Hok)) as (a3 & _ & H3).
      by exists a3.
    + intros Hex.
      destruct (typed_fixtureSizes platform fs) as (added & ok & _ & Hrun).
      exists added. destruct ok; [|done].
      destruct (raises_fixtureSizes platform fs [] Hex) as [e He].
      by rewrite Hrun in He.
Qed.

Lemma runRules_unlistable platform fs config errors :
  readdir fs ["packages"] = None →
  ∃ errors', runRules platform fs config errors = Raised errors'.
Proof.
  intros Hr. unfold runRules.
  destruct (completes_nestedPackageJson platform fs errors) as [e1 ->].
  cbn [andThen].
  destruct (completes_sourceFileLocations platform fs config e1) as [e2 ->].
  cbn [andThen].
  destruct (completes_testFileNaming platform fs e2) as [e3 ->].
  cbn [andThen].
  destruct (validateNoExamplesInPatternPackages fs config e3) as [e4|e4];
    cbn [andThen]; [|by eexists].
  unfold validateScriptsLocation. cbn zeta.
  change (REPO_ROOT ++ ["packages"]) with ["packages"]. rewrite Hr.
  cbn [andThen]. by eexists.
Qed.

(** With [packages] listable, a run of the rules ends as the size rule,
    the last one, ends. *)
Lemma runRules_listable platform fs config errors :
  is_Some (readdir fs ["packages"]) →
  ∃ errors', runRules platform fs config errors =
             validateTestFixtureSizes platform fs errors'.
Proof.
  intros Hr. unfold runRules.
  destruct (completes_nestedPackageJson platform fs errors) as [e1 ->].
  cbn [andThen].
  destruct (completes_sourceFileLocations platform fs config e1) as [e2 ->].
  cbn [andThen].
  destruct (completes_testFileNaming platform fs e2) as [e3 ->].
  cbn [andThen].
  destruct (completes_noExamples fs config Hr e3) as [e4 ->]. cbn [andThen].
  destruct (completes_scriptsLocation fs config Hr e4) as [e5 ->]. cbn [andThen].
  destruct (completes_noShellScripts platform fs e5) as [e6 ->]. cbn [andThen].
  destruct (completes_noStaging platform fs Hr e6) as [e7 ->]. cbn [andThen].
  by exists e7.
Qed.

(** X9: a run ends with status 2 exactly when the [packages] directory
    of the repository cannot be listed (it is missing, is not a
    directory, or is unreadable) or [stat] throws on a file that the
    walks of the size rule hand to it; otherwise the status is 0 or 1.
    This holds for a configuration module that fails to load, that has no
    [config] export, and that exports a configuration. *)
Theorem exit_two_iff_a_rule_throws platform fs configModule :
  (main platform fs configModule = 2 ↔
   readdir fs ["packages"] = None ∨
   ∃ e, e ∈ fixtureFiles platform fs ∧ stat fs (fullPath e) = None) ∧
  (main platform fs configModule = 0 ∨ main platform fs configModule = 1 ∨
   main platform fs configModule = 2).
Proof.
  unfold main, validate. fold (configOf configModule).
  destruct (readdir fs ["packages"]) as [entries|] eqn:Hr.
  - destruct (runRules_listable platform fs (configOf configModule) []
                (mk_is_Some _ _ Hr)) as [e ->].
    destruct (decide (Exists (λ x, stat fs (fullPath x) = None)
                        (fixtureFiles platform fs))) as [Hex|Hok].
    + apply Exists_exists in Hex.
      destruct (raises_fixtureSizes platform fs e Hex) as [e' ->].
      split; [|auto]. split; [by right | done].
    + assert (∀ x, x ∈ fixtureFiles platform fs → is_Some (stat fs (fullPath x)))
        as Hall.
      { intros x Hx. destruct (stat fs (fullPath x)) eqn:Hs; [done|].
        destruct Hok. apply Exists_exists. by exists x. }
      destruct (completes_fixtureSizes platform fs (mk_is_Some _ _ Hr) Hall e)
        as [e' ->].
      assert (¬ ∃ x, x ∈ fixtureFiles platform fs ∧ stat fs (fullPath x) = None)
        as Hno.
      { intros (x & Hx & Hs). destruct (Hall x Hx) as [? ?]. congruence. }
      destruct (hasErrors e'); (split; [|auto]);
        (split; [done | by intros [?|?]]).
  - destruct (runRules_unlistable platform fs (configOf configModule) [] Hr)
      as [e ->].
    split; [|auto]. split; [by left | done].
Qed.

(** ** The order of the rules *)





(** ** The verdict of the naming rule by suffix *)

Lemma endsWith_spec_excludes nm :
  JS.endsWith nm ".spec.ts" = true →
  JS.endsWith nm ".integration.test.ts" = false ∧
  JS.endsWith nm ".system.test.ts" = false ∧
  JS.endsWith nm ".test.ts" = false.
Proof.
  intros H. split_and!; by apply (endsWith_exclusive nm ".spec.ts").
Qed.

Lemma endsWith_suffix_of nm t u :
  JS.endsWith t u = true → JS.endsWith nm t = true → JS.endsWith nm u = true.
Proof. rewrite !endsWith_true. intros Hu Ht. by etrans. Qed.

(** X11: the verdict of the naming rule is decided by the suffix of the
    name. A [.spec.ts] file gets the legacy record and nothing else,
    wherever it lies; an [.integration.test.ts] or [.system.test.ts] file
    gets one record exactly when its normalised path lacks
    [/test/integration/], respectively [/test/system/]; another
    [.test.ts] file gets one record exactly when its path has one of the
    two; a file with none of these suffixes gets nothing. *)
Theorem naming_verdict_by_suffix e errors :
  let p := JS.replaceAll (relPath e) "\" "/" in
  let verdict := validateTestFileNaming_onFile e errors in
  (JS.endsWith (name e) ".spec.ts" = true →
   verdict = Done (errors ++
     [structural e "Use .test.ts instead of .spec.ts for consistency."])) ∧
  (JS.endsWith (name e) ".integration.test.ts" = true →
   verdict = Done (errors ++
     if JS.includes p "/test/integration/" then []
     else [structural e "Integration tests must be in test/integration/ directory."])) ∧
  (JS.endsWith (name e) ".system.test.ts" = true →
   verdict = Done (errors ++
     if JS.includes p "/test/system/" then []
     else [structural e "System tests must be in test/system/ directory."])) ∧
  (JS.endsWith (name e) ".test.ts" = true →
   JS.endsWith (name e) ".integration.test.ts" = false →
   JS.endsWith (name e) ".system.test.ts" = false →
   verdict = Done (errors ++
     if JS.includes p "/test/integration/" || JS.includes p "/test/system/"
     then [structural e "Unit tests in integration/system directories must use .integration.test.ts or .system.test.ts suffix."]
     else [])) ∧
  (JS.endsWith (name e) ".spec.ts" = false →
   JS.endsWith (name e) ".test.ts" = false →
   verdict = Done errors).
Proof.
  intros p verdict. unfold verdict.
  rewrite validateTestFileNaming_onFile_spec.
  unfold namingViolations, isLegacySpec, isMisplacedIntegration,
    isMisplacedSystem, isMisnamedUnit. fold p.
  split_and!.
  - intros Hs. destruct (endsWith_spec_excludes _ Hs) as (-> & -> & ->).
    by rewrite Hs.
  - intros Hi.
    rewrite (endsWith_exclusive (name e) ".integration.test.ts" ".spec.ts"
               eq_refl eq_refl Hi),
      (endsWith_exclusive (name e) ".integration.test.ts" ".system.test.ts"
         eq_refl eq_refl Hi), Hi.
    rewrite andb_false_r. cbn [andb negb app].
    by destruct (JS.includes p "/test/integration/").
  - intros Hy.
    rewrite (endsWith_exclusive (name e) ".system.test.ts" ".spec.ts"
               eq_refl eq_refl Hy),
      (endsWith_exclusive (name e) ".system.test.ts" ".integration.test.ts"
         eq_refl eq_refl Hy), Hy.
    rewrite andb_false_r. cbn [andb negb app].
    by destruct (JS.includes p "/test/system/").
  - intros Ht Hi Hy.
    rewrite (endsWith_exclusive (name e) ".test.ts" ".spec.ts"
               eq_refl eq_refl Ht), Hi, Hy, Ht.
    cbn [andb negb app]. by destruct (_ || _).
  - intros Hs Ht. rewrite Hs, Ht.
    assert (JS.endsWith (name e) ".integration.test.ts" = false) as ->.
    { apply not_true_is_false. intros H.
      by rewrite (endsWith_suffix_of (name e) ".integration.test.ts"
                    ".test.ts" eq_refl H) in Ht. }
    assert (JS.endsWith (name e) ".system.test.ts" = false) as ->.
    { apply not_true_is_false. intros H.
      by rewrite (endsWith_suffix_of (name e) ".system.test.ts"
                    ".test.ts" eq_refl H) in Ht. }
    cbn [andb app]. by rewrite app_nil_r.
Qed.

(** ** The source-location rule *)

(** [/^packages\/[^/]+<tail>/] for any tail. *)
Lemma underPackage_denotes tail toEnd p :
  test (underPackage tail toEnd) p = true ↔
  ∃ nm w rest, isSegment nm ∧ denotes tail w ∧
               p = "packages/" +:+ nm +:+ w +:+ rest ∧
               (toEnd = true → rest = "").
Proof.
  unfold underPackage, lit, regexp, test, Re.testLiteral, Re.matchAt.
  cbn [Re.fromStart Re.body Re.toEnd].
  rewrite existsb_elem. setoid_rewrite run_correct. cbn [denotes]. split.
  - intros (rest & (w & (u & v & -> & -> & (nm & t & -> & [Hne Hall] & Ht)) & ->) & Hend).
    exists nm, t, rest. split_and!; [| done | |].
    + split; [done|]. intros Hin.
      rewrite Forall_forall in Hall. by specialize (Hall _ Hin).
    + by rewrite !string_app_assoc.
    + intros ->. by apply bool_decide_eq_true in Hend.
  - intros (nm & w & rest & [Hne Hno] & Hw & -> & Hend). exists rest. split.
    + exists ("packages/" +:+ nm +:+ w). split.
      * exists "packages/", (nm +:+ w). split_and!; [done..|].
        exists nm, w. split_and!; [done|done| |done].
        apply Forall_forall. intros c Hc.
        unfold Re.notSlash. destruct (Ascii.eqb_spec c "/"); [by subst|done].
      * by rewrite !string_app_assoc.
    + destruct toEnd; [|done]. rewrite Hend by done. by apply bool_decide_eq_true.
Qed.

Lemma package_config_pattern p :
  test PACKAGE_CONFIG_PATTERN p = true ↔
  ∃ nm f, isSegment nm ∧ f ∈ PACKAGE_CONFIG_FILES ∧
          p = "packages/" +:+ nm +:+ "/" +:+ f.
Proof.
  unfold PACKAGE_CONFIG_PATTERN. rewrite underPackage_denotes.
  cbn [denotes]. unfold PACKAGE_CONFIG_FILES. split.
  - intros (nm & w & rest & Hnm & (u & v & -> & -> & (a & b & -> & Ha & ->)) & -> & Hend).
    rewrite Hend by done. exists nm.
    destruct Ha as [(c & d & -> & -> & [->|[->| ->]])| ->];
      eexists; (split; [done|]); (split; [|reflexivity]);
      repeat (first [by left | right]).
  - intros (nm & f & Hnm & Hf & ->). exists nm.
    repeat (apply elem_of_cons in Hf as [->|Hf]); [..|by apply elem_of_nil in Hf].
    + exists "/vitest.config.ts", "". split_and!; [done| |done..].
      exists "/", "vitest.config.ts". split_and!; [done..|].
      exists "vitest.config", ".ts". split_and!; [done| |done].
      left. exists "vitest.", "config". auto.
    + exists "/vitest.integration.config.ts", "". split_and!; [done| |done..].
      exists "/", "vitest.integration.config.ts". split_and!; [done..|].
      exists "vitest.integration.config", ".ts". split_and!; [done| |done].
      left. exists "vitest.", "integration.config". auto.
    + exists "/vitest.system.config.ts", "". split_and!; [done| |done..].
      exists "/", "vitest.system.config.ts". split_and!; [done..|].
      exists "vitest.system.config", ".ts". split_and!; [done| |done].
      left. exists "vitest.", "system.config". auto.
    + exists "/knip.config.ts", "". split_and!; [done| |done..].
      exists "/", "knip.config.ts". split_and!; [done..|].
      exists "knip.config", ".ts". split_and!; [done| |done]. by right.
Qed.

Lemma built_in_package_patterns p :
  existsb (λ pat, test pat p) BUILT_IN_PACKAGE_PATTERNS = true ↔
  ∃ nm d rest, isSegment nm ∧ d ∈ PACKAGE_SOURCE_DIRS ∧
               p = "packages/" +:+ nm +:+ "/" +:+ d +:+ "/" +:+ rest.
Proof.
  unfold BUILT_IN_PACKAGE_PATTERNS, PACKAGE_SOURCE_DIRS. cbn [existsb].
  rewrite !orb_true_iff, !underPackage_test. split.
  - intros [H|[H|[H|[H|[H|[=]]]]]];
      destruct H as (nm & rest & Hnm & -> & _); exists nm;
      [exists "src"|exists "test"|exists "examples"|exists "generated"
      |exists "scripts"];
      exists rest; (split; [done|]); (split; [|reflexivity]);
      repeat (first [by left | right]).
  - intros (nm & d & rest & Hnm & Hd & ->).
    repeat (apply elem_of_cons in Hd as [->|Hd]); [..|by apply elem_of_nil in Hd].
    + left. by exists nm, rest.
    + right. left. by exists nm, rest.
    + do 2 right. left. by exists nm, rest.
    + do 3 right. left. by exists nm, rest.
    + do 4 right. left. by exists nm, rest.
Qed.

Lemma sourceFile_accepted config e errors :
  JS.endsWith (name e) ".ts" = true →
  validateSourceFileLocations_onFile config e errors =
  pushIf
    (negb (bool_decide
             (JS.replaceAll (relPath e) "\" "/" ∈
                BUILT_IN_ROOT_TS_FILES ∪
                (list_to_set (default [] (allowedRootTsFiles config)) : gset string))
           || test PACKAGE_CONFIG_PATTERN (JS.replaceAll (relPath e) "\" "/")
           || existsb (λ pat, test pat (JS.replaceAll (relPath e) "\" "/"))
                (BUILT_IN_PACKAGE_PATTERNS ++
                 default [] (allowedPackageTsPaths config))))
    {| type := STRUCTURAL_VIOLATION;
       path := relPath e;
       message := "TypeScript file in wrong location. Source files must be in packages/*/src/, packages/*/test/, or other configured locations.";
       severity := error |}
    errors.
Proof.
  intros Hts. unfold validateSourceFileLocations_onFile. rewrite Hts.
  cbn [negb]. destruct (bool_decide _); [done|].
  destruct (test PACKAGE_CONFIG_PATTERN _); [done|]. done.
Qed.

Lemma allowedTsLocation_tests config p :
  allowedTsLocation config p ↔
  bool_decide (p ∈ BUILT_IN_ROOT_TS_FILES ∪
                   (list_to_set (default [] (allowedRootTsFiles config)) : gset string))
  || test PACKAGE_CONFIG_PATTERN p
  || existsb (λ pat, test pat p)
       (BUILT_IN_PACKAGE_PATTERNS ++ default [] (allowedPackageTsPaths config))
  = true.
Proof.
  unfold allowedTsLocation.
  rewrite !orb_true_iff, bool_decide_eq_true, elem_of_union, elem_of_list_to_set,
    package_config_pattern, existsb_app, orb_true_iff, built_in_package_patterns,
    existsb_elem.
  tauto.
Qed.

(** X12: the source-location rule looks at files whose name ends in [.ts]
    only. Such a file is accepted exactly at the allowed locations: a
    built-in or configured root file name equal to the whole normalised
    path, one of the four configuration files directly in a package, any
    depth below [src], [test], [examples], [generated] or [scripts] of a
    package, or a path matched by a configured pattern; anywhere else it
    gets exactly one structural-violation error. The configured patterns
    are patterns without the [g] and [y] flags. *)
Theorem source_file_locations config e errors :
  let p := JS.replaceAll (relPath e) "\" "/" in
  (JS.endsWith (name e) ".ts" = false →
   validateSourceFileLocations_onFile config e errors = Done errors) ∧
  (JS.endsWith (name e) ".ts" = true →
   (validateSourceFileLocations_onFile config e errors = Done errors ↔
    allowedTsLocation config p) ∧
   (¬ allowedTsLocation config p →
    ∃ v, validateSourceFileLocations_onFile config e errors = Done (errors ++ [v]) ∧
         type v = STRUCTURAL_VIOLATION ∧ severity v = error ∧
         path v = relPath e)).
Proof.
  intros p. split.
  - intros Hts. unfold validateSourceFileLocations_onFile. by rewrite Hts.
  - intros Hts. rewrite sourceFile_accepted by done. fold p.
    rewrite (allowedTsLocation_tests config p). unfold pushIf, push.
    destruct (_ || _ || _); simpl; split; try done.
    + split; [|done]. intros [= H].
      apply (f_equal length) in H. rewrite length_app in H. simpl in H. lia.
    + intros _. by eexists.
Qed.

(** X13: allowing more never reports more. When a configuration allows
    at least the root files and the patterns of another, every file the
    source-location rule accepts under the smaller one it accepts under
    the larger one. The configured patterns are patterns without the [g]
    and [y] flags. *)
Theorem allowing_more_reports_less config config' e errors :
  extendsConfig config config' →
  validateSourceFileLocations_onFile config e errors = Done errors →
  validateSourceFileLocations_onFile config' e errors = Done errors.
Proof.
  intros [Hroot Hpat] Hok.
  destruct (JS.endsWith (name e) ".ts") eqn:Hts.
  - rewrite sourceFile_accepted in Hok |- * by done.
    assert (allowedTsLocation config (JS.replaceAll (relPath e) "\" "/")) as Ha.
    { apply allowedTsLocation_tests. unfold pushIf, push in Hok.
      destruct (_ || _ || _); [done|]. simpl in Hok. injection Hok as H.
      apply (f_equal length) in H. rewrite length_app in H. simpl in H. lia. }
    assert (allowedTsLocation config' (JS.replaceAll (relPath e) "\" "/")) as Ha'.
    { destruct Ha as [?|[?|[?|[?|(pat & ? & ?)]]]].
      - by left.
      - right. left. by apply Hroot.
      - do 2 right. by left.
      - do 3 right. by left.
      - do 4 right. exists pat. split; [by apply Hpat | done]. }
    apply allowedTsLocation_tests in Ha'. by rewrite Ha'.
  - unfold validateSourceFileLocations_onFile. by rewrite Hts.
Qed.

(** ** The report *)

Lemma filter_none {A} (P : A → Prop) `{!∀ x, Decision (P x)} (l : list A) :
  (∀ x, x ∈ l → ¬ P x) → filter P l = [].
Proof.
  induction l as [|a l IH]; intros Hno; [done|].
  rewrite filter_cons, decide_False by (apply Hno; by left).
  apply IH. intros x Hx. apply Hno. by right.
Qed.

Lemma firstSeen_elem ts t : t ∈ firstSeen ts ↔ t ∈ ts.
Proof.
  induction ts as [|a ts IH]; [done|]. cbn [firstSeen].
  rewrite !elem_of_cons, list_elem_of_filter, IH.
  destruct (decide (t = a)) as [->|Hne]; [by split; left|].
  split; [intros [?|[_ ?]]; auto | intros [?|?]; auto].
Qed.

Lemma firstSeen_NoDup ts : NoDup (firstSeen ts).
Proof.
  induction ts as [|a ts IH]; [constructor|]. cbn [firstSeen].
  constructor; [|by apply NoDup_filter].
  rewrite list_elem_of_filter. by intros [? _].
Qed.

Lemma firstSeen_snoc ts t :
  firstSeen (ts ++ [t]) =
  if bool_decide (t ∈ ts) then firstSeen ts else firstSeen ts ++ [t].
Proof.
  induction ts as [|a ts IH]; [done|]. cbn [app firstSeen]. rewrite IH.
  destruct (decide (t = a)) as [->|Hne].
  - rewrite (bool_decide_true (a ∈ a :: ts)) by (by left).
    case_bool_decide; [done|].
    rewrite filter_app, filter_cons, decide_False by (by intros ?).
    by rewrite app_nil_r.
  - case_bool_decide as Hin.
    + by rewrite bool_decide_true by (by right).
    + rewrite bool_decide_false by (by intros [?|?]%elem_of_cons).
      by rewrite filter_app, filter_cons, decide_True by done.
Qed.

Lemma groupPush_absent errors ks e :
  type e ∉ ks →
  (∀ t, t ∈ ks → filter (λ x, type x = t) (errors ++ [e]) =
                 filter (λ x, type x = t) errors) →
  groupPush (ofType errors <$> ks) e = (ofType errors <$> ks) ++ [(type e, [e])].
Proof.
  intros Hk _. induction ks as [|k ks IH]; [done|].
  apply not_elem_of_cons in Hk as [Hne Hk]. cbn [fmap list_fmap groupPush ofType].
  rewrite bool_decide_false by done. cbn [app]. f_equal. by apply IH.
Qed.

Lemma ofType_snoc_other errors e t :
  t ≠ type e → ofType (errors ++ [e]) t = ofType errors t.
Proof.
  intros Hne. unfold ofType. rewrite filter_app, filter_cons.
  rewrite decide_False by done. by rewrite app_nil_r.
Qed.

Lemma groupPush_present errors ks e :
  NoDup ks → type e ∈ ks →
  groupPush (ofType errors <$> ks) e = ofType (errors ++ [e]) <$> ks.
Proof.
  induction ks as [|k ks IH]; [by intros _ ?%elem_of_nil|].
  rewrite NoDup_cons. intros [Hk Hnd] Hin.
  cbn [fmap list_fmap groupPush]. unfold ofType at 1. case_bool_decide as Heq.
  - subst k. f_equal.
    + unfold ofType. rewrite filter_app, filter_cons, decide_True by done. done.
    + apply list_fmap_ext. intros i t Ht. symmetry. apply ofType_snoc_other.
      intros ->. apply Hk. by eapply list_elem_of_lookup_2.
  - f_equal; [symmetry; by apply ofType_snoc_other|].
    apply elem_of_cons in Hin as [?|Hin]; [congruence|]. by apply IH.
Qed.

(** The groups of the report, in closed form. *)
Lemma byType_closed errors :
  byType errors = ofType errors <$> firstSeen (type <$> errors).
Proof.
  unfold byType. induction errors as [|e errors IH] using rev_ind; [done|].
  rewrite foldl_app. cbn [foldl]. rewrite IH, fmap_app. cbn [fmap list_fmap].
  rewrite firstSeen_snoc. case_bool_decide as Hin.
  - apply groupPush_present; [apply firstSeen_NoDup | by apply firstSeen_elem].
  - rewrite fmap_app. cbn [fmap list_fmap].
    rewrite groupPush_absent.
    + f_equal.
      * apply list_fmap_ext. intros i t Ht. symmetry. apply ofType_snoc_other.
        intros ->. apply Hin, firstSeen_elem. by eapply list_elem_of_lookup_2.
      * unfold ofType. rewrite filter_app, filter_cons, decide_True by done.
        f_equal. f_equal.
        rewrite filter_none; [done|]. intros x Hx Heq. apply Hin.
        apply list_elem_of_fmap. by exists x.
    + by rewrite firstSeen_elem.
    + intros t Ht. rewrite filter_app, filter_cons, decide_False; [by rewrite app_nil_r|].
      intros Heq. apply Hin. rewrite Heq. by apply firstSeen_elem.
Qed.

Lemma concat_groups_permutation errors ks :
  NoDup ks → (∀ e, e ∈ errors → type e ∈ ks) →
  concat ((ofType errors <$> ks).*2) ≡ₚ errors.
Proof.
  revert errors. induction ks as [|k ks IH]; intros errors Hnd Hall.
  - destruct errors as [|e errors]; [done|].
    exfalso. apply (elem_of_nil (type e)), Hall. by left.
  - apply NoDup_cons in Hnd as [Hk Hnd]. cbn [fmap list_fmap concat ofType snd].
    rewrite <- (filter_app_complement (λ e, type e = k) errors) at 3.
    apply Permutation_app_head.
    assert ((ofType errors <$> ks).*2 =
            (ofType (filter (λ e, type e ≠ k) errors) <$> ks).*2) as ->.
    { rewrite <- !list_fmap_compose.
      apply list_fmap_ext. intros i t Ht. cbn [compose ofType snd].
      symmetry. apply list_filter_filter_l. intros x -> ->.
      apply Hk. by eapply list_elem_of_lookup_2. }
    apply IH; [done|].
    intros e [Hne Hin]%list_elem_of_filter.
    specialize (Hall e Hin). by apply elem_of_cons in Hall as [?|?].
Qed.

(** X14: the report groups the violations by type. The groups come in the
    order in which their types first occur in the list, each group holds
    the violations of its type in the order of the list, and so every
    violation is in exactly one group: the groups together are the list,
    rearranged. *)
Theorem report_groups_by_first_occurrence errors :
  byType errors = ofType errors <$> firstSeen (type <$> errors) ∧
  NoDup (byType errors).*1 ∧
  concat (byType errors).*2 ≡ₚ errors.
Proof.
  rewrite byType_closed. split_and!; [done| |].
  - assert (∀ ks, (ofType errors <$> ks).*1 = ks) as ->.
    { induction ks as [|k ks IH]; [done|]. cbn [fmap list_fmap ofType fst].
      f_equal. apply IH. }
    apply firstSeen_NoDup.
  - apply concat_groups_permutation; [apply firstSeen_NoDup|].
    intros e He. apply firstSeen_elem, list_elem_of_fmap. by exists e.
Qed.

Lemma report_groups_by_first_occurrence_aux errors :
  concat (byType errors).*2 ≡ₚ errors ∧
  length (byType errors) = length (firstSeen (type <$> errors)).
Proof.
  rewrite byType_closed. split.
  - apply concat_groups_permutation; [apply firstSeen_NoDup|].
    intros e He. apply firstSeen_elem, list_elem_of_fmap. by exists e.
  - by rewrite length_fmap.
Qed.

Lemma counts_add_up errors :
  (errorCount errors + warningCount errors = length errors)%nat.
Proof.
  unfold errorCount, warningCount.
  rewrite <- (filter_app_complement (λ e, severity e = error) errors) at 3.
  rewrite length_app. f_equal. f_equal. apply list_filter_iff.
  intros e. destruct (severity e); split; congruence.
Qed.

Lemma length_violationLines icons g :
  length (flat_map (violationLines icons) g) = (2 * length g)%nat.
Proof. induction g as [|e g IH]; [done|]. simpl. lia. Qed.

Lemma length_groupLines icons groups :
  length (flat_map (groupLines icons) groups) =
  (length groups + 2 * length (concat groups.*2))%nat.
Proof.
  induction groups as [|[t g] groups IH]; [done|].
  cbn [flat_map fmap list_fmap concat snd]. rewrite !length_app, IH.
  unfold groupLines. cbn [length fst snd]. rewrite length_violationLines. lia.
Qed.

Lemma heading_spec t :
  JS.replaceAll (toUpperCase (ERROR_TYPES t)) "-" " " = heading t.
Proof. by destruct t. Qed.

Lemma groupLines_closed icons errors ks :
  flat_map (groupLines icons) (ofType errors <$> ks) =
  flat_map (λ t, (nl +:+ heading t +:+ ":")
                 :: flat_map (violationLines icons)
                      (filter (λ e, type e = t) errors)) ks.
Proof.
  induction ks as [|k ks IH]; [done|].
  rewrite fmap_cons. cbn [flat_map]. rewrite IH.
  unfold groupLines at 1, ofType at 1. cbn [fst snd]. by rewrite heading_spec.
Qed.

(** X15: the report, line by line. An empty list gives the single line of
    a passed run. A non-empty list gives the line of a failed run, the
    line that counts the records of severity error and those of severity
    warning, and then, for each type that occurs, in the order of first
    occurrence, a heading with the type in capitals and, for each record
    of that type in the order of the list, a line with the icon of its
    severity and its path and a line with its message. The two counts add
    up to the number of records, and the report has two lines, one line
    per type that occurs and two lines per record. *)
Theorem report_shows_every_violation icons errors :
  (errorCount errors + warningCount errors = length errors)%nat ∧
  (errors = [] →
   printResults icons errors =
   [passed icons +:+ " Repository structure validation passed!"]) ∧
  (errors ≠ [] →
   printResults icons errors =
   [ nl +:+ failed icons +:+ " Repository structure validation failed:";
     "   " +:+ pretty (length (filter (λ e, severity e = error) errors)) +:+
       " errors, " +:+
       pretty (length (filter (λ e, severity e = warning) errors)) +:+
       " warnings" +:+ nl ] ++
   flat_map
     (λ t, (nl +:+ heading t +:+ ":")
           :: flat_map
                (λ e, [ "  " +:+
                        (if bool_decide (severity e = error) then failed icons
                         else warned icons) +:+ " " +:+ path e;
                        "     " +:+ message e +:+ nl ])
                (filter (λ e, type e = t) errors))
     (firstSeen (type <$> errors)) ∧
   length (printResults icons errors) =
   (2 + length (firstSeen (type <$> errors)) + 2 * length errors)%nat).
Proof.
  split_and!; [apply counts_add_up | by intros -> |].
  intros Hne. unfold printResults.
  rewrite bool_decide_false by (by intros ?%nil_length_inv). split.
  - by rewrite byType_closed, groupLines_closed.
  - rewrite length_app, length_groupLines.
    destruct (report_groups_by_first_occurrence_aux errors) as [Hperm Hlen].
    rewrite Hperm, Hlen. simpl. lia.
Qed.

(** X16: a run whose rules complete with warnings only ends with status
    0, although its report opens with the line of a failed run; the line
    of counts then says 0 errors. *)
Theorem warnings_only_run_reports_failure platform fs icons configModule errors :
  runRules platform fs (configOf configModule) [] = Done errors →
  errors ≠ [] →
  Forall (λ v, severity v = warning) errors →
  main platform fs configModule = 0 ∧
  validateLog platform fs icons (configOf configModule) [] =
  (searching icons +:+ " Validating repository structure..." +:+ nl)
  :: (nl +:+ failed icons +:+ " Repository structure validation failed:")
  :: ("   0 errors, " +:+ pretty (length errors) +:+ " warnings" +:+ nl)
  :: flat_map (groupLines icons) (byType errors).
Proof.
  intros Hrun Hne Hall.
  assert (errorCount errors = 0%nat) as Hzero.
  { unfold errorCount. rewrite filter_none; [done|].
    intros v Hv. rewrite Forall_forall in Hall. rewrite (Hall v Hv). done. }
  split.
  - unfold main, validate. fold (configOf configModule). rewrite Hrun.
    assert (hasErrors errors = false) as ->; [|done].
    unfold hasErrors. apply not_true_is_false.
    intros (v & Hv & He%bool_decide_eq_true)%existsb_elem.
    rewrite Forall_forall in Hall. rewrite (Hall v Hv) in He. done.
  - unfold validateLog. rewrite Hrun. unfold printResults.
    rewrite bool_decide_false by (by intros ?%nil_length_inv).
    pose proof (counts_add_up errors) as Hc. rewrite Hzero in Hc.
    simpl in Hc. by rewrite Hzero, Hc.
Qed.

(** X17: when [packages] cannot be listed, a run writes its opening line
    and no report: what the rules that walk the whole tree had found
    before the exception is not shown. *)
Theorem no_report_without_packages platform fs icons config errors :
  readdir fs ["packages"] = None →
  validateLog platform fs icons config errors =
  [searching icons +:+ " Validating repository structure..." +:+ nl] ∧
  ∃ errors', runRules platform fs config errors = Raised errors'.
Proof.
  intros Hr. destruct (runRules_unlistable platform fs config errors Hr) as [e He].
  split; [|by exists e]. unfold validateLog. by rewrite He.
Qed.

(** ** Relative paths *)

Section PathFacts.
Context (platform : Path.Platform).

Local Abbreviation sepS := (String (Path.sep platform) EmptyString).

Lemma rev_app_rev_app s : ∀ t u,
  String.rev_app (String.rev_app s t) u = String.rev_app t (s +:+ u).
Proof. induction s as [|a s IH]; intros t u; [done|]. simpl. by rewrite IH. Qed.

Lemma rev_rev_app s : String.rev (String.rev_app s "") = s.
Proof.
  unfold String.rev. rewrite rev_app_rev_app. simpl.
  apply string_app_empty_r.
Qed.

Lemma isPathSeparator_sep : Path.isPathSeparator platform (Path.sep platform) = true.
Proof. by destruct platform. Qed.

Lemma isPathSeparator_slash : Path.isPathSeparator platform "/" = true.
Proof. by destruct platform. Qed.

Lemma isPathSeparator_proper nm c :
  properName platform nm → c ∈ JS.chars nm →
  Path.isPathSeparator platform c = false.
Proof. intros (_ & _ & _ & Hs) Hc. by apply Hs. Qed.

(** Cutting a path at a separator. *)
Lemma split_from_sep c a b : ∀ cur,
  Path.isPathSeparator platform c = true →
  Path.split_from platform (a +:+ String c b) cur =
  Path.split_from platform a cur ++ Path.split platform b.
Proof.
  induction a as [|x a IH]; intros cur Hc.
  - rewrite app_empty. simpl. by rewrite Hc.
  - rewrite app_cons. cbn [Path.split_from].
    destruct (Path.isPathSeparator platform x); [|by apply IH].
    cbn [app]. f_equal. by apply IH.
Qed.

Lemma split_from_segment seg : ∀ cur,
  (∀ c, c ∈ JS.chars seg → Path.isPathSeparator platform c = false) →
  Path.split_from platform seg cur = [String.rev (String.rev_app seg cur)].
Proof.
  induction seg as [|x seg IH]; intros cur Hseg; [done|].
  cbn [Path.split_from]. rewrite Hseg by (rewrite chars_cons; by left).
  apply IH. intros c Hc. apply Hseg. rewrite chars_cons. by right.
Qed.

Lemma split_proper nm : properName platform nm → Path.split platform nm = [nm].
Proof.
  intros Hnm. unfold Path.split. rewrite split_from_segment.
  - by rewrite rev_rev_app.
  - intros c. by apply isPathSeparator_proper.
Qed.

Lemma split_dot : Path.split platform "." = ["."].
Proof. by destruct platform. Qed.

Lemma concat_cons_cons sep x y l :
  String.concat sep (x :: y :: l) = x +:+ sep +:+ String.concat sep (y :: l).
Proof. done. Qed.

(** Segments joined by a separator are cut back into the segments. *)
Lemma split_concat c q :
  Path.isPathSeparator platform c = true →
  q ≠ [] → Forall (properName platform) q →
  Path.split platform (String.concat (String c EmptyString) q) = q.
Proof.
  intros Hc Hq Hall. induction Hall as [|x q Hx Hall IH]; [done|].
  destruct q as [|y q]; [by apply split_proper|].
  rewrite concat_cons_cons. unfold Path.split at 1.
  rewrite app_cons, app_empty, split_from_sep by done.
  fold (Path.split platform x). rewrite split_proper by done.
  cbn [app]. f_equal. by apply IH.
Qed.

Lemma normalizeSegments_proper q : ∀ acc,
  Forall (properName platform) q →
  Path.normalizeSegments q acc = reverse acc ++ q.
Proof.
  induction q as [|x q IH]; intros acc Hall.
  - by rewrite app_nil_r.
  - apply Forall_cons in Hall as [(Hne & Hd & Hdd & _) Hall].
    cbn [Path.normalizeSegments].
    rewrite bool_decide_false by (by intros [?|?]).
    rewrite bool_decide_false by done.
    rewrite IH by done. by rewrite reverse_cons, <- app_assoc.
Qed.

Lemma concat_nonempty sep x q : x ≠ "" → String.concat sep (x :: q) ≠ "".
Proof.
  intros Hx. destruct q as [|y q]; [done|]. rewrite concat_cons_cons.
  destruct x; [done|]. by rewrite app_cons.
Qed.

Lemma concat_snoc sep q nm :
  q ≠ [] → String.concat sep (q ++ [nm]) = String.concat sep q +:+ sep +:+ nm.
Proof.
  induction q as [|x q IH]; [done|]. intros _.
  destruct q as [|y q]; [done|].
  cbn [app]. rewrite !concat_cons_cons.
  change (y :: q ++ [nm]) with ((y :: q) ++ [nm]). rewrite IH by done.
  by rewrite !string_app_assoc.
Qed.

(** Normalising a path that any separator of the platform joins gives it
    with the separator of the platform. *)
Lemma normalize_concat c q :
  Path.isPathSeparator platform c = true →
  q ≠ [] → Forall (properName platform) q →
  Path.normalize platform (String.concat (String c EmptyString) q) =
  String.concat sepS q.
Proof.
  intros Hc Hq Hall. unfold Path.normalize.
  rewrite split_concat, normalizeSegments_proper by done.
  rewrite reverse_nil. cbn [app].
  destruct q as [|x q]; [done|].
  apply Forall_cons in Hall as [(Hne & _) _].
  by rewrite bool_decide_false by (by apply concat_nonempty).
Qed.

Lemma join_dot nm : properName platform nm → Path.join platform "." nm = nm.
Proof.
  intros Hnm. pose proof Hnm as (Hne & Hd & Hdd & _).
  unfold Path.join. rewrite bool_decide_false by done.
  rewrite bool_decide_false by done.
  unfold Path.normalize, Path.split.
  rewrite split_from_sep by apply isPathSeparator_sep.
  fold (Path.split platform "."). rewrite split_dot, split_proper by done.
  cbn [app].
  change (Path.normalizeSegments ["."; nm] [])
    with (Path.normalizeSegments [nm] []).
  rewrite normalizeSegments_proper by (by apply Forall_singleton).
  rewrite reverse_nil. cbn [app String.concat].
  by rewrite bool_decide_false.
Qed.

Lemma join_concat c q nm :
  Path.isPathSeparator platform c = true →
  q ≠ [] → Forall (properName platform) q → properName platform nm →
  Path.join platform (String.concat (String c EmptyString) q) nm =
  String.concat sepS (q ++ [nm]).
Proof.
  intros Hc Hq Hall Hnm. pose proof Hnm as (Hne & _).
  unfold Path.join.
  rewrite bool_decide_false.
  2:{ destruct q as [|x q]; [done|]. apply concat_nonempty.
      by apply Forall_cons in Hall as [(? & _) _]. }
  rewrite bool_decide_false by done.
  unfold Path.normalize, Path.split.
  rewrite split_from_sep by apply isPathSeparator_sep.
  fold (Path.split platform (String.concat (String c "") q)).
  rewrite split_concat, split_proper by done.
  rewrite normalizeSegments_proper
    by (apply Forall_app; split; [done | by apply Forall_singleton]).
  rewrite reverse_nil. cbn [app].
  rewrite bool_decide_false; [done|].
  destruct q as [|x q]; [done|]. apply concat_nonempty.
  by apply Forall_cons in Hall as [(? & _) _].
Qed.

Lemma foldl_join_concat q : ∀ c q',
  Path.isPathSeparator platform c = true →
  q ≠ [] → q' ≠ [] →
  Forall (properName platform) q' → Forall (properName platform) q →
  foldl (Path.join platform) (String.concat (String c EmptyString) q') q =
  String.concat sepS (q' ++ q).
Proof.
  induction q as [|x q IH]; intros c q' Hc Hq Hq' Hall' Hall; [done|].
  apply Forall_cons in Hall as [Hx Hall]. cbn [foldl].
  rewrite join_concat by done.
  destruct q as [|y q]; [done|].
  rewrite (IH (Path.sep platform) (q' ++ [x])); try done.
  - by rewrite <- app_assoc.
  - apply isPathSeparator_sep.
  - by destruct q'.
  - apply Forall_app. split; [done | by apply Forall_singleton].
Qed.

(** The relative path of an entry found at [q] in a walk from ["."]. *)
Lemma foldl_join_dot q :
  q ≠ [] → Forall (properName platform) q →
  foldl (Path.join platform) "." q = String.concat sepS q.
Proof.
  destruct q as [|x q]; [done|]. intros _ [Hx Hall]%Forall_cons.
  cbn [foldl]. rewrite join_dot by done.
  destruct q as [|y q]; [done|].
  change x with (String.concat sepS [x]) at 1.
  rewrite foldl_join_concat; try done.
  - apply isPathSeparator_sep.
  - by apply Forall_singleton.
Qed.

Lemma replaceAll_app s t a b :
  JS.replaceAll (s +:+ t) a b = JS.replaceAll s a b +:+ JS.replaceAll t a b.
Proof. induction s as [|c s IH]; [done|]. rewrite app_cons. simpl. by rewrite IH. Qed.

Lemma replaceAll_absent s a b : a ∉ JS.chars s → JS.replaceAll s a b = s.
Proof.
  induction s as [|c s IH]; [done|]. rewrite chars_cons, not_elem_of_cons.
  intros [Hne Hs]. simpl. rewrite IH by done.
  destruct (Ascii.eqb_spec c a); [congruence | done].
Qed.

Lemma normalised_sep : normalised sepS = "/".
Proof. by destruct platform. Qed.

(** Normalising the separators of a relative path: the separators become
    slashes, and so do the backslashes inside names. *)
Lemma normalised_concat q :
  normalised (String.concat sepS q) = String.concat "/" (normalised <$> q).
Proof.
  induction q as [|x q IH]; [done|].
  destruct q as [|y q]; [done|].
  rewrite concat_cons_cons. unfold normalised at 1.
  rewrite !replaceAll_app. fold (normalised x) (normalised sepS)
    (normalised (String.concat sepS (y :: q))).
  by rewrite IH, normalised_sep.
Qed.

Lemma normalised_plain q : Forall plainName q → normalised <$> q = q.
Proof.
  induction 1 as [|x q Hx Hall IH]; [done|].
  rewrite fmap_cons, IH. f_equal. by apply replaceAll_absent.
Qed.

(** X18: in a walk of the repository from ["."], as the four whole-tree
    rules make it, the relative path handed to a callback, which is the
    path of the violations, is the names from the root to the entry
    joined by the separator of the platform. Normalised, it is those
    names, each with its backslashes replaced by slashes, joined by
    slashes; when no name holds a backslash, as on Windows, it is the
    names joined by slashes. This holds on both platforms, for names as
    the directories of the platform list them. *)
Theorem relPath_is_the_position skip fs v :
  v ∈ visits platform skip fs REPO_ROOT "." →
  Forall (properName platform) (fullPath (visited v)) →
  relPath (visited v) = String.concat sepS (fullPath (visited v)) ∧
  normalised (relPath (visited v)) =
    String.concat "/" (normalised <$> fullPath (visited v)) ∧
  (Forall plainName (fullPath (visited v)) →
   normalised (relPath (visited v)) = String.concat "/" (fullPath (visited v))).
Proof.
  rewrite visits_trace.
  destruct (lookup fs REPO_ROOT) as [n|]; [|by intros ?%elem_of_nil].
  intros (q & m & (_ & Hq & _) & ->)%trace_reached Hall.
  assert (visited (visitOf platform REPO_ROOT "." q m) =
          entryAt platform REPO_ROOT "." q) as Hv.
  { unfold visitOf. by destruct (isFile m). }
  rewrite Hv in *. unfold REPO_ROOT in *.
  cbn [entryAt fullPath relPath app] in *.
  rewrite foldl_join_dot by done. split_and!; [done|apply normalised_concat|].
  intros Hplain. by rewrite normalised_concat, normalised_plain.
Qed.

End PathFacts.

(** ** The nested-manifest rule in terms of positions *)

Lemma split_slashless nm :
  "/"%char ∉ JS.chars nm → Path.split Path.posix nm = [nm].
Proof.
  intros Hs. unfold Path.split. rewrite split_from_segment.
  - by rewrite rev_rev_app.
  - intros c Hc. simpl. destruct (Ascii.eqb_spec c "/"); [by subst|done].
Qed.

Lemma split_slash a b :
  Path.split Path.posix (a +:+ String "/" b) =
  Path.split Path.posix a ++ Path.split Path.posix b.
Proof. unfold Path.split at 1. by rewrite split_from_sep. Qed.

Lemma rev_app_append s : ∀ t, String.rev_app s t = String.rev s +:+ t.
Proof.
  unfold String.rev. induction s as [|a s IH]; intros t; [done|].
  cbn [String.rev_app]. rewrite IH, (IH (String a "")).
  by rewrite string_app_assoc.
Qed.

Lemma split_from_nonempty platform s : ∀ cur, Path.split_from platform s cur ≠ [].
Proof.
  induction s as [|c s IH]; intros cur; [done|]. cbn [Path.split_from].
  destruct (Path.isPathSeparator platform c); [done | apply IH].
Qed.

(** Joining the parts of a path by slashes gives the path back. *)
Lemma concat_split_from s : ∀ cur,
  String.concat "/" (Path.split_from Path.posix s cur) = String.rev cur +:+ s.
Proof.
  induction s as [|c s IH]; intros cur.
  - by rewrite string_app_empty_r.
  - cbn [Path.split_from Path.isPathSeparator].
    destruct (Ascii.eqb_spec c "/") as [->|Hne].
    + pose proof (split_from_nonempty Path.posix s "") as Hne.
      destruct (Path.split_from Path.posix s "") as [|y l] eqn:Hs; [done|].
      rewrite concat_cons_cons, <- Hs, IH. done.
    + rewrite IH. unfold String.rev. cbn [String.rev_app].
      rewrite (rev_app_append cur (String c "")).
      by rewrite string_app_assoc.
Qed.

Lemma concat_split p : String.concat "/" (Path.split Path.posix p) = p.
Proof. unfold Path.split. by rewrite concat_split_from. Qed.

Lemma chars_rev_app s : ∀ t c,
  c ∈ JS.chars (String.rev_app s t) ↔ c ∈ JS.chars s ∨ c ∈ JS.chars t.
Proof.
  induction s as [|a s IH]; intros t c.
  - simpl. split; [by right | by intros [?%elem_of_nil|?]].
  - cbn [String.rev_app]. rewrite IH, !chars_cons, !elem_of_cons. tauto.
Qed.

(** The parts of a path hold no slash. *)
Lemma split_from_slashless s : ∀ cur,
  "/"%char ∉ JS.chars cur →
  Forall (λ x, "/"%char ∉ JS.chars x) (Path.split_from Path.posix s cur).
Proof.
  induction s as [|c s IH]; intros cur Hcur.
  - apply Forall_singleton. unfold String.rev. rewrite chars_rev_app.
    by intros [?|?%elem_of_nil].
  - cbn [Path.split_from Path.isPathSeparator].
    destruct (Ascii.eqb_spec c "/") as [->|Hne].
    + constructor; [|apply IH; by intros ?%elem_of_nil].
      unfold String.rev. rewrite chars_rev_app. by intros [?|?%elem_of_nil].
    + apply IH. rewrite chars_cons, not_elem_of_cons. split; [congruence | done].
Qed.

Lemma split_slashfree p :
  Forall (λ x, "/"%char ∉ JS.chars x) (Path.split Path.posix p).
Proof. apply split_from_slashless. by intros ?%elem_of_nil. Qed.

(** The parts of slash-joined paths. *)
Lemma split_concat_parts l :
  l ≠ [] →
  Path.split Path.posix (String.concat "/" l) = flat_map (Path.split Path.posix) l.
Proof.
  induction l as [|x l IH]; [done|]. intros _.
  destruct l as [|y l]; [cbn [flat_map String.concat]; by rewrite app_nil_r|].
  rewrite concat_cons_cons.
  change (x +:+ "/" +:+ String.concat "/" (y :: l))
    with (x +:+ String "/" (String.concat "/" (y :: l))).
  rewrite split_slash, IH by done. done.
Qed.

(** A normalised path is at an accepted location exactly when its parts
    are an accepted position. *)
Lemma manifest_position_split p :
  validManifestLocation p ↔ manifestPosition (Path.split Path.posix p).
Proof.
  split.
  - intros [->|[(nm & [Hne Hnm] & ->)|(nm & rest & [Hne Hnm] & ->)]].
    + by left.
    + right. left. exists nm. split; [done|].
      change ("packages/" +:+ nm +:+ "/package.json")
        with ("packages" +:+ String "/" (nm +:+ String "/" "package.json")).
      by rewrite !split_slash, (split_slashless nm).
    + right. right. exists nm, (Path.split Path.posix rest).
      split_and!; [done|apply split_from_nonempty|].
      change ("packages/" +:+ nm +:+ "/test/fixtures/" +:+ rest)
        with ("packages" +:+ String "/" (nm +:+ String "/"
                ("test" +:+ String "/" ("fixtures" +:+ String "/" rest)))).
      by rewrite !split_slash, (split_slashless nm).
  - pose proof (concat_split p) as Hp. pose proof (split_slashfree p) as Hfree.
    intros [Heq|[(x & Hx & Heq)|(x & rest & Hx & Hrest & Heq)]];
      rewrite Heq in Hp, Hfree.
    + left. by rewrite <- Hp.
    + right. left. exists x. split; [|by rewrite <- Hp].
      split; [done|]. by apply Forall_cons in Hfree as [_ [? _]%Forall_cons].
    + right. right. destruct rest as [|y rest]; [done|].
      exists x, (String.concat "/" (y :: rest)). split; [|by rewrite <- Hp].
      split; [done|]. by apply Forall_cons in Hfree as [_ [? _]%Forall_cons].
Qed.

Lemma normalisedParts_plain q : Forall plainName q →
  Forall (λ x, "/"%char ∉ JS.chars x) q → normalisedParts q = q.
Proof.
  unfold normalisedParts. induction 1 as [|x q Hx Hall IH]; [done|].
  intros [Hs Hq]%Forall_cons. cbn [flat_map]. rewrite IH by done.
  unfold normalised. rewrite replaceAll_absent by done.
  by rewrite split_slashless.
Qed.

Lemma normalisedParts_fmap q :
  flat_map (Path.split Path.posix) (normalised <$> q) = normalisedParts q.
Proof.
  unfold normalisedParts. induction q as [|x q IH]; [done|].
  rewrite fmap_cons. cbn [flat_map]. by rewrite IH.
Qed.

Lemma nested_onFile_cases e errors :
  name e = "package.json" →
  validateNoNestedPackageJson_onFile e errors =
  if bool_decide (normalised (relPath e) = "package.json")
     || test IN_PACKAGES_DIR (normalised (relPath e))
     || test IN_TEST_FIXTURES (normalised (relPath e))
  then Done errors else Done (errors ++ [nestedPackageJson e]).
Proof.
  intros Hname. unfold validateNoNestedPackageJson_onFile.
  rewrite bool_decide_true by done. cbn zeta.
  rewrite <- !negb_orb. unfold pushIf, push, normalised. by destruct (_ || _ || _).
Qed.

(** X19: the nested-manifest rule in terms of where the file is. The rule
    reads a backslash as a separator, also on POSIX where a name may hold
    one: the components it sees are the names from the root to the file,
    each cut at its backslashes. For a regular file named [package.json]
    that the walk of the rule reaches, through names as the directories
    of the platform list them, nothing is reported exactly when
    these components put it at the root, directly in a directory of
    [packages], or at any depth below the test/fixtures directory of one;
    everywhere else the violation of the file is reported. When no name
    holds a backslash, as on Windows, the components are the names
    themselves, so that the position is the position in the tree. *)
Theorem nested_manifest_positions platform fs e errors :
  VisitFile e ∈
    visits platform (Some (COMMON_SKIP_DIRS ∪ {[ WORKTREES_DIR ]})) fs REPO_ROOT "." →
  name e = "package.json" →
  Forall (properName platform) (fullPath e) →
  (validateNoNestedPackageJson_onFile e errors = Done errors ↔
   manifestPosition (normalisedParts (fullPath e))) ∧
  (¬ manifestPosition (normalisedParts (fullPath e)) →
   validateNoNestedPackageJson_onFile e errors =
   Done (errors ++ [nestedPackageJson e])) ∧
  (Forall plainName (fullPath e) → normalisedParts (fullPath e) = fullPath e).
Proof.
  rewrite visits_trace.
  destruct (lookup fs REPO_ROOT) as [n|]; [|by intros ?%elem_of_nil].
  intros (q & m & (_ & Hq & _) & Hv)%trace_reached Hname Hall.
  assert (e = entryAt platform REPO_ROOT "." q) as ->.
  { unfold visitOf in Hv. destruct (isFile m); [by injection Hv|done]. }
  unfold REPO_ROOT in *. cbn [entryAt fullPath relPath name app] in *.
  assert (Forall (λ x, "/"%char ∉ JS.chars x) q) as Hslash.
  { eapply Forall_impl; [exact Hall|]. intros x Hx Hin.
    pose proof (isPathSeparator_proper platform x "/" Hx Hin) as Hsep.
    by rewrite isPathSeparator_slash in Hsep. }
  split_and!; [| |intros Hplain; by apply normalisedParts_plain].
  all: rewrite nested_onFile_cases by done; cbn [entryAt relPath app];
    rewrite foldl_join_dot, normalised_concat by done;
    assert (normalisedParts q =
            Path.split Path.posix (String.concat "/" (normalised <$> q))) as ->
      by (rewrite split_concat_parts by (by destruct q);
          by rewrite normalisedParts_fmap);
    rewrite <- manifest_position_split;
    rewrite (validManifestLocation_tests (String.concat "/" (normalised <$> q)));
    destruct (_ || _ || _); try done.
  split; [|done]. intros [= H].
  apply (f_equal length) in H. rewrite length_app in H. simpl in H. lia.
Qed.


(** ** What the rules collect along their walks *)

Lemma elem_of_concat_fmap {A B} (f : A → list B) (l : list A) (y : B) :
  y ∈ concat (f <$> l) ↔ ∃ x, x ∈ l ∧ y ∈ f x.
Proof.
  induction l as [|x l IH]; simpl.
  - split; [by intros ?%elem_of_nil | by intros (? & ?%elem_of_nil & _)].
  - rewrite elem_of_app, IH. split.
    + intros [H|(z & Hz & H)]; [exists x; split; [by left|done]|].
      exists z. split; [by right | done].
    + intros (z & [->|Hz]%elem_of_cons & H); [by left|].
      right. by exists z.
Qed.

Lemma elem_of_files e vs : e ∈ files vs ↔ VisitFile e ∈ vs.
Proof.
  unfold files. rewrite list_elem_of_omap. split.
  - by intros ([e'|e'] & Hin & [= ->]).
  - intros Hin. by exists (VisitFile e).
Qed.

(** A loop whose body appends a list that depends on the element only. *)
Lemma forEach_collects {A} (xs : list A)
    (body : A → list ValidationError → Res (list ValidationError))
    (out : A → list ValidationError) :
  (∀ x, x ∈ xs → ∀ errors, body x errors = Done (errors ++ out x)) →
  ∀ errors, forEach xs body errors = Done (errors ++ concat (out <$> xs)).
Proof.
  induction xs as [|x xs IH]; intros Hbody errors; simpl.
  { by rewrite app_nil_r. }
  rewrite Hbody by (by left). cbn [andThen].
  rewrite IH by (intros y Hy; apply Hbody; by right).
  by rewrite <- app_assoc.
Qed.

Lemma walk_collects platform options fs dir rel
    (out : Visit → list ValidationError) :
  (∀ v, v ∈ visits platform (skipDirs options) fs dir rel →
        ∀ errors, handle options v errors = Done (errors ++ out v)) →
  ∀ errors,
    walk platform options fs dir rel errors =
    Done (errors ++
          concat (out <$> visits platform (skipDirs options) fs dir rel)).
Proof.
  intros Hv errors. unfold walk. rewrite walkDirectory_fold.
  by apply forEach_collects.
Qed.

Lemma concat_files (f : Entry → list ValidationError) vs :
  concat ((λ v, match v with VisitFile e => f e | VisitDirectory _ => [] end)
            <$> vs) =
  concat (f <$> files vs).
Proof.
  induction vs as [|[e|e] vs IH]; [done| |]; rewrite fmap_cons; cbn [concat];
    rewrite IH.
  - done.
  - by change (files (VisitFile e :: vs)) with (e :: files vs).
Qed.

(** A walk that calls back for regular files only, with a callback that
    appends its verdict. *)
Lemma file_walk_collects platform skip callback fs dir rel :
  (∀ e errors, callback e errors = Done (errors ++ verdict callback e)) →
  ∀ errors,
    walk platform
      {| skipDirs := skip; onDirectory := None; onFile := Some callback |}
      fs dir rel errors =
    Done (errors ++ concat (verdict callback <$> files (visits platform skip fs dir rel))).
Proof.
  intros Hcb errors. rewrite <- concat_files.
  apply (walk_collects platform
           {| skipDirs := skip; onDirectory := None; onFile := Some callback |}).
  intros [e|e] _ errors'; cbn [handle call onDirectory onFile].
  - by rewrite app_nil_r.
  - apply Hcb.
Qed.

Lemma pushIf_verdict c v errors :
  pushIf c v errors = Done (errors ++ state (pushIf c v [])).
Proof. unfold pushIf, push. destruct c; simpl; by rewrite ?app_nil_r. Qed.

Lemma judges_nestedPackageJson e errors :
  validateNoNestedPackageJson_onFile e errors =
  Done (errors ++ verdict validateNoNestedPackageJson_onFile e).
Proof.
  unfold verdict, validateNoNestedPackageJson_onFile.
  case_bool_decide; [apply pushIf_verdict | by rewrite app_nil_r].
Qed.



Lemma judges_noShellScripts e errors :
  validateNoShellScripts_onFile e errors =
  Done (errors ++ verdict validateNoShellScripts_onFile e).
Proof. apply pushIf_verdict. Qed.


(** X21: the shell-script rule in terms of the tree. The rule never
    throws, and it reports exactly the entries listed as regular files
    whose lowercased extension is one of the forbidden ones and that are
    reached from the root through readable directories, none of them
    named as a skipped directory; the record carries the relative path of
    the file. *)
Theorem shell_rule_reports platform fs n :
  lookup fs REPO_ROOT = Some n →
  ∃ added,
    (∀ errors, validateNoShellScripts platform fs errors = Done (errors ++ added)) ∧
    ∀ w, w ∈ added ↔
         ∃ q m,
           reached (Some SKIP_DIRS_WITH_HUSKY) n q m ∧ isFile m = true ∧
           JS.toLowerCase (extension (default "" (last q))) ∈ FORBIDDEN_EXTENSIONS ∧
           w = shellScript (entryAt platform REPO_ROOT "." q).
Proof.
  intros Hn. eexists. split.
  { apply file_walk_collects, judges_noShellScripts. }
  intros w. rewrite elem_of_concat_fmap. setoid_rewrite elem_of_files.
  rewrite visits_trace, Hn. split.
  - intros (e & (q & m & Hr & Hv)%trace_reached & Hw).
    unfold visitOf in Hv. destruct (isFile m) eqn:Hf; [|done].
    injection Hv as ->. exists q, m. split_and!; [done..| |];
      revert Hw; unfold verdict, validateNoShellScripts_onFile, pushIf, push;
      cbn [name entryAt]; unfold isShellScript; case_bool_decide; simpl;
      try (by intros ?%elem_of_nil).
    + done.
    + by intros ->%list_elem_of_singleton.
  - intros (q & m & Hr & Hf & Hext & ->).
    exists (entryAt platform REPO_ROOT "." q). split.
    + apply (reached_trace platform _ _ _ _ REPO_ROOT ".") in Hr.
      unfold visitOf in Hr. by rewrite Hf in Hr.
    + unfold verdict, validateNoShellScripts_onFile, pushIf, push.
      cbn [name entryAt]. unfold isShellScript.
      rewrite bool_decide_true by done. simpl. by left.
Qed.

(** A loop over the packages whose check appends a list that depends on
    the package only. *)
Lemma forEachPackageFixturesDir_collects fs checkDirectory entries
    (out : string → list ValidationError) :
  readdir fs ["packages"] = Some entries →
  (∀ nm node, (nm, node) ∈ entries → isDirectory node = true →
     ∀ errors,
       checkDirectory (fixturesOf nm) (fixturesRel nm) errors =
       Done (errors ++ out nm)) →
  ∀ errors,
    forEachPackageFixturesDir fs checkDirectory errors =
    Done (errors ++
          concat ((λ '(nm, node), if isDirectory node then out nm else [])
                    <$> entries)).
Proof.
  intros Hr Hc errors. unfold forEachPackageFixturesDir. cbn zeta.
  change (REPO_ROOT ++ ["packages"]) with ["packages"]. rewrite Hr.
  apply forEach_collects. intros [nm node] Hin errors'.
  destruct (isDirectory node) eqn:Hd; [|by rewrite app_nil_r].
  by apply (Hc nm node).
Qed.

Lemma elem_of_packages_collected (out : string → list ValidationError)
    (entries : list (string * Node)) w :
  w ∈ concat ((λ '(nm, node), if isDirectory node then out nm else [])
                <$> entries) ↔
  ∃ nm node, (nm, node) ∈ entries ∧ isDirectory node = true ∧ w ∈ out nm.
Proof.
  rewrite elem_of_concat_fmap. split.
  - intros ([nm node] & Hin & Hw). exists nm, node.
    destruct (isDirectory node); [done | by apply elem_of_nil in Hw].
  - intros (nm & node & Hin & Hd & Hw). exists (nm, node).
    by rewrite Hd.
Qed.

(** X22: the staging rule in terms of the tree. When [packages] can be
    listed the rule returns, and it reports exactly the directories named
    [staging] that are reached, at any depth, from the test/fixtures
    directory of an entry of [packages] that is a directory; the record
    carries the relative path of the directory. *)
Theorem staging_rule_reports platform fs entries :
  readdir fs ["packages"] = Some entries →
  ∃ added,
    (∀ errors,
       validateNoStagingDirectories platform fs errors = Done (errors ++ added)) ∧
    ∀ w, w ∈ added ↔
         ∃ nm node n q m,
           (nm, node) ∈ entries ∧ isDirectory node = true ∧
           lookup fs (fixturesOf nm) = Some n ∧
           reached None n q m ∧ isDirectory m = true ∧
           last q = Some "staging" ∧
           w = stagingViolation
                 (entryAt platform (fixturesOf nm) (fixturesRel nm) q).
Proof.
  intros Hr.
  set (options := {| skipDirs := None;
                     onDirectory := Some validateNoStagingDirectories_onDirectory;
                     onFile := None |}).
  exists (concat ((λ '(nm, node),
            if isDirectory node
            then concat (reportedAt options <$>
                           visits platform None fs (fixturesOf nm) (fixturesRel nm))
            else []) <$> entries)).
  split.
  { apply (forEachPackageFixturesDir_collects fs _ entries
             (λ nm, concat (reportedAt options <$>
                       visits platform None fs (fixturesOf nm) (fixturesRel nm))));
      [done|].
    intros nm node _ _. apply (walk_collects platform options).
    intros [e|e] _ errors; cbn [handle call onDirectory onFile options].
    - apply pushIf_verdict.
    - by rewrite app_nil_r. }
  intros w.
  rewrite (elem_of_packages_collected
             (λ nm, concat (reportedAt options <$>
                       visits platform None fs (fixturesOf nm) (fixturesRel nm)))).
  split.
  - intros (nm & node & Hin & Hd & (v & Hv & Hw)%elem_of_concat_fmap).
    rewrite visits_trace in Hv.
    destruct (lookup fs (fixturesOf nm)) as [n|] eqn:Hn;
      [|by apply elem_of_nil in Hv].
    apply trace_reached in Hv as (q & m & Hreach & ->).
    assert (isDirectory m = true ∧ last q = Some "staging" ∧
            w = stagingViolation
                  (entryAt platform (fixturesOf nm) (fixturesRel nm) q))
      as (Hm & Hl & ->).
    { revert Hw. unfold reportedAt, visitOf.
      destruct Hreach as (_ & Hq & Hkind & _).
      destruct (isFile m) eqn:Hf; cbn [handle call onDirectory onFile options];
        [by intros ?%elem_of_nil|].
      unfold validateNoStagingDirectories_onDirectory, pushIf, push.
      cbn [name entryAt].
      case_bool_decide as Hname; simpl; [|by intros ?%elem_of_nil].
      intros ->%list_elem_of_singleton. split_and!; [| |done].
      - destruct Hkind; [congruence | done].
      - destruct (last q) eqn:Hl; [by simpl in Hname; subst|].
        by apply last_None in Hl. }
    by exists nm, node, n, q, m.
  - intros (nm & node & n & q & m & Hin & Hd & Hn & Hreach & Hm & Hl & ->).
    exists nm, node. split_and!; [done..|].
    apply elem_of_concat_fmap.
    exists (visitOf platform (fixturesOf nm) (fixturesRel nm) q m). split.
    + rewrite visits_trace, Hn. by apply reached_trace.
    + unfold reportedAt, visitOf. destruct m; try done.
      cbn [isFile handle call onDirectory options].
      unfold validateNoStagingDirectories_onDirectory, pushIf, push.
      cbn [name entryAt]. rewrite Hl. simpl. by left.
Qed.

(** ** The size rule over the fixture files *)

Lemma endsWith_app s x : JS.endsWith s x = true ↔ ∃ u, s = u +:+ x.
Proof.
  rewrite endsWith_true. split.
  - intros [k Hk]. exists (String.string_of_list_ascii k). apply chars_inj.
    rewrite chars_app, Hk. f_equal. unfold JS.chars.
    by rewrite String.list_ascii_of_string_of_list_ascii.
  - intros [u ->]. rewrite chars_app. by eexists.
Qed.

(** The test on the extension, read off the name: the name, lowercased,
    ends in an entry of the table. *)
Lemma isCompressed_spec nm : isCompressed nm = true ↔ compressedName nm.
Proof.
  unfold isCompressed, compressedName. rewrite bool_decide_eq_true. split.
  - intros Hin. exists (JS.toLowerCase (extension nm)). split.
    + unfold ALLOWED_LARGE_EXTENSIONS in Hin.
      rewrite !elem_of_union, !elem_of_singleton in Hin.
      destruct Hin as [[[[H|H]|H]|H]|H]; rewrite H; compute_done.
    + apply endsWith_app.
      destruct (last_dot_split nm) as [Hnone|(pre & suf & -> & Hsuf)].
      * exists "". by rewrite extension_dotless.
      * exists (JS.toLowerCase pre).
        by rewrite extension_last_dot, toLowerCase_app.
  - intros (x & Hx & [u Hu]%endsWith_app).
    rewrite <- extension_toLowerCase, Hu.
    unfold COMPRESSED_SUFFIXES in Hx.
    repeat (apply elem_of_cons in Hx as [->|Hx]); [..|by apply elem_of_nil in Hx].
    + rewrite (extension_last_dot u "zip") by compute_done. compute_done.
    + rewrite (extension_last_dot u "tar") by compute_done. compute_done.
    + rewrite (extension_last_dot u "gz") by compute_done. compute_done.
    + rewrite (extension_last_dot u "tgz") by compute_done. compute_done.
    + change (u +:+ ".tar.gz") with (u +:+ ".tar" +:+ ".gz").
      rewrite <- string_app_assoc.
      rewrite (extension_last_dot (u +:+ ".tar") "gz") by compute_done.
      compute_done.
Qed.

(** What the callback appends for a file of which [stat] reports [size]
    bytes. *)
Lemma verdict_fixtureSizes fs e size :
  stat fs (fullPath e) = Some size →
  verdict (validateTestFixtureSizes_onFile fs) e =
  if bool_decide (102400 < size)%N && negb (isCompressed (name e))
  then [largeFile e (inject_Z (Z.of_N size) / inject_Z 1024)%Q]
  else [].
Proof.
  intros Hs. unfold verdict, validateTestFixtureSizes_onFile.
  rewrite Hs. cbn zeta. destruct (Qgtb _ _) eqn:Hq.
  - apply over_threshold, over_threshold_bytes in Hq.
    rewrite bool_decide_true by done. cbn [andb].
    unfold pushIf, push. by destruct (negb _).
  - rewrite bool_decide_false; [done|].
    intros Hlt%over_threshold_bytes%over_threshold. congruence.
Qed.

Lemma elem_of_fixtureFiles platform fs entries e :
  readdir fs ["packages"] = Some entries →
  e ∈ fixtureFiles platform fs ↔
  ∃ nm node, (nm, node) ∈ entries ∧ isDirectory node = true ∧
             VisitFile e ∈ visits platform None fs (fixturesOf nm) (fixturesRel nm).
Proof.
  intros Hr. unfold fixtureFiles. rewrite Hr, elem_of_concat_fmap. split.
  - intros ([nm node] & Hin & He).
    destruct (isDirectory node) eqn:Hd; [|by apply elem_of_nil in He].
    exists nm, node. by rewrite <- elem_of_files.
  - intros (nm & node & Hin & Hd & He). exists (nm, node). split; [done|].
    rewrite Hd. by apply elem_of_files.
Qed.

(** The files of the size rule in terms of the tree: the entries listed
    as regular files that are reached, through readable directories, from
    the test/fixtures directory of an entry of [packages] that is a
    directory. *)
Lemma fixtureFiles_reached platform fs entries e :
  readdir fs ["packages"] = Some entries →
  e ∈ fixtureFiles platform fs ↔
  ∃ nm node n q m,
    (nm, node) ∈ entries ∧ isDirectory node = true ∧
    lookup fs (fixturesOf nm) = Some n ∧
    reached None n q m ∧ isFile m = true ∧
    e = entryAt platform (fixturesOf nm) (fixturesRel nm) q.
Proof.
  intros Hr. rewrite (elem_of_fixtureFiles _ _ _ _ Hr). split.
  - intros (nm & node & Hin & Hd & Hv). rewrite visits_trace in Hv.
    destruct (lookup fs (fixturesOf nm)) as [n|] eqn:Hn;
      [|by apply elem_of_nil in Hv].
    apply trace_reached in Hv as (q & m & Hreach & Hv).
    unfold visitOf in Hv. destruct (isFile m) eqn:Hf; [|done].
    injection Hv as ->. by exists nm, node, n, q, m.
  - intros (nm & node & n & q & m & Hin & Hd & Hn & Hreach & Hf & ->).
    exists nm, node. split_and!; [done..|]. rewrite visits_trace, Hn.
    apply (reached_trace platform _ _ _ _ (fixturesOf nm) (fixturesRel nm))
      in Hreach.
    unfold visitOf in Hreach. by rewrite Hf in Hreach.
Qed.

(** X23: the fixture-size rule in terms of the tree. When [packages] can
    be listed and [stat] succeeds on every file that the walks of the
    rule hand to it, the rule returns, and it warns exactly about the
    entries listed as regular files for which [stat] reports more than
    102400 bytes, whose name has no compressed extension, and that are
    reached at any depth from the test/fixtures directory of an entry of
    [packages] that is a directory; the record carries the relative path
    of the file and the reported size divided by 1024. *)
Theorem fixture_size_rule_reports platform fs entries :
  readdir fs ["packages"] = Some entries →
  (∀ e, e ∈ fixtureFiles platform fs → is_Some (stat fs (fullPath e))) →
  ∃ added,
    (∀ errors,
       validateTestFixtureSizes platform fs errors = Done (errors ++ added)) ∧
    ∀ w, w ∈ added ↔
         ∃ nm node n q m size,
           (nm, node) ∈ entries ∧ isDirectory node = true ∧
           lookup fs (fixturesOf nm) = Some n ∧
           reached None n q m ∧ isFile m = true ∧
           stat fs (fixturesOf nm ++ q) = Some size ∧
           (102400 < size)%N ∧
           ¬ compressedName (default "" (last q)) ∧
           w = largeFile
                 (entryAt platform (fixturesOf nm) (fixturesRel nm) q)
                 (inject_Z (Z.of_N size) / inject_Z 1024)%Q.
Proof.
  intros Hr Hok.
  exists (concat (verdict (validateTestFixtureSizes_onFile fs) <$>
                    fixtureFiles platform fs)).
  split.
  { intros errors. rewrite validateTestFixtureSizes_fold by (by eexists).
    by apply fixtureSizes_statable. }
  intros w. rewrite elem_of_concat_fmap. split.
  - intros (e & He & Hw). pose proof (Hok e He) as [size Hs].
    apply (elem_of_fixtureFiles _ _ _ _ Hr) in He as (nm & node & Hin & Hd & Hv).
    rewrite visits_trace in Hv.
    destruct (lookup fs (fixturesOf nm)) as [n|] eqn:Hn;
      [|by apply elem_of_nil in Hv].
    apply trace_reached in Hv as (q & m & Hreach & Hv).
    unfold visitOf in Hv. destruct (isFile m) eqn:Hf; [|done].
    injection Hv as ->.
    rewrite (verdict_fixtureSizes _ _ _ Hs) in Hw.
    case_bool_decide as Hlt; [|by apply elem_of_nil in Hw].
    destruct (isCompressed _) eqn:Hc; [by apply elem_of_nil in Hw|].
    apply list_elem_of_singleton in Hw as ->.
    exists nm, node, n, q, m, size. split_and!; try done.
    intros Hcn%isCompressed_spec. cbn [name entryAt] in Hc. congruence.
  - intros (nm & node & n & q & m & size & Hin & Hd & Hn & Hreach & Hf & Hs &
            Hlt & Hc & ->).
    exists (entryAt platform (fixturesOf nm) (fixturesRel nm) q). split.
    + apply (elem_of_fixtureFiles _ _ _ _ Hr). exists nm, node.
      split_and!; [done..|]. rewrite visits_trace, Hn.
      apply (reached_trace platform _ _ _ _ (fixturesOf nm) (fixturesRel nm))
        in Hreach.
      unfold visitOf in Hreach. by rewrite Hf in Hreach.
    + rewrite (verdict_fixtureSizes _ _ size) by done.
      rewrite bool_decide_true by done. cbn [name entryAt andb].
      assert (isCompressed (default "" (last q)) = false) as ->.
      { apply not_true_is_false. by intros ?%isCompressed_spec. }
      by left.
Qed.

(** * The rules over the files of their walks *)

(** ** The nested-manifest rule *)

(** C1: the nested-manifest rule walks the tree from the root, leaving out
    the directories named [node_modules], [dist], [.git] and
    [.worktrees], and appends, in the order of the walk, what it emits
    for each regular file the walk hands to it. For a file not named
    [package.json] it emits nothing. For a file named [package.json] it
    emits nothing exactly when the normalised relative path is
    [package.json], or [packages/<name>/package.json], or lies below
    [packages/<name>/test/fixtures/]; for every other location it emits
    exactly one violation, of type forbidden-directory and severity
    error, with the relative path of the file. *)
Theorem nested_manifest_locations platform fs :
  ∃ emitted : Entry → list ValidationError,
    (∀ errors,
       validateNoNestedPackageJson platform fs errors =
       Done (errors ++
             concat (emitted <$>
                     files (visits platform
                              (Some (COMMON_SKIP_DIRS ∪ {[ WORKTREES_DIR ]}))
                              fs REPO_ROOT ".")))) ∧
    ∀ e,
      (name e ≠ "package.json" → emitted e = []) ∧
      (name e = "package.json" →
       (emitted e = [] ↔ validManifestLocation (normalised (relPath e))) ∧
       (¬ validManifestLocation (normalised (relPath e)) →
        ∃ v, emitted e = [v] ∧ type v = FORBIDDEN_DIRECTORY ∧
             severity v = error ∧ path v = relPath e)).
Proof.
  exists (verdict validateNoNestedPackageJson_onFile). split.
  - apply file_walk_collects, judges_nestedPackageJson.
  - intros e. split.
    + intros Hne. unfold verdict, validateNoNestedPackageJson_onFile.
      by rewrite bool_decide_false.
    + intros Hname. unfold verdict. rewrite nested_onFile_cases by done.
      rewrite (validManifestLocation_tests (normalised (relPath e))).
      destruct (_ || _ || _); simpl; split; try done.
      intros _. by eexists.
Qed.

(** ** The fixture-size rule *)

(** C3 (as the code has it): the size rule hands every regular file that
    its walks reach below the test/fixtures directory of a package to a
    callback that asks [stat] for the size; these are the entries listed
    as regular files that are reached through readable directories from
    the test/fixtures directory of a directory listed in [packages]. For
    a file of which [stat]
    reports [size] bytes the callback emits one violation, of type
    large-file and severity warning, with the relative path of the file,
    exactly when [size / 1024] strictly exceeds 100 and the name has no
    compressed extension; a file of exactly 100 KB emits nothing, and a
    name with a compressed extension emits nothing at any size. When
    [stat] succeeds on all the files, the rule appends what they emit, in
    order. When [stat] throws on a file, the rule throws there: it has
    appended what the files before that one emit, and emits nothing for
    that file or for any file after it. *)
Theorem fixture_size_threshold platform fs :
  ∃ emitted : Entry → list ValidationError,
    (∀ e size,
       stat fs (fullPath e) = Some size →
       let sizeKB := (inject_Z (Z.of_N size) / inject_Z 1024)%Q in
       let large := (inject_Z 100 < sizeKB)%Q ∧ ¬ compressedName (name e) in
       (large →
        ∃ v, emitted e = [v] ∧ type v = LARGE_FILE ∧ severity v = warning ∧
             path v = relPath e) ∧
       (¬ large → emitted e = []) ∧
       (size = 102400%N → emitted e = []) ∧
       (compressedName (name e) → emitted e = [])) ∧
    (is_Some (readdir fs ["packages"]) →
     (∀ e, e ∈ fixtureFiles platform fs → is_Some (stat fs (fullPath e))) →
     ∀ errors,
       validateTestFixtureSizes platform fs errors =
       Done (errors ++ concat (emitted <$> fixtureFiles platform fs))) ∧
    (∀ l1 e l2,
       fixtureFiles platform fs = l1 ++ e :: l2 →
       (∀ e', e' ∈ l1 → is_Some (stat fs (fullPath e'))) →
       stat fs (fullPath e) = None →
       ∀ errors,
         validateTestFixtureSizes platform fs errors =
         Raised (errors ++ concat (emitted <$> l1))) ∧
    (∀ entries e,
       readdir fs ["packages"] = Some entries →
       (e ∈ fixtureFiles platform fs ↔
        ∃ nm node n q m,
          (nm, node) ∈ entries ∧ isDirectory node = true ∧
          lookup fs (fixturesOf nm) = Some n ∧
          reached None n q m ∧ isFile m = true ∧
          e = entryAt platform (fixturesOf nm) (fixturesRel nm) q)).
Proof.
  exists (verdict (validateTestFixtureSizes_onFile fs)). split_and!;
    [| | |intros entries e Hr; by apply fixtureFiles_reached].
  - intros e size Hs sizeKB large.
    rewrite (verdict_fixtureSizes _ _ _ Hs).
    assert (large ↔ bool_decide (102400 < size)%N &&
                    negb (isCompressed (name e)) = true) as Hlarge.
    { unfold large, sizeKB.
      rewrite andb_true_iff, bool_decide_eq_true, negb_true_iff,
        over_threshold_bytes, <- not_true_iff_false, isCompressed_spec.
      done. }
    assert (size = 102400%N → ¬ large) as Hexact.
    { intros -> [Hl%over_threshold_bytes _]. lia. }
    assert (compressedName (name e) → ¬ large) as Hexempt by (by intros ? [_ ?]).
    destruct (bool_decide _ && negb _) eqn:Hb.
    + assert large by (by apply Hlarge).
      split_and!; [intros _; by eexists | done | intros ?; exfalso; by apply Hexact
                  | intros ?; exfalso; by apply Hexempt].
    + split_and!; try done. intros Hl%Hlarge. congruence.
  - intros Hr Hok errors. rewrite validateTestFixtureSizes_fold by done.
    by apply fixtureSizes_statable.
  - intros l1 e l2 Heq Hok Hs errors.
    assert (is_Some (readdir fs ["packages"])) as Hr.
    { unfold fixtureFiles in Heq.
      destruct (readdir fs ["packages"]); [done | by destruct l1]. }
    rewrite validateTestFixtureSizes_fold, Heq by done.
    by apply fixtureSizes_stop.
Qed.

(** A fixture of 101 KB without a compressed extension that the walk of
    the rule reaches after an entry on which [stat] throws: the rule
    throws at that entry and emits nothing for the large file. *)
Lemma large_fixture_after_a_lost_file :
  fixtureEntry "big.json" ∈ fixtureFiles Path.posix lostFixtureTree ∧
  stat lostFixtureTree (fullPath (fixtureEntry "big.json")) = Some 103424%N ∧
  (inject_Z 100 < inject_Z (Z.of_N 103424) / inject_Z 1024)%Q ∧
  ¬ compressedName (name (fixtureEntry "big.json")) ∧
  validateTestFixtureSizes Path.posix lostFixtureTree [] = Raised [].
Proof.
  split_and!.
  - vm_compute. repeat constructor.
  - vm_compute. reflexivity.
  - by apply over_threshold_bytes.
  - intros H%isCompressed_spec. vm_compute in H. discriminate.
  - vm_compute. reflexivity.
Qed.

(** ** Entries that are neither directories nor regular files *)

Lemma appends_impl (P Q : ValidationError → Prop) f :
  (∀ w, P w → Q w) → appends P f → appends Q f.
Proof.
  intros HPQ (added & ok & HP & Hf). exists added, ok. split; [|done].
  eapply Forall_impl; [exact HP | exact HPQ].
Qed.

Lemma appends_forEach_in P {A} (xs : list A) body :
  (∀ x, x ∈ xs → appends P (body x)) → appends P (forEach xs body).
Proof.
  induction xs as [|x xs IH]; intros Hbody; [apply appends_Done|].
  apply (appends_andThen P (body x) (forEach xs body)).
  - apply Hbody. by left.
  - apply IH. intros y Hy. apply Hbody. by right.
Qed.

Lemma visited_about platform fs skip dir rel v w :
  ruleWalk dir rel →
  v ∈ visits platform skip fs dir rel → path w = relPath (visited v) →
  aboutVisited platform fs w.
Proof.
  intros Hstart Hv Hw. exists skip, dir, rel, v.
  pose proof Hv as Hv'. rewrite visits_trace in Hv'.
  destruct (lookup fs dir) as [n|] eqn:Hn; [|by apply elem_of_nil in Hv'].
  destruct (trace_kinds platform skip n dir rel v Hv') as (above & m & Hp & Hd & Hk).
  by exists n, above, m.
Qed.

(** A walk of a rule whose callbacks append records with the path of the
    entry they are called for appends records about visited entries. *)
Lemma about_walk platform fs options dir rel :
  ruleWalk dir rel →
  (∀ h e, onDirectory options = Some h →
          appends (λ w, path w = relPath e) (h e)) →
  (∀ h e, onFile options = Some h →
          appends (λ w, path w = relPath e) (h e)) →
  appends (aboutVisited platform fs) (walk platform options fs dir rel).
Proof.
  intros Hstart Hd Hf. unfold walk.
  apply (appends_ext _ _
           (forEach (visits platform (skipDirs options) fs dir rel)
              (handle options))).
  { intros errors. apply walkDirectory_fold. }
  apply appends_forEach_in. intros v Hv.
  apply (appends_impl (λ w, path w = relPath (visited v))).
  { intros w Hw.
    by apply (visited_about platform fs (skipDirs options) dir rel v). }
  destruct v as [e|e]; apply appends_call; eauto.
Qed.

(** The helper of the fixture rules starts its walks at the test/fixtures
    directories. *)
Lemma appends_fixtures_walks P fs checkDirectory :
  (∀ nm, appends P (checkDirectory (fixturesOf nm) (fixturesRel nm))) →
  appends P (forEachPackageFixturesDir fs checkDirectory).
Proof.
  intros Hc. unfold forEachPackageFixturesDir. cbn zeta.
  destruct (readdir fs _) as [entries|]; [|apply appends_Raised].
  apply appends_forEach. intros [nm node].
  destruct (isDirectory node); [apply (Hc nm) | apply appends_Done].
Qed.

Lemma about_walkingRules platform fs config :
  Forall (appends (aboutVisited platform fs)) (walkingRules platform fs config).
Proof.
  unfold walkingRules. repeat apply Forall_cons_2; [..|apply @List.Forall_nil].
  - apply about_walk; [by left|done|]. intros h e [= <-].
    unfold validateNoNestedPackageJson_onFile.
    case_bool_decide; [|apply appends_Done]. by apply appends_pushIf.
  - apply about_walk; [by left|done|]. intros h e [= <-].
    unfold validateSourceFileLocations_onFile.
    destruct (negb _); [apply appends_Done|].
    case_bool_decide; [apply appends_Done|].
    destruct (test PACKAGE_CONFIG_PATTERN _); [apply appends_Done|].
    by apply appends_pushIf.
  - apply about_walk; [by left|done|]. intros h e [= <-].
    unfold validateTestFileNaming_onFile.
    repeat apply (appends_andThen _ _ (pushIf _ _)); by apply appends_pushIf.
  - apply about_walk; [by left|done|]. intros h e [= <-].
    by apply appends_pushIf.
  - apply appends_fixtures_walks. intros nm.
    apply about_walk; [right; by exists nm| |done]. intros h e [= <-].
    by apply appends_pushIf.
  - apply appends_fixtures_walks. intros nm.
    apply about_walk; [right; by exists nm|done|]. intros h e [= <-].
    unfold validateTestFixtureSizes_onFile.
    destruct (stat fs _) as [size|]; [|apply appends_Raised]. cbn zeta.
    destruct (Qgtb _ _); [|apply appends_Done]. by apply appends_pushIf.
Qed.

(** C10 (as the code has it): a walk behaves, for any callbacks and any
    state, as if the entries that are neither directories nor regular
    files were not there, and every callback it makes is [onDirectory]
    for a directory or [onFile] for a regular file, reached through
    listings of readable directories. The six rules that check entries
    in walk callbacks therefore only append records that carry the
    relative path of a directory or regular file for which one of their
    walks called back: none of them emits a violation for an entry of
    another kind. The two other rules make no walk and ask
    [existsSync] for one path below each directory listed in [packages]:
    the scripts rule, for a directory outside the allow-list, emits its
    violation whenever the path [scripts] below it exists, and the
    examples rule, for a directory whose name a configured pattern
    matches, whenever the path [examples] below it exists, whatever kind
    of entry the path leads to. *)
Theorem walk_ignores_other_kinds platform fs config :
  (∀ S (options : WalkOptions S) n dir rel,
     (∀ s, walkNode platform options n dir rel s =
           walkNode platform options (eraseOthers n) dir rel s) ∧
     (∀ v, v ∈ trace platform (skipDirs options) n dir rel →
           ∃ above m,
             fullPath (visited v) = dir ++ above ++ [name (visited v)] ∧
             descends n (above ++ [name (visited v)]) m ∧
             kindMatches v m = true)) ∧
  Forall (appends (aboutVisited platform fs)) (walkingRules platform fs config) ∧
  (∀ entries nm node m,
     readdir fs ["packages"] = Some entries →
     (nm, node) ∈ entries → isDirectory node = true →
     nm ∉ default ["dev-tools"] (allowedScriptsPackages config) →
     lookup fs ["packages"; nm; "scripts"] = Some m →
     ∀ errors,
       scriptsViolation nm ∈ state (validateScriptsLocation fs config errors)) ∧
  (∀ entries nm node p m,
     readdir fs ["packages"] = Some entries →
     (nm, node) ∈ entries → isDirectory node = true →
     p ∈ default [] (noExamplesPatterns config) → test p nm = true →
     lookup fs ["packages"; nm; "examples"] = Some m →
     ∀ errors,
       examplesViolation nm ∈
         state (validateNoExamplesInPatternPackages fs config errors)).
Proof.
  split_and!; cycle 3.
  - intros entries nm node p m Hr Hin Hd Hp Ht Hm errors.
    rewrite (validateNoExamples_listed _ _ entries)
      by (done || by intros Hnil; rewrite Hnil in Hp; apply elem_of_nil in Hp).
    cbn [state]. apply elem_of_app. right. apply list_elem_of_fmap.
    exists (nm, node). split; [done|]. apply list_elem_of_filter.
    split; [|done]. cbn [fst snd]. rewrite Hd. cbn [andb].
    apply andb_true_intro. split.
    + apply existsb_elem. by exists p.
    + apply bool_decide_eq_true. by rewrite Hm.
  - intros S options n dir rel.
    split; [intros s; symmetry; apply walkNode_eraseOthers | apply trace_kinds].
  - apply about_walkingRules.
  - intros entries nm node m Hr Hin Hd Hallow Hm errors.
    rewrite (validateScriptsLocation_listed _ _ _ _ Hr). cbn [state].
    apply elem_of_app. right. apply list_elem_of_fmap. exists (nm, node).
    split; [done|]. apply list_elem_of_filter. split; [|done].
    cbn [fst snd]. rewrite Hd. cbn [andb]. apply andb_true_intro. split.
    + apply negb_true_iff, bool_decide_eq_false.
      intros Hin'. apply Hallow. by apply elem_of_list_to_set in Hin'.
    + apply bool_decide_eq_true. by rewrite Hm.
Qed.

(** ** The statements at work on the sample trees *)

Lemma nested_manifest_locations_witness :
  ∃ v, validateNoNestedPackageJson Path.posix conventionTree [] = Done [v] ∧
       type v = FORBIDDEN_DIRECTORY ∧ severity v = error ∧
       path v = "packages/foo/src/package.json".
Proof.
  destruct (nested_manifest_locations Path.posix conventionTree)
    as (emitted & Hrule & Hem).
  assert (files (visits Path.posix (Some (COMMON_SKIP_DIRS ∪ {[ WORKTREES_DIR ]}))
                   conventionTree REPO_ROOT ".") =
          [ entryAt Path.posix [] "." ["package.json"];
            packageManifest;
            nestedManifest;
            entryAt Path.posix [] "." ["packages"; "foo"; "test"; "bar.spec.ts"];
            entryAt Path.posix [] "."
              ["packages"; "foo"; "test"; "bar.integration.test.ts"];
            entryAt Path.posix [] "."
              ["packages"; "foo"; "test"; "integration"; "baz.integration.test.ts"];
            entryAt Path.posix [] "."
              ["packages"; "foo"; "test"; "integration"; "unit.test.ts"] ])
    as Hfiles by (vm_compute; reflexivity).
  assert (∀ e, name e ≠ "package.json" → emitted e = []) as Hother
    by (intros e; apply Hem).
  assert (∀ e, name e = "package.json" →
               bool_decide (normalised (relPath e) = "package.json")
               || test IN_PACKAGES_DIR (normalised (relPath e))
               || test IN_TEST_FIXTURES (normalised (relPath e)) = true →
               emitted e = []) as Hvalid.
  { intros e Hn Hv. apply (proj2 (Hem e) Hn). by apply validManifestLocation_tests. }
  destruct (proj2 (proj2 (Hem nestedManifest) eq_refl)) as (v & Hv & Ht & Hs & Hp).
  { rewrite validManifestLocation_tests. vm_compute. discriminate. }
  exists v. split; [|done].
  rewrite Hrule, Hfiles. cbn [fmap list_fmap concat app].
  rewrite (Hvalid (entryAt Path.posix [] "." ["package.json"]) eq_refl)
    by (vm_compute; reflexivity).
  rewrite (Hvalid packageManifest eq_refl) by (vm_compute; reflexivity).
  rewrite Hv. by rewrite !Hother by (vm_compute; discriminate).
Defined.

Lemma fixture_size_threshold_witness :
  (∃ v, validateTestFixtureSizes Path.posix fixtureTree [] = Done [v] ∧
        type v = LARGE_FILE ∧ severity v = warning ∧
        path v = "packages/foo/test/fixtures/big.json") ∧
  validateTestFixtureSizes Path.posix lostFixtureTree [] = Raised [].
Proof.
  split.
  - destruct (fixture_size_threshold Path.posix fixtureTree)
      as (emitted & HA & HB & _).
    assert (fixtureFiles Path.posix fixtureTree =
            [fixtureEntry "exact.json"; fixtureEntry "big.json";
             fixtureEntry "archive.zip"]) as Hfiles by (vm_compute; reflexivity).
    assert (stat fixtureTree (fullPath (fixtureEntry "exact.json")) =
            Some 102400%N) as Hexact by (vm_compute; reflexivity).
    assert (stat fixtureTree (fullPath (fixtureEntry "big.json")) =
            Some 103424%N) as Hbig by (vm_compute; reflexivity).
    assert (stat fixtureTree (fullPath (fixtureEntry "archive.zip")) =
            Some 204800%N) as Hzip by (vm_compute; reflexivity).
    pose proof (HA _ _ Hexact) as H1. cbv zeta in H1.
    destruct H1 as (_ & _ & H1 & _).
    pose proof (HA _ _ Hbig) as H2. cbv zeta in H2.
    destruct H2 as (H2 & _).
    destruct H2 as (v & Hv & Ht & Hs & Hp).
    { split; [apply over_threshold_bytes; lia|].
      intros H%isCompressed_spec. vm_compute in H. discriminate. }
    pose proof (HA _ _ Hzip) as H3. cbv zeta in H3.
    destruct H3 as (_ & _ & _ & H3).
    exists v. split; [|done].
    rewrite HB, Hfiles.
    + cbn [fmap list_fmap concat app].
      rewrite (H1 eq_refl), Hv, H3; [done|].
      exists ".zip". split; [compute_done | vm_compute; reflexivity].
    + by eexists.
    + rewrite Hfiles. intros e He.
      repeat (apply elem_of_cons in He as [->|He]);
        [by eexists..|by apply elem_of_nil in He].
  - destruct (fixture_size_threshold Path.posix lostFixtureTree)
      as (emitted & _ & _ & HC & _).
    exact (HC [] (fixtureEntry "ghost.bin") [fixtureEntry "big.json"]
             eq_refl (λ e' He', False_ind _ (proj1 (elem_of_nil e') He'))
             eq_refl []).
Defined.


Lemma walk_ignores_other_kinds_witness :
  (∀ s, walkNode Path.posix throwingAtFoo fifoTree [] "." s =
        walkNode Path.posix throwingAtFoo (eraseOthers fifoTree) [] "." s) ∧
  (∃ above m,
     fullPath (visited (VisitFile
       (entryAt Path.posix [] "." ["packages"; "foo"; "src"; "index.ts"]))) =
       [] ++ above ++ ["index.ts"] ∧
     descends fifoTree (above ++ ["index.ts"]) m ∧ isFile m = true) ∧
  Forall (appends (aboutVisited Path.posix fifoTree))
    (walkingRules Path.posix fifoTree emptyConfig) ∧
  scriptsViolation "foo" ∈
    state (validateScriptsLocation fifoTree emptyConfig []).
Proof.
  destruct (walk_ignores_other_kinds Path.posix fifoTree emptyConfig)
    as (Hwalk & Hrules & Hscripts & _).
  split_and!.
  - apply Hwalk.
  - apply (proj2 (Hwalk _ throwingAtFoo fifoTree [] ".")
             (VisitFile
                (entryAt Path.posix [] "." ["packages"; "foo"; "src"; "index.ts"]))).
    vm_compute. repeat constructor.
  - exact Hrules.
  - eapply (Hscripts _ "foo" _ NSpecial);
      [reflexivity | by left | reflexivity | compute_done | reflexivity].
Defined.

(** ** The further statements at work on the sample trees *)

Lemma walk_visits_exactly_the_reached_witness :
  lookup cleanTree [] = Some cleanTree ∧
  (VisitFile packageManifest ∈ visits Path.posix None cleanTree [] "." ↔
   ∃ q m, reached None cleanTree q m ∧
          VisitFile packageManifest = visitOf Path.posix [] "." q m).
Proof.
  split; [reflexivity|].
  exact (walk_visits_exactly_the_reached Path.posix None cleanTree [] "."
           cleanTree (VisitFile packageManifest) eq_refl).
Defined.

Lemma larger_skipDirs_prune_more_witness :
  COMMON_SKIP_DIRS ⊆ SKIP_DIRS_WITH_HUSKY ∧
  visits Path.posix (Some SKIP_DIRS_WITH_HUSKY) untidyTree [] "."
    `sublist_of` visits Path.posix (Some COMMON_SKIP_DIRS) untidyTree [] ".".
Proof.
  assert (COMMON_SKIP_DIRS ⊆ SKIP_DIRS_WITH_HUSKY) as Hsub
    by apply union_subseteq_l.
  split; [exact Hsub|].
  exact (larger_skipDirs_prune_more Path.posix COMMON_SKIP_DIRS
           SKIP_DIRS_WITH_HUSKY untidyTree [] "." Hsub).
Defined.

Lemma walk_parent_before_children_witness :
  visits Path.posix None cleanTree [] "." =
    [ VisitFile (entryAt Path.posix [] "." ["package.json"]);
      VisitDirectory (entryAt Path.posix [] "." ["packages"]);
      VisitDirectory (entryAt Path.posix [] "." ["packages"; "foo"]) ] ++
    VisitFile packageManifest ::
    [ VisitDirectory (entryAt Path.posix [] "." ["packages"; "foo"; "src"]) ] ∧
  ∃ e, VisitDirectory e ∈
         [ VisitFile (entryAt Path.posix [] "." ["package.json"]);
           VisitDirectory (entryAt Path.posix [] "." ["packages"]);
           VisitDirectory (entryAt Path.posix [] "." ["packages"; "foo"]) ] ∧
       fullPath e = [] ++ [] ++ ["packages"] ∧ name e = "packages".
Proof.
  assert (visits Path.posix None cleanTree [] "." =
    [ VisitFile (entryAt Path.posix [] "." ["package.json"]);
      VisitDirectory (entryAt Path.posix [] "." ["packages"]);
      VisitDirectory (entryAt Path.posix [] "." ["packages"; "foo"]) ] ++
    VisitFile packageManifest ::
    [ VisitDirectory (entryAt Path.posix [] "." ["packages"; "foo"; "src"]) ])
    as Hv by (vm_compute; reflexivity).
  split; [exact Hv|].
  exact (walk_parent_before_children Path.posix None cleanTree [] "."
           _ (VisitFile packageManifest) _ [] "packages" ["foo"] Hv eq_refl).
Defined.

Lemma walk_stops_at_throwing_callback_witness :
  visits Path.posix None cleanTree [] "." =
    [ VisitFile (entryAt Path.posix [] "." ["package.json"]);
      VisitDirectory (entryAt Path.posix [] "." ["packages"]) ] ++
    VisitDirectory (entryAt Path.posix [] "." ["packages"; "foo"]) ::
    [ VisitFile packageManifest;
      VisitDirectory (entryAt Path.posix [] "." ["packages"; "foo"; "src"]) ] ∧
  walkDirectory Path.posix throwingAtFoo cleanTree [] "." [] =
  Raised ["packages"].
Proof.
  assert (visits Path.posix (skipDirs throwingAtFoo) cleanTree [] "." =
    [ VisitFile (entryAt Path.posix [] "." ["package.json"]);
      VisitDirectory (entryAt Path.posix [] "." ["packages"]) ] ++
    VisitDirectory (entryAt Path.posix [] "." ["packages"; "foo"]) ::
    [ VisitFile packageManifest;
      VisitDirectory (entryAt Path.posix [] "." ["packages"; "foo"; "src"]) ])
    as Hv by (vm_compute; reflexivity).
  split; [exact Hv|].
  exact (walk_stops_at_throwing_callback Path.posix throwingAtFoo cleanTree
           [] "." _ _ _ [] ["packages"] ["packages"] Hv eq_refl eq_refl).
Defined.

Lemma scripts_rule_reports_witness :
  readdir untidyTree ["packages"] = Some [("foo", untidyPackage)] ∧
  ∃ added,
    (∀ errors,
       validateScriptsLocation untidyTree emptyConfig errors =
       Done (errors ++ added)) ∧
    (∀ v, v ∈ added ↔
          ∃ nm, scriptsReported untidyTree emptyConfig [("foo", untidyPackage)] nm ∧
                v = scriptsViolation nm) ∧
    (packagesDistinct [("foo", untidyPackage)] → NoDup added).
Proof.
  split; [reflexivity|].
  exact (scripts_rule_reports untidyTree emptyConfig [("foo", untidyPackage)]
           eq_refl).
Defined.

(** With the pattern [/^runtime-/] the examples of [runtime-core] are
    reported and those of [cli] are not. *)
Lemma examples_rule_reports_witness :
  default [] (noExamplesPatterns runtimeConfig) ≠ [] ∧
  (∃ entries, readdir runtimeTree ["packages"] = Some entries) ∧
  validateNoExamplesInPatternPackages runtimeTree runtimeConfig [] =
    Done [examplesViolation "runtime-core"].
Proof.
  assert (default [] (noExamplesPatterns runtimeConfig) ≠ []) as Hp by done.
  split; [exact Hp|]. split; [by eexists|].
  destruct (proj2 (proj2 (examples_rule_reports runtimeTree runtimeConfig) Hp)
              _ eq_refl) as (added & Hrun & Hin & Hnodup).
  rewrite Hrun. cbn [app]. f_equal.
  assert (∀ v, v ∈ added ↔ v = examplesViolation "runtime-core") as Hone.
  { intros v. rewrite Hin. split.
    - intros (nm & (node & Hnode & Hd & (p & Hpat & Ht) & Hex) & ->).
      apply list_elem_of_singleton in Hpat as ->.
      repeat (apply elem_of_cons in Hnode as [[= -> ->]|Hnode]);
        [by vm_compute in Ht | done | by destruct Hex as [? [=]]
        | by apply elem_of_nil in Hnode].
    - intros ->. exists "runtime-core". split; [|done].
      eexists. split_and!.
      + right. left.
      + done.
      + exists runtimePattern. split; [by left | by vm_compute].
      + by eexists. }
  assert (NoDup added) as Hnd.
  { apply Hnodup. unfold packagesDistinct. cbn. apply (bool_decide_unpack _).
    by vm_compute. }
  destruct added as [|v1 [|v2 rest]].
  - exfalso. by apply (elem_of_nil (examplesViolation "runtime-core")), Hone.
  - f_equal. apply Hone. by left.
  - exfalso. apply NoDup_cons in Hnd as [Hnot _]. apply Hnot.
    assert (v1 = examplesViolation "runtime-core") as -> by (apply Hone; by left).
    assert (v2 = examplesViolation "runtime-core") as ->
      by (apply Hone; right; by left).
    by left.
Defined.

(** A tree in which [stat] succeeds on every fixture, and one in which it
    throws although [packages] can be listed. *)
Lemma when_fixture_rules_throw_witness :
  (is_Some (readdir untidyTree ["packages"]) ∧
   (∀ e, e ∈ fixtureFiles Path.posix untidyTree →
         is_Some (stat untidyTree (fullPath e))) ∧
   ∃ sizes, ∀ errors,
     validateTestFixtureSizes Path.posix untidyTree errors =
     Done (errors ++ sizes)) ∧
  (is_Some (readdir lostFixtureTree ["packages"]) ∧
   (∃ e, e ∈ fixtureFiles Path.posix lostFixtureTree ∧
         stat lostFixtureTree (fullPath e) = None) ∧
   ∃ sizes, ∀ errors,
     validateTestFixtureSizes Path.posix lostFixtureTree errors =
     Raised (errors ++ sizes)).
Proof.
  assert (is_Some (readdir untidyTree ["packages"])) as Hr by (by eexists).
  assert (∀ e, e ∈ fixtureFiles Path.posix untidyTree →
               is_Some (stat untidyTree (fullPath e))) as Hok.
  { assert (fixtureFiles Path.posix untidyTree = [fixtureEntry "big.json"])
      as -> by (vm_compute; reflexivity).
    intros e ->%list_elem_of_singleton. by eexists. }
  assert (is_Some (readdir lostFixtureTree ["packages"])) as Hr' by (by eexists).
  assert (∃ e, e ∈ fixtureFiles Path.posix lostFixtureTree ∧
               stat lostFixtureTree (fullPath e) = None) as Hlost.
  { exists (fixtureEntry "ghost.bin"). split; [|reflexivity].
    vm_compute. repeat constructor. }
  split.
  - split; [exact Hr|]. split; [exact Hok|].
    exact (proj1 (proj2 (proj2 (when_fixture_rules_throw Path.posix untidyTree)
                           Hr)) Hok).
  - split; [exact Hr'|]. split; [exact Hlost|].
    exact (proj2 (proj2 (proj2 (when_fixture_rules_throw Path.posix
                                  lostFixtureTree) Hr')) Hlost).
Defined.

(** Status 2 without [packages], and status 2 with [packages] in place
    when [stat] throws on a fixture. *)
Lemma exit_two_iff_a_rule_throws_witness :
  (readdir bareTree ["packages"] = None ∧
   main Path.posix bareTree (Imported None) = 2) ∧
  (is_Some (readdir lostFixtureTree ["packages"]) ∧
   (∃ e, e ∈ fixtureFiles Path.posix lostFixtureTree ∧
         stat lostFixtureTree (fullPath e) = None) ∧
   main Path.posix lostFixtureTree (Imported (Some runtimeConfig)) = 2).
Proof.
  assert (∃ e, e ∈ fixtureFiles Path.posix lostFixtureTree ∧
               stat lostFixtureTree (fullPath e) = None) as Hlost.
  { exists (fixtureEntry "ghost.bin"). split; [|reflexivity].
    vm_compute. repeat constructor. }
  split.
  - split; [reflexivity|].
    exact (proj2 (proj1 (exit_two_iff_a_rule_throws Path.posix bareTree
                           (Imported None)))
             (or_introl eq_refl)).
  - split; [by eexists|]. split; [exact Hlost|].
    exact (proj2 (proj1 (exit_two_iff_a_rule_throws Path.posix lostFixtureTree
                           (Imported (Some runtimeConfig))))
             (or_intror Hlost)).
Defined.


Lemma naming_verdict_by_suffix_witness :
  JS.endsWith "bar.spec.ts" ".spec.ts" = true ∧
  validateTestFileNaming_onFile
    (entryAt Path.posix [] "." ["packages"; "foo"; "test"; "bar.spec.ts"]) [] =
  Done ([] ++
    [structural
       (entryAt Path.posix [] "." ["packages"; "foo"; "test"; "bar.spec.ts"])
       "Use .test.ts instead of .spec.ts for consistency."]).
Proof.
  split; [reflexivity|].
  exact (proj1 (naming_verdict_by_suffix
                  (entryAt Path.posix [] "."
                     ["packages"; "foo"; "test"; "bar.spec.ts"]) [])
           eq_refl).
Defined.

(** A [.ts] file in a [scripts] directory at the root is reported; with
    a configured pattern [/^tools\//] a [.ts] file below [tools] is
    accepted. *)
Lemma source_file_locations_witness :
  (JS.endsWith "build.ts" ".ts" = true ∧
   ¬ allowedTsLocation emptyConfig "scripts/build.ts" ∧
   ∃ v, validateSourceFileLocations_onFile emptyConfig
          (entryAt Path.posix [] "." ["scripts"; "build.ts"]) [] = Done ([] ++ [v]) ∧
        type v = STRUCTURAL_VIOLATION ∧ severity v = error ∧
        path v = "scripts/build.ts") ∧
  (allowedTsLocation toolsConfig "tools/gen.ts" ∧
   validateSourceFileLocations_onFile toolsConfig
     (entryAt Path.posix [] "." ["tools"; "gen.ts"]) [] = Done []).
Proof.
  assert (¬ allowedTsLocation emptyConfig "scripts/build.ts") as Hno.
  { rewrite allowedTsLocation_tests. vm_compute. discriminate. }
  assert (allowedTsLocation toolsConfig "tools/gen.ts") as Hyes.
  { do 4 right. exists toolsPattern. split; [by left | by vm_compute]. }
  split.
  - split; [reflexivity|]. split; [exact Hno|].
    exact (proj2 (proj2 (source_file_locations emptyConfig
                           (entryAt Path.posix [] "." ["scripts"; "build.ts"]) [])
                    eq_refl) Hno).
  - split; [exact Hyes|].
    exact (proj2 (proj1 (proj2 (source_file_locations toolsConfig
                                  (entryAt Path.posix [] "." ["tools"; "gen.ts"]) [])
                           eq_refl)) Hyes).
Defined.

(** A file that only the configuration allows stays accepted when the
    configuration allows more. *)
Lemma allowing_more_reports_less_witness :
  extendsConfig toolsConfig widerConfig ∧
  ¬ allowedTsLocation emptyConfig "tools/gen.ts" ∧
  validateSourceFileLocations_onFile toolsConfig
    (entryAt Path.posix [] "." ["tools"; "gen.ts"]) [] = Done [] ∧
  validateSourceFileLocations_onFile widerConfig
    (entryAt Path.posix [] "." ["tools"; "gen.ts"]) [] = Done [].
Proof.
  assert (extendsConfig toolsConfig widerConfig) as Hext.
  { split; cbn; intros x ->%list_elem_of_singleton; right; by left. }
  assert (¬ allowedTsLocation emptyConfig "tools/gen.ts") as Hno.
  { rewrite allowedTsLocation_tests. vm_compute. discriminate. }
  assert (validateSourceFileLocations_onFile toolsConfig
            (entryAt Path.posix [] "." ["tools"; "gen.ts"]) [] = Done [])
    as Hrun by (vm_compute; reflexivity).
  split; [exact Hext|]. split; [exact Hno|]. split; [exact Hrun|].
  exact (allowing_more_reports_less toolsConfig widerConfig _ [] Hext Hrun).
Defined.

(** The report of a warning and an error. *)
Lemma report_shows_every_violation_witness :
  sampleReport ≠ [] ∧
  printResults plainIcons sampleReport =
  [ nl +:+ "[x] Repository structure validation failed:";
    "   1 errors, 1 warnings" +:+ nl;
    nl +:+ "LARGE FILE:";
    "  [!] packages/foo/test/fixtures/big.json";
    "     File is 101KB (>100KB). Compress large test fixtures or use external storage." +:+ nl;
    nl +:+ "FORBIDDEN DIRECTORY:";
    "  [x] packages/foo/scripts/";
    "     Only packages in allowedScriptsPackages may have /scripts directories. Move utilities to dev-tools package." +:+ nl ] ∧
  length (printResults plainIcons sampleReport) = 8%nat.
Proof.
  assert (sampleReport ≠ []) as Hne by done.
  split; [exact Hne|].
  destruct (proj2 (proj2 (report_shows_every_violation plainIcons sampleReport))
              Hne) as [Hlines Hlen].
  split.
  - rewrite Hlines. vm_compute. reflexivity.
  - rewrite Hlen. vm_compute. reflexivity.
Defined.

Lemma warnings_only_run_reports_failure_witness :
  runRules Path.posix warningTree (configOf (Imported None)) [] =
    Done [largeFile (fixtureEntry "big.json") (inject_Z 103424 / inject_Z 1024)%Q] ∧
  main Path.posix warningTree (Imported None) = 0 ∧
  validateLog Path.posix warningTree plainIcons (configOf (Imported None)) [] =
  (searching plainIcons +:+ " Validating repository structure..." +:+ nl)
  :: (nl +:+ failed plainIcons +:+ " Repository structure validation failed:")
  :: ("   0 errors, " +:+
      pretty (length
        [largeFile (fixtureEntry "big.json") (inject_Z 103424 / inject_Z 1024)%Q])
      +:+ " warnings" +:+ nl)
  :: flat_map (groupLines plainIcons)
       (byType
          [largeFile (fixtureEntry "big.json") (inject_Z 103424 / inject_Z 1024)%Q]).
Proof.
  assert (runRules Path.posix warningTree (configOf (Imported None)) [] =
    Done [largeFile (fixtureEntry "big.json") (inject_Z 103424 / inject_Z 1024)%Q])
    as Hrun by (vm_compute; reflexivity).
  split; [exact Hrun|].
  refine (warnings_only_run_reports_failure Path.posix warningTree plainIcons
            (Imported None) _ Hrun _ _).
  - discriminate.
  - repeat constructor.
Defined.

Lemma no_report_without_packages_witness :
  readdir bareTree ["packages"] = None ∧
  validateLog Path.posix bareTree plainIcons emptyConfig [] =
  [searching plainIcons +:+ " Validating repository structure..." +:+ nl].
Proof.
  split; [reflexivity|].
  exact (proj1 (no_report_without_packages Path.posix bareTree plainIcons
                  emptyConfig [] eq_refl)).
Defined.

(** A name is proper when the tests on it succeed. *)
Lemma properName_tests platform nm :
  bool_decide (nm ≠ "" ∧ nm ≠ "." ∧ nm ≠ "..") &&
  forallb (λ c, negb (Path.isPathSeparator platform c)) (JS.chars nm) = true →
  properName platform nm.
Proof.
  intros [H1%bool_decide_eq_true H2]%andb_true_iff.
  destruct H1 as (? & ? & ?). split_and!; try done.
  intros c Hc. rewrite forallb_forall in H2.
  apply negb_true_iff, H2. by apply list_elem_of_In.
Qed.

Lemma properName_windows_samples :
  Forall (properName Path.win32) ["packages"; "foo"; "src"; "package.json"].
Proof.
  repeat apply Forall_cons_2; [..|apply @List.Forall_nil];
    apply properName_tests; vm_compute; reflexivity.
Qed.

Lemma properName_posix_samples :
  Forall (properName Path.posix) ["packages\foo"; "package.json"].
Proof.
  repeat apply Forall_cons_2; [..|apply @List.Forall_nil];
    apply properName_tests; vm_compute; reflexivity.
Qed.

(** On Windows the normalised path is the names joined by slashes; on
    POSIX a backslash in a name becomes one more slash. *)
Lemma relPath_is_the_position_witness :
  (VisitFile (entryAt Path.win32 [] "." ["packages"; "foo"; "src"; "package.json"])
     ∈ visits Path.win32 None conventionTree REPO_ROOT "." ∧
   relPath (entryAt Path.win32 [] "." ["packages"; "foo"; "src"; "package.json"]) =
     "packages\foo\src\package.json" ∧
   normalised
     (relPath (entryAt Path.win32 [] "." ["packages"; "foo"; "src"; "package.json"])) =
     "packages/foo/src/package.json") ∧
  (VisitFile (entryAt Path.posix [] "." ["packages\foo"; "package.json"])
     ∈ visits Path.posix None backslashTree REPO_ROOT "." ∧
   ¬ Forall plainName ["packages\foo"; "package.json"] ∧
   relPath (entryAt Path.posix [] "." ["packages\foo"; "package.json"]) =
     "packages\foo/package.json" ∧
   normalised (relPath (entryAt Path.posix [] "." ["packages\foo"; "package.json"])) =
     "packages/foo/package.json").
Proof.
  assert (VisitFile
            (entryAt Path.win32 [] "." ["packages"; "foo"; "src"; "package.json"])
            ∈ visits Path.win32 None conventionTree REPO_ROOT ".") as Hv
    by (vm_compute; repeat constructor).
  assert (VisitFile (entryAt Path.posix [] "." ["packages\foo"; "package.json"])
            ∈ visits Path.posix None backslashTree REPO_ROOT ".") as Hv'
    by (vm_compute; repeat constructor).
  assert (Forall plainName ["packages"; "foo"; "src"; "package.json"]) as Hplain
    by (repeat apply Forall_cons_2; [..|apply @List.Forall_nil]; compute_done).
  split.
  - split; [exact Hv|].
    destruct (relPath_is_the_position Path.win32 None conventionTree _ Hv
                properName_windows_samples) as (Hrel & _ & Hnorm).
    split; [exact Hrel | exact (Hnorm Hplain)].
  - split; [exact Hv'|]. split.
    { intros [H _]%Forall_cons. apply H. compute_done. }
    destruct (relPath_is_the_position Path.posix None backslashTree _ Hv'
                properName_posix_samples) as (Hrel & Hnorm & _).
    split; [exact Hrel | exact Hnorm].
Defined.

(** On Windows a manifest in [packages\foo\src] is reported; on POSIX the
    manifest of a root directory named [packages\foo] is accepted, as the
    rule reads the backslash as a separator. *)
Lemma nested_manifest_positions_witness :
  (VisitFile (entryAt Path.win32 [] "." ["packages"; "foo"; "src"; "package.json"])
     ∈ visits Path.win32 (Some (COMMON_SKIP_DIRS ∪ {[ WORKTREES_DIR ]}))
         conventionTree REPO_ROOT "." ∧
   ¬ manifestPosition ["packages"; "foo"; "src"; "package.json"] ∧
   validateNoNestedPackageJson_onFile
     (entryAt Path.win32 [] "." ["packages"; "foo"; "src"; "package.json"]) [] =
   Done [nestedPackageJson
           (entryAt Path.win32 [] "." ["packages"; "foo"; "src"; "package.json"])]) ∧
  (VisitFile (entryAt Path.posix [] "." ["packages\foo"; "package.json"])
     ∈ visits Path.posix (Some (COMMON_SKIP_DIRS ∪ {[ WORKTREES_DIR ]}))
         backslashTree REPO_ROOT "." ∧
   manifestPosition ["packages"; "foo"; "package.json"] ∧
   validateNoNestedPackageJson_onFile
     (entryAt Path.posix [] "." ["packages\foo"; "package.json"]) [] = Done []).
Proof.
  assert (VisitFile
            (entryAt Path.win32 [] "." ["packages"; "foo"; "src"; "package.json"])
            ∈ visits Path.win32 (Some (COMMON_SKIP_DIRS ∪ {[ WORKTREES_DIR ]}))
                conventionTree REPO_ROOT ".") as Hv
    by (vm_compute; repeat constructor).
  assert (VisitFile (entryAt Path.posix [] "." ["packages\foo"; "package.json"])
            ∈ visits Path.posix (Some (COMMON_SKIP_DIRS ∪ {[ WORKTREES_DIR ]}))
                backslashTree REPO_ROOT ".") as Hv'
    by (vm_compute; repeat constructor).
  assert (¬ manifestPosition ["packages"; "foo"; "src"; "package.json"]) as Hno.
  { intros [[=]|[(x & _ & [=])|(x & rest & _ & _ & [=])]]. }
  assert (manifestPosition ["packages"; "foo"; "package.json"]) as Hyes.
  { right. left. by exists "foo". }
  split.
  - split; [exact Hv|]. split; [exact Hno|].
    exact (proj1 (proj2 (nested_manifest_positions Path.win32 conventionTree _ []
                           Hv eq_refl properName_windows_samples)) Hno).
  - split; [exact Hv'|]. split; [exact Hyes|].
    exact (proj2 (proj1 (nested_manifest_positions Path.posix backslashTree _ []
                           Hv' eq_refl properName_posix_samples)) Hyes).
Defined.

Lemma shell_rule_reports_witness :
  lookup untidyTree REPO_ROOT = Some untidyTree ∧
  ∃ added,
    (∀ errors,
       validateNoShellScripts Path.posix untidyTree errors =
       Done (errors ++ added)) ∧
    ∀ w, w ∈ added ↔
         ∃ q m,
           reached (Some SKIP_DIRS_WITH_HUSKY) untidyTree q m ∧ isFile m = true ∧
           JS.toLowerCase (extension (default "" (last q))) ∈ FORBIDDEN_EXTENSIONS ∧
           w = shellScript (entryAt Path.posix REPO_ROOT "." q).
Proof.
  split; [reflexivity|].
  exact (shell_rule_reports Path.posix untidyTree untidyTree eq_refl).
Defined.

Lemma staging_rule_reports_witness :
  readdir untidyTree ["packages"] = Some [("foo", untidyPackage)] ∧
  ∃ added,
    (∀ errors,
       validateNoStagingDirectories Path.posix untidyTree errors =
       Done (errors ++ added)) ∧
    ∀ w, w ∈ added ↔
         ∃ nm node n q m,
           (nm, node) ∈ [("foo", untidyPackage)] ∧ isDirectory node = true ∧
           lookup untidyTree (fixturesOf nm) = Some n ∧
           reached None n q m ∧ isDirectory m = true ∧
           last q = Some "staging" ∧
           w = stagingViolation
                 (entryAt Path.posix (fixturesOf nm) (fixturesRel nm) q).
Proof.
  split; [reflexivity|].
  exact (staging_rule_reports Path.posix untidyTree [("foo", untidyPackage)]
           eq_refl).
Defined.

Lemma fixture_size_rule_reports_witness :
  readdir untidyTree ["packages"] = Some [("foo", untidyPackage)] ∧
  (∀ e, e ∈ fixtureFiles Path.posix untidyTree →
        is_Some (stat untidyTree (fullPath e))) ∧
  ∃ added,
    (∀ errors,
       validateTestFixtureSizes Path.posix untidyTree errors =
       Done (errors ++ added)) ∧
    ∀ w, w ∈ added ↔
         ∃ nm node n q m size,
           (nm, node) ∈ [("foo", untidyPackage)] ∧ isDirectory node = true ∧
           lookup untidyTree (fixturesOf nm) = Some n ∧
           reached None n q m ∧ isFile m = true ∧
           stat untidyTree (fixturesOf nm ++ q) = Some size ∧
           (102400 < size)%N ∧
           ¬ compressedName (default "" (last q)) ∧
           w = largeFile
                 (entryAt Path.posix (fixturesOf nm) (fixturesRel nm) q)
                 (inject_Z (Z.of_N size) / inject_Z 1024)%Q.
Proof.
  assert (∀ e, e ∈ fixtureFiles Path.posix untidyTree →
               is_Some (stat untidyTree (fullPath e))) as Hok.
  { assert (fixtureFiles Path.posix untidyTree = [fixtureEntry "big.json"])
      as -> by (vm_compute; reflexivity).
    intros e ->%list_elem_of_singleton. by eexists. }
  split; [reflexivity|]. split; [exact Hok|].
  exact (fixture_size_rule_reports Path.posix untidyTree
           [("foo", untidyPackage)] eq_refl Hok).
Defined.
